(** * iso8583-connection: a shallow embedding of [connection.go]

    The development follows the source file top to bottom: the error values,
    the collaborators the engine is handed (codec, transport, framer), the
    [Connection] structure, and then every method of the engine as a function
    in a small state-and-trace monad.

    One goroutine is followed in program order.  Whatever the source does to
    the world outside the [Connection] structure (a send on a channel, a
    [go] statement, a call on the transport, the barrier) is recorded as an
    event, at the place where the statement stands in the source; a
    statement that may block is recorded where it completes.  Choices the
    environment makes (which branch of a [select] fires, what the peer sends)
    are arguments of the functions.  The two mutexes guard single reads and
    writes of the fields, which are atomic steps here.  [Connect] comes
    after the engine, with the results of the dial and what the [OnConnect]
    callback does as arguments. *)

From Stdlib Require Import Ascii String ZArith List Lia.
From Stdlib.Strings Require Import Byte.
From stdpp Require Import base gmap strings list fin_maps.

Open Scope string_scope.
Open Scope list_scope.
Set Warnings "-register-all".

(** ** Basic data *)

(** [[]byte] *)
Abbreviation bytes := (list byte).

#[global] Instance byte_eq_decision : EqDecision byte := byte_eq_dec.

(** A channel value is the identity of the channel [make] returned. *)
Definition chan := nat.

(** A callback installed in [Options] is opaque to the engine, which only
    tests it against [nil] and starts it; it is known by its identity. *)
Definition handler := nat.

(** ** Errors *)

(** The error values that occur in [connection.go], by the way they are built.
    [ptr_ErrUnpack] is a [*ErrUnpack]; its [Err] field is an interface value
    and may be [nil].  [SafeError] is [utils.NewSafeError] of the codec
    library: its message is the safe text alone, and it unwraps to the error
    it was made from.  [collaborator_error] is an error produced outside the
    package (codec, framer, transport). *)
Inductive error : Type :=
  | ErrConnectionClosed
  | ErrSendTimeout
  | errors_New (text : string)
  | fmt_Errorf (text : string)
  | fmt_Errorf_w (prefix : string) (wrapped : error)
  | SafeError (inner : error) (Msg : string)
  | ptr_ErrUnpack (inner : option error) (raw : bytes)
  | collaborator_error (text : string).

(** [type ErrUnpack struct { Err error; RawMessage []byte }] *)
Record ErrUnpack : Type := mkErrUnpack {
  Err : option error;
  RawMessage : bytes
}.

(** The interface value holding a pointer to the structure. *)
Definition as_error (e : ErrUnpack) : error :=
  ptr_ErrUnpack (Err e) (RawMessage e).

(** What [fmt] prints for an operand whose [Error] method panics. *)
Definition fmt_panic_text : string :=
  "%!w(PANIC=Error method: runtime error: invalid memory address or nil pointer dereference)".

(** The [Error() string] method of every error value; [None] is the run-time
    panic of a method call on a [nil] interface value. *)
Fixpoint Error (e : error) : option string :=
  match e with
  | ErrConnectionClosed => Some "connection closed"
  | ErrSendTimeout => Some "message send timeout"
  | errors_New text => Some text
  | fmt_Errorf text => Some text
  | fmt_Errorf_w prefix wrapped =>
      match Error wrapped with
      | Some s => Some (prefix +:+ s)
      | None => Some (prefix +:+ fmt_panic_text)
      end
  | SafeError _ Msg => Some Msg
  | ptr_ErrUnpack (Some u) _ => Error u
  | ptr_ErrUnpack None _ => None
  | collaborator_error text => Some text
  end.

(** The [Unwrap() error] method, [None] for [nil] and for the values that
    have no such method. *)
Definition Unwrap (e : error) : option error :=
  match e with
  | fmt_Errorf_w _ wrapped => Some wrapped
  | SafeError inner _ => Some inner
  | ptr_ErrUnpack inner _ => inner
  | _ => None
  end.

(** [func (e *ErrUnpack) Error() string { return e.Err.Error() }] *)
Definition ErrUnpack_Error (e : ErrUnpack) : option string :=
  match Err e with
  | Some u => Error u
  | None => None
  end.

(** [func (e *ErrUnpack) Unwrap() error { return e.Err }] *)
Definition ErrUnpack_Unwrap (e : ErrUnpack) : option error := Err e.

(** The chain [errors.Is] and [errors.As] walk: the error, then what [Unwrap]
    returns, and so on until [nil]. *)
Fixpoint chain (e : error) : list error :=
  e :: match e with
       | fmt_Errorf_w _ wrapped => chain wrapped
       | SafeError inner _ => chain inner
       | ptr_ErrUnpack (Some u) _ => chain u
       | _ => []
       end.

(** Structural equality of error values, the model's reading of [==] on two
    interface values: the sentinels are constructors of their own, so each is
    equal to itself only. *)
Fixpoint error_eqb (a b : error) : bool :=
  match a, b with
  | ErrConnectionClosed, ErrConnectionClosed => true
  | ErrSendTimeout, ErrSendTimeout => true
  | errors_New s, errors_New t => bool_decide (s = t)
  | fmt_Errorf s, fmt_Errorf t => bool_decide (s = t)
  | fmt_Errorf_w p x, fmt_Errorf_w q y => bool_decide (p = q) && error_eqb x y
  | SafeError x m, SafeError y n => error_eqb x y && bool_decide (m = n)
  | ptr_ErrUnpack (Some x) r, ptr_ErrUnpack (Some y) s =>
      error_eqb x y && bool_decide (r = s)
  | ptr_ErrUnpack None r, ptr_ErrUnpack None s => bool_decide (r = s)
  | collaborator_error s, collaborator_error t => bool_decide (s = t)
  | _, _ => false
  end.

(** [errors.Is(err, target)] *)
Definition errors_Is (err target : error) : bool :=
  existsb (fun e => error_eqb e target) (chain err).

(** The first value of a chain that passes the type test [cast]. *)
Fixpoint first_as {A : Type} (cast : error -> option A) (l : list error) : option A :=
  match l with
  | [] => None
  | e :: rest =>
      match cast e with
      | Some a => Some a
      | None => first_as cast rest
      end
  end.

(** [errors.As(err, &target)]: the first value of the chain that is of the
    target's type. *)
Definition errors_As {A : Type} (cast : error -> option A) (err : error) : option A :=
  first_as cast (chain err).

(** The type test for [*ErrUnpack]. *)
Definition to_ErrUnpack (e : error) : option ErrUnpack :=
  match e with
  | ptr_ErrUnpack inner raw => Some (mkErrUnpack inner raw)
  | _ => None
  end.

(** ** Collaborators *)

(** A Go call returning [(T, error)]: both results, the error [nil] or not. *)
Definition result (A : Type) : Type := A * option error.

(** The codec, [github.com/moov-io/iso8583]: the methods the engine calls on
    a message.  [Pack_nil] is what [Pack] does on a [nil] receiver, [None]
    when it panics. *)
Class Codec (Message : Type) : Type := {
  Pack : Message -> result bytes;
  Pack_nil : option (result bytes);
  GetMTI : Message -> result string;
  GetString : Message -> Z -> result string
}.

(** A [*iso8583.MessageSpec], as the unpacking it determines:
    [iso8583.NewMessage(spec)] followed by [message.Unpack(raw)] gives the
    message and the error. *)
Definition MessageSpec (Message : Type) : Type := bytes -> result Message.

(** The transport, an [io.ReadWriteCloser], as far as the engine writes to
    it and closes it (what it reads is an argument of the reader loop).
    Each method returns the transport after the call with its Go results. *)
Class ReadWriteCloser (T : Type) : Type := {
  conn_Write : T -> bytes -> T * result Z;
  conn_Close : T -> T * option error
}.

(** [type MessageLengthWriter func(w io.Writer, length int) (int, error)]:
    the bytes it wrote into [w], then its two results. *)
Definition MessageLengthWriter : Type := Z -> bytes * result Z.

(** ** Data model *)

(** [type Status string] *)
Definition Status : Type := string.
Definition StatusOnline : Status := "online".
Definition StatusOffline : Status := "offline".
Definition StatusUnknown : Status := "".

(** Modelled from the spec: the [Options] structure is declared in a file of
    the package that is not among the sources; section 3 of the specification
    enumerates its fields, and [connection.go] reads exactly these.  Durations
    are in nanoseconds; a callback is [None] when it is [nil]. *)
Record Options : Type := mkOptions {
  ConnectTimeout : Z;
  SendTimeout : Z;
  IdleTime : Z;
  ReadTimeout : Z;
  TLSConfig : option unit;
  OnConnect : option handler;
  ConnectionEstablishedHandler : option handler;
  ConnectionClosedHandlers : list handler;
  ErrorHandler : option handler;
  PingHandler : option handler;
  ReadTimeoutHandler : option handler;
  InboundMessageHandler : option handler
}.

(** [type request struct]: [req_replyCh] is [None] for a [nil] channel. *)
Record request : Type := mkRequest {
  req_rawMessage : bytes;
  req_requestID : string;
  req_replyCh : option chan;
  req_errCh : chan
}.

(** [type response struct] *)
Record response : Type := mkResponse {
  resp_replyCh : chan;
  resp_errCh : chan
}.

(** The state of a channel that is only ever closed. *)
Inductive chan_state : Type := Open | Closed.

Section Engine.

Context {Message : Type} `{!Codec Message}.
Context {T : Type} `{!ReadWriteCloser T}.

(** [type Connection struct].  The two hand-over channels have no state of
    their own in the model (they are unbuffered); [done_ch] is the [done]
    channel; [spec] is the message spec, which [handleResponse] unpacks
    with; [next_chan] numbers the channels [make] returns.  The barrier
    appears in the trace only. *)
Record Connection : Type := mkConnection {
  addr : string;
  Opts : Options;
  conn : option T;
  done_ch : chan_state;
  spec : MessageSpec Message;
  writeMessageLength : MessageLengthWriter;
  respMap : gmap string response;
  closing : bool;
  status : Status;
  next_chan : nat
}.

(** ** Events *)

(** What a [go] statement starts. *)
Inductive goroutine : Type :=
  | GoErrorHandler (h : handler) (err : error)
  | GoInboundMessageHandler (h : handler) (m : Message)
  | GoConnectionClosedHandler (h : handler)
  | GoConnectionEstablishedHandler (h : handler)
  | GoPingHandler (h : handler)
  | GoReadTimeoutHandler (h : handler)
  | GoDrainRequests (done : chan)
  | GoWaitBarrier (done : chan)
  | GoSalvage (replyCh : chan) (h : handler)
  | GoHandleResponse (raw : bytes).

Inductive event : Type :=
  | EvWgAdd
  | EvWgDone
  | EvWgWait
  | EvCloseDone
  | EvConnClose
  | EvConnWrite (raw : bytes)
  | EvEnqueue (req : request)
  | EvSendErr (ch : chan) (err : option error)
  | EvSendReply (ch : chan) (m : Message)
  | EvSendRaw (raw : bytes)
  | EvStore (key : string) (r : response)
  | EvLookup (key : string)
  | EvDelete (key : string)
  | EvGo (g : goroutine).

(** ** The monad *)

(** A call either returns or panics; either way it leaves a connection and
    the events it produced, oldest first. *)
Inductive outcome (A : Type) : Type :=
  | Returns (a : A) (c : Connection) (tr : list event)
  | Panics (why : string) (c : Connection) (tr : list event).
Arguments Returns {A} a c tr.
Arguments Panics {A} why c tr.

Definition Go (A : Type) : Type := Connection -> outcome A.

Definition ret {A : Type} (a : A) : Go A := fun c => Returns a c [].

Definition bind {A B : Type} (m : Go A) (k : A -> Go B) : Go B :=
  fun c =>
    match m c with
    | Returns a c1 t1 =>
        match k a c1 with
        | Returns b c2 t2 => Returns b c2 (t1 ++ t2)
        | Panics why c2 t2 => Panics why c2 (t1 ++ t2)
        end
    | Panics why c1 t1 => Panics why c1 t1
    end.

Definition panic {A : Type} (why : string) : Go A := fun c => Panics why c [].
Definition emit (e : event) : Go unit := fun c => Returns tt c [e].
Definition get : Go Connection := fun c => Returns c c [].
Definition put (c : Connection) : Go unit := fun _ => Returns tt c [].

(** [defer d] around a body: [d] runs when the body returns and when it
    panics. *)
Definition with_defer {A : Type} (d : Go unit) (body : Go A) : Go A :=
  fun c =>
    match body c with
    | Returns a c1 t1 =>
        match d c1 with
        | Returns _ c2 t2 => Returns a c2 (t1 ++ t2)
        | Panics why c2 t2 => Panics why c2 (t1 ++ t2)
        end
    | Panics why c1 t1 =>
        match d c1 with
        | Returns _ c2 t2 => Panics why c2 (t1 ++ t2)
        | Panics why2 c2 t2 => Panics why2 c2 (t1 ++ t2)
        end
    end.

(** A [for ... range] over a list. *)
Fixpoint for_range {A : Type} (l : list A) (body : A -> Go unit) : Go unit :=
  match l with
  | [] => ret tt
  | x :: rest => bind (body x) (fun _ => for_range rest body)
  end.

Notation "x <- m ;; k" := (bind m (fun x => k))
  (at level 100, m at next level, k at level 200, right associativity).
Notation "m ;; k" := (bind m (fun _ => k))
  (at level 100, k at level 200, right associativity).

(** ** Assignments to the fields of the structure *)

Definition set_conn (t : option T) (c : Connection) : Connection :=
  mkConnection (addr c) (Opts c) t (done_ch c) (spec c) (writeMessageLength c)
    (respMap c) (closing c) (status c) (next_chan c).

Definition set_done_ch (d : chan_state) (c : Connection) : Connection :=
  mkConnection (addr c) (Opts c) (conn c) d (spec c) (writeMessageLength c)
    (respMap c) (closing c) (status c) (next_chan c).

Definition set_respMap (m : gmap string response) (c : Connection) : Connection :=
  mkConnection (addr c) (Opts c) (conn c) (done_ch c) (spec c) (writeMessageLength c)
    m (closing c) (status c) (next_chan c).

Definition set_closing (b : bool) (c : Connection) : Connection :=
  mkConnection (addr c) (Opts c) (conn c) (done_ch c) (spec c) (writeMessageLength c)
    (respMap c) b (status c) (next_chan c).

Definition set_status (s : Status) (c : Connection) : Connection :=
  mkConnection (addr c) (Opts c) (conn c) (done_ch c) (spec c) (writeMessageLength c)
    (respMap c) (closing c) s (next_chan c).

Definition set_next_chan (n : nat) (c : Connection) : Connection :=
  mkConnection (addr c) (Opts c) (conn c) (done_ch c) (spec c) (writeMessageLength c)
    (respMap c) (closing c) (status c) n.

Definition set_Opts (o : Options) (c : Connection) : Connection :=
  mkConnection (addr c) o (conn c) (done_ch c) (spec c) (writeMessageLength c)
    (respMap c) (closing c) (status c) (next_chan c).

(** ** Statements *)

(** [make(chan ...)] *)
Definition make_chan : Go chan :=
  c <- get ;;
  put (set_next_chan (S (next_chan c)) c) ;;
  ret (next_chan c).

(** [close(c.done)]: closing a closed channel panics. *)
Definition close_done : Go unit :=
  c <- get ;;
  match done_ch c with
  | Open => put (set_done_ch Closed c) ;; emit EvCloseDone
  | Closed => panic "close of closed channel"
  end.

(** [c.respMap[key] = r] *)
Definition respMap_store (key : string) (r : response) : Go unit :=
  c <- get ;;
  put (set_respMap (<[key := r]> (respMap c)) c) ;;
  emit (EvStore key r).

(** [response, found := c.respMap[key]] *)
Definition respMap_load (key : string) : Go (option response) :=
  c <- get ;;
  emit (EvLookup key) ;;
  ret (respMap c !! key).

(** [delete(c.respMap, key)] *)
Definition respMap_delete (key : string) : Go unit :=
  c <- get ;;
  put (set_respMap (delete key (respMap c)) c) ;;
  emit (EvDelete key).

(** The results of [message.Pack()] on a message pointer, [None] when the
    call panics. *)
Definition Pack_ptr (message : option Message) : option (result bytes) :=
  match message with
  | Some m => Some (Pack m)
  | None => Pack_nil
  end.

(** [message.Pack()] as a statement. *)
Definition message_Pack (message : option Message) : Go (result bytes) :=
  match Pack_ptr message with
  | Some r => ret r
  | None => panic "invalid memory address or nil pointer dereference"
  end.

(** [c.conn.Write(raw)]; a [nil] transport panics. *)
Definition transport_Write (raw : bytes) : Go (option error) :=
  c <- get ;;
  match conn c with
  | None => panic "invalid memory address or nil pointer dereference"
  | Some t =>
      let '(t', (_, err)) := conn_Write t raw in
      put (set_conn (Some t') c) ;;
      emit (EvConnWrite raw) ;;
      ret err
  end.

(** ** The engine *)

(** [func New(addr, spec, mlReader, mlWriter, options...)].  The defaults
    come from [GetDefaultOptions], which is not among the sources and is an
    argument here; an option is a function on the options that may fail
    (the text of the wrapping error also prints the option, which the model
    leaves out).  [mlReader] is used by the reader loop only, whose reads are
    an argument of [readLoop]. *)
Fixpoint apply_options (options : list (Options -> Options * option error))
    (opts : Options) : Options * option error :=
  match options with
  | [] => (opts, None)
  | opt :: rest =>
      let '(opts', err) := opt opts in
      match err with
      | Some e => (opts', Some (fmt_Errorf_w "setting client option: " e))
      | None => apply_options rest opts'
      end
  end.

Definition New (GetDefaultOptions : Options) (a : string)
    (sp : MessageSpec Message) (mlWriter : MessageLengthWriter)
    (options : list (Options -> Options * option error))
  : option Connection * option error :=
  let '(opts, err) := apply_options options GetDefaultOptions in
  match err with
  | Some e => (None, Some e)
  | None =>
      (Some (mkConnection a opts None Open sp mlWriter ∅ false StatusUnknown 0),
       None)
  end.

(** [func (c *Connection) SetOptions(options ...Option) error]: the options
    are applied to [c.Opts] in place, up to the first that fails. *)
Definition SetOptions (options : list (Options -> Options * option error))
  : Go (option error) :=
  c <- get ;;
  put (set_Opts (apply_options options (Opts c)).1 c) ;;
  ret (apply_options options (Opts c)).2.

(** [func (c *Connection) handleError(err error)] *)
Definition handleError (err : error) : Go unit :=
  c <- get ;;
  match ErrorHandler (Opts c) with
  | None => ret tt
  | Some h => emit (EvGo (GoErrorHandler h err))
  end.

(** What [close] returns for the error of [c.conn.Close()]. *)
Definition close_result (err : option error) : option error :=
  match err with
  | Some e => Some (fmt_Errorf_w "closing connection: " e)
  | None => None
  end.

(** [func (c *Connection) close() error] *)
Definition close : Go (option error) :=
  emit EvWgWait ;;
  close_done ;;
  c <- get ;;
  match conn c with
  | Some t =>
      let '(t', err) := conn_Close t in
      put (set_conn (Some t') c) ;;
      emit EvConnClose ;;
      ret (close_result err)
  | None => ret None
  end.

(** [func (c *Connection) handleConnectionError(err error)].  The range over
    the map visits the entries in the order [map_to_list] gives them; Go
    leaves the order open. *)
Definition handleConnectionError (err : option error) : Go unit :=
  c <- get ;;
  if bool_decide (err = None) || closing c then ret tt
  else
    put (set_closing true c) ;;
    done <- make_chan ;;
    for_range (map_to_list (respMap c))
      (fun kv => emit (EvSendErr (resp_errCh kv.2) (Some ErrConnectionClosed))) ;;
    emit (EvGo (GoDrainRequests done)) ;;
    emit (EvGo (GoWaitBarrier done)) ;;
    _ <- close ;;
    for_range (ConnectionClosedHandlers (Opts c))
      (fun h => emit (EvGo (GoConnectionClosedHandler h))).

(** [func (c *Connection) Close() error] *)
Definition Close : Go (option error) :=
  c <- get ;;
  if closing c then ret None
  else put (set_closing true c) ;; close.

(** [func (c *Connection) Done() <-chan struct{}] *)
Definition Done (c : Connection) : chan_state := done_ch c.

(** [func requestID(message *iso8583.Message) (string, error)] *)
Definition requestID (message : option Message) : result string :=
  match message with
  | None => ("", Some (fmt_Errorf "message required"))
  | Some m =>
      let '(stan, err) := GetString m 11 in
      match err with
      | Some e =>
          ("", Some (fmt_Errorf_w "getting STAN (field 11) of the message: " e))
      | None =>
          if bool_decide (stan = "") then ("", Some (errors_New "STAN is missing"))
          else (stan, None)
      end
  end.

Definition messageFunctionIndex : nat := 2.
Definition messageFunctionRequestResponse : string := "1".
Definition messageFunctionAdviceResponse : string := "3".
Definition messageFunctionNotificationAcknowledgment : string := "5".
Definition messageFunctionInstructionAcknowledgment : string := "7".

(** The conversion [string(b)] of a byte: the UTF-8 encoding of the code
    point of that value, one byte below 128 and two from there on. *)
Definition string_of_byte (b : ascii) : string :=
  let n := nat_of_ascii b in
  if (n <? 128)%nat then String b EmptyString
  else String (ascii_of_nat (192 + n / 64))
         (String (ascii_of_nat (128 + n mod 64)) EmptyString).

(** [func isResponse(message *iso8583.Message) bool].  The index is in range
    after the length test; out of range Go would panic, and the model
    answers [false]. *)
Definition isResponse (message : option Message) : bool :=
  match message with
  | None => false
  | Some m =>
      let mti := (GetMTI m).1 in
      if (String.length mti <? 4)%nat then false
      else
        match String.get messageFunctionIndex mti with
        | None => false
        | Some b =>
            let messageFunction := string_of_byte b in
            bool_decide (messageFunction = messageFunctionRequestResponse)
            || bool_decide (messageFunction = messageFunctionAdviceResponse)
            || bool_decide (messageFunction = messageFunctionNotificationAcknowledgment)
            || bool_decide (messageFunction = messageFunctionInstructionAcknowledgment)
        end
  end.

(** [func NewFrom(conn, spec, mlReader, mlWriter, options...)].  The call
    [c.run()] starts the three loops, which are the functions [writeLoop],
    [readLoop] and [readResponseLoop] below. *)
Definition NewFrom (GetDefaultOptions : Options) (t : T)
    (sp : MessageSpec Message) (mlWriter : MessageLengthWriter)
    (options : list (Options -> Options * option error))
  : option Connection * option error :=
  match New GetDefaultOptions "" sp mlWriter options with
  | (Some c, None) => (Some (set_conn (Some t) c), None)
  | (_, Some e) => (None, Some (fmt_Errorf_w "creating client: " e))
  | (None, None) => (None, None)
  end.

(** How the [select] of [Send] ends: a reply on [req.replyCh], an error on
    [req.errCh], or the timer. *)
Inductive send_wait : Type :=
  | WaitReply (resp : Message)
  | WaitErr (err : option error)
  | WaitTimeout.

(** [func (c *Connection) Send(message)], with its two results.
    [buf.Write] on a [bytes.Buffer] returns no error. *)
Definition Send (message : option Message) (w : send_wait)
  : Go (option Message * option error) :=
  emit EvWgAdd ;;
  with_defer (emit EvWgDone)
    (c <- get ;;
     if closing c then ret (None, Some ErrConnectionClosed)
     else
       p <- message_Pack message ;;
       match p.2 with
       | Some e => ret (None, Some (fmt_Errorf_w "packing message: " e))
       | None =>
           let packed := p.1 in
           let h := writeMessageLength c (Z.of_nat (length packed)) in
           match h.2.2 with
           | Some e =>
               ret (None, Some (fmt_Errorf_w "writing message header to buffer: " e))
           | None =>
               let buf := (h.1 ++ packed)%list in
               let id := requestID message in
               match id.2 with
               | Some e => ret (None, Some (fmt_Errorf_w "creating request ID: " e))
               | None =>
                   replyCh <- make_chan ;;
                   errCh <- make_chan ;;
                   let req := mkRequest buf id.1 (Some replyCh) errCh in
                   emit (EvEnqueue req) ;;
                   r <- match w with
                        | WaitReply resp => ret (Some resp, None)
                        | WaitErr err => ret (None, err)
                        | WaitTimeout =>
                            match InboundMessageHandler (Opts c) with
                            | Some hd => emit (EvGo (GoSalvage replyCh hd))
                            | None => ret tt
                            end ;;
                            ret (None, Some ErrSendTimeout)
                        end ;;
                   respMap_delete (req_requestID req) ;;
                   ret r
               end
           end
       end).

(** How the [select] of [Reply] ends. *)
Inductive reply_wait : Type :=
  | ReplyErr (err : option error)
  | ReplyTimeout.

(** [func (c *Connection) Reply(message) error] *)
Definition Reply (message : option Message) (w : reply_wait) : Go (option error) :=
  emit EvWgAdd ;;
  with_defer (emit EvWgDone)
    (c <- get ;;
     if closing c then ret (Some ErrConnectionClosed)
     else
       p <- message_Pack message ;;
       match p.2 with
       | Some e => ret (Some (fmt_Errorf_w "packing message: " e))
       | None =>
           let packed := p.1 in
           let h := writeMessageLength c (Z.of_nat (length packed)) in
           match h.2.2 with
           | Some e =>
               ret (Some (fmt_Errorf_w "writing message header to buffer: " e))
           | None =>
               let buf := (h.1 ++ packed)%list in
               errCh <- make_chan ;;
               let req := mkRequest buf "" None errCh in
               emit (EvEnqueue req) ;;
               match w with
               | ReplyErr err => ret err
               | ReplyTimeout => ret (Some ErrSendTimeout)
               end
           end
       end).

(** The body of the first [select] case of [writeLoop], for the request it
    received; the result is [err] as the loop test sees it. *)
Definition writeLoop_request (req : request) : Go (option error) :=
  match req_replyCh req with
  | Some replyCh =>
      respMap_store (req_requestID req) (mkResponse replyCh (req_errCh req))
  | None => ret tt
  end ;;
  err <- transport_Write (req_rawMessage req) ;;
  match err with
  | Some e =>
      handleError (SafeError e "failed to write message into connection") ;;
      ret (Some e)
  | None =>
      match req_replyCh req with
      | None => emit (EvSendErr (req_errCh req) None)
      | Some _ => ret tt
      end ;;
      ret None
  end.

(** Which case of the [select] of [writeLoop] fires. *)
Inductive write_select : Type :=
  | SelectRequest (req : request)
  | SelectIdle
  | SelectDone.

(** How far a loop got on the choices it was given: it returned, or it is
    waiting for the next one. *)
Inductive loop_end : Type := LoopReturned | LoopWaiting.

(** [func (c *Connection) writeLoop()].  The receive from [c.done] can fire
    only once the channel is closed. *)
Fixpoint writeLoop (script : list write_select) : Go loop_end :=
  match script with
  | [] => ret LoopWaiting
  | SelectRequest req :: rest =>
      err <- writeLoop_request req ;;
      match err with
      | Some e => handleConnectionError (Some e) ;; ret LoopReturned
      | None => writeLoop rest
      end
  | SelectIdle :: rest =>
      c <- get ;;
      match PingHandler (Opts c) with
      | Some h => emit (EvGo (GoPingHandler h))
      | None => ret tt
      end ;;
      writeLoop rest
  | SelectDone :: _ =>
      c <- get ;;
      match done_ch c with
      | Closed => ret LoopReturned
      | Open => ret LoopWaiting
      end
  end.

(** What the transport gives the reader next: a whole frame, or a failure
    of [readMessageLength] or of [io.ReadFull]. *)
Inductive read_step : Type :=
  | ReadFrame (raw : bytes)
  | ReadLengthFails (err : error)
  | ReadBodyFails (err : error).

(** [func (c *Connection) readLoop()] *)
Fixpoint readLoop (script : list read_step) : Go loop_end :=
  match script with
  | [] => ret LoopWaiting
  | ReadFrame raw :: rest => emit (EvSendRaw raw) ;; readLoop rest
  | ReadLengthFails err :: _ =>
      handleError (SafeError err "failed to read message length") ;;
      handleConnectionError (Some err) ;;
      ret LoopReturned
  | ReadBodyFails err :: _ =>
      handleError (SafeError err "failed to read message from connection") ;;
      handleConnectionError (Some err) ;;
      ret LoopReturned
  end.

(** Which case of the [select] of [readResponseLoop] fires. *)
Inductive dispatch_select : Type :=
  | DispatchMessage (raw : bytes)
  | DispatchTimeout
  | DispatchDone.

(** [func (c *Connection) readResponseLoop()] *)
Fixpoint readResponseLoop (script : list dispatch_select) : Go loop_end :=
  match script with
  | [] => ret LoopWaiting
  | DispatchMessage raw :: rest =>
      emit (EvGo (GoHandleResponse raw)) ;; readResponseLoop rest
  | DispatchTimeout :: rest =>
      c <- get ;;
      match ReadTimeoutHandler (Opts c) with
      | Some h => emit (EvGo (GoReadTimeoutHandler h))
      | None => ret tt
      end ;;
      readResponseLoop rest
  | DispatchDone :: _ =>
      c <- get ;;
      match done_ch c with
      | Closed => ret LoopReturned
      | Open => ret LoopWaiting
      end
  end.

(** [func (c *Connection) handleResponse(rawMessage []byte)] *)
Definition handleResponse (rawMessage : bytes) : Go unit :=
  c <- get ;;
  let '(message, err) := spec c rawMessage in
  match err with
  | Some e =>
      let unpackErr := as_error (mkErrUnpack (Some e) rawMessage) in
      handleError (SafeError unpackErr "failed to unpack message")
  | None =>
      if isResponse (Some message) then
        let id := requestID (Some message) in
        match id.2 with
        | Some e => handleError (fmt_Errorf_w "creating request ID:  " e)
        | None =>
            found <- respMap_load id.1 ;;
            c <- get ;;
            match found with
            | Some resp => emit (EvSendReply (resp_replyCh resp) message)
            | None =>
                match InboundMessageHandler (Opts c) with
                | Some h => emit (EvGo (GoInboundMessageHandler h message))
                | None =>
                    handleError (fmt_Errorf ("can't find request for ID: " +:+ id.1))
                end
            end
        end
      else
        c <- get ;;
        match InboundMessageHandler (Opts c) with
        | Some h => emit (EvGo (GoInboundMessageHandler h message))
        | None => ret tt
        end
  end.

(** [func (c *Connection) SetStatus(status Status)] *)
Definition SetStatus (s : Status) : Go unit :=
  c <- get ;; put (set_status s c).

(** [func (c *Connection) Status() Status] *)
Definition Status_ : Go Status :=
  c <- get ;; ret (status c).

(** [func (c *Connection) Addr() string] *)
Definition Addr (c : Connection) : string := addr c.

(** ** Sequences of calls *)

(** A call on a connection, with the choices of the environment it needs. *)
Inductive call : Type :=
  | CallClose
  | CallHandleConnectionError (err : option error)
  | CallSend (message : option Message) (w : send_wait)
  | CallReply (message : option Message) (w : reply_wait)
  | CallHandleResponse (rawMessage : bytes)
  | CallWriteLoop (script : list write_select)
  | CallReadLoop (script : list read_step)
  | CallReadResponseLoop (script : list dispatch_select)
  | CallSetStatus (s : Status)
  | CallSetOptions (options : list (Options -> Options * option error)).

Definition perform (k : call) : Go unit :=
  match k with
  | CallClose => _ <- Close ;; ret tt
  | CallHandleConnectionError err => handleConnectionError err
  | CallSend message w => _ <- Send message w ;; ret tt
  | CallReply message w => _ <- Reply message w ;; ret tt
  | CallHandleResponse rawMessage => handleResponse rawMessage
  | CallWriteLoop script => _ <- writeLoop script ;; ret tt
  | CallReadLoop script => _ <- readLoop script ;; ret tt
  | CallReadResponseLoop script => _ <- readResponseLoop script ;; ret tt
  | CallSetStatus s => SetStatus s
  | CallSetOptions options => _ <- SetOptions options ;; ret tt
  end.

(** The calls of a lifetime, one after the other. *)
Definition lifetime (calls : list call) : Go unit := for_range calls perform.

(** [n] calls of [Close] in a row, with what each returned. *)
Fixpoint Close_times (n : nat) : Go (list (option error)) :=
  match n with
  | O => ret []
  | S k => r <- Close ;; rs <- Close_times k ;; ret (r :: rs)
  end.

End Engine.

Arguments Returns {Message T A} a c tr.
Arguments Panics {Message T A} why c tr.

(** ** Reading a trace *)

Section Traces.

Context {Message : Type}.

Definition is_CloseDone (e : event (Message := Message)) : bool :=
  match e with EvCloseDone => true | _ => false end.

Definition is_ConnClose (e : event (Message := Message)) : bool :=
  match e with EvConnClose => true | _ => false end.

Definition is_WgWait (e : event (Message := Message)) : bool :=
  match e with EvWgWait => true | _ => false end.

Definition is_SendErr (e : event (Message := Message)) : bool :=
  match e with EvSendErr _ _ => true | _ => false end.

Definition is_ConnWrite (e : event (Message := Message)) : bool :=
  match e with EvConnWrite _ => true | _ => false end.

(** How many events of a kind a trace holds. *)
Definition count (P : event (Message := Message) -> bool) (tr : list event) : nat :=
  length (filter (fun e => P e = true) tr).

(** Every [P] event of the trace stands strictly before every [Q] event. *)
Fixpoint precedes (P Q : event (Message := Message) -> bool) (tr : list event) : bool :=
  match tr with
  | [] => true
  | e :: rest =>
      if Q e then negb (P e) && forallb (fun x => negb (P x)) rest
      else precedes P Q rest
  end.

(** The requests handed to the request queue, in order. *)
Definition enqueued (tr : list (event (Message := Message))) : list request :=
  omap (fun e => match e with EvEnqueue req => Some req | _ => None end) tr.

(** The errors sent on error channels, in order. *)
Definition err_sends (tr : list (event (Message := Message))) : list (chan * option error) :=
  omap (fun e => match e with EvSendErr ch err => Some (ch, err) | _ => None end) tr.

(** The keys looked up in, stored into and deleted from the pending table. *)
Definition table_accesses (tr : list (event (Message := Message))) : list string :=
  omap (fun e => match e with
                 | EvLookup k | EvStore k _ | EvDelete k => Some k
                 | _ => None
                 end) tr.

(** The errors [handleConnectionError] sends for a pending table: one
    [ErrConnectionClosed] on the error channel of every entry. *)
Definition notices (m : gmap string response) : list (event (Message := Message)) :=
  (fun kv => EvSendErr (resp_errCh kv.2) (Some ErrConnectionClosed))
    <$> map_to_list m.

(** The [go] statements for a list of [ConnectionClosedHandlers]. *)
Definition closed_handlers (hs : list handler) : list (event (Message := Message)) :=
  (fun h => EvGo (GoConnectionClosedHandler h)) <$> hs.

(** The two goroutines [handleConnectionError] starts before it closes: one
    that answers the request queue with [ErrConnectionClosed], one that
    waits on the barrier and then stops the first through [done]. *)
Definition drainers (done : chan) : list (event (Message := Message)) :=
  [EvGo (GoDrainRequests done); EvGo (GoWaitBarrier done)].

(** How many errors a trace sends on one channel. *)
Definition sends_on (ch : chan) (tr : list (event (Message := Message))) : nat :=
  length (filter (fun x => x.1 = ch) (err_sends tr)).

(** What [go] statements started, in order. *)
Definition started (tr : list (event (Message := Message))) : list goroutine :=
  omap (fun e => match e with EvGo g => Some g | _ => None end) tr.

End Traces.

Section Outcomes.

Context {Message T : Type}.

Definition trace_of {A : Type} (o : outcome (Message := Message) (T := T) A)
  : list (event (Message := Message)) :=
  match o with
  | Returns _ _ tr => tr
  | Panics _ _ tr => tr
  end.

Definition state_of {A : Type} (o : outcome (Message := Message) (T := T) A)
  : Connection (Message := Message) (T := T) :=
  match o with
  | Returns _ c _ => c
  | Panics _ c _ => c
  end.

Definition returned {A : Type} (o : outcome (Message := Message) (T := T) A) : option A :=
  match o with
  | Returns a _ _ => Some a
  | Panics _ _ _ => None
  end.

(** The panic of a second [close(c.done)]. *)
Definition close_panic {A : Type} (o : outcome (Message := Message) (T := T) A) : Prop :=
  exists c tr, o = Panics "close of closed channel" c tr.

End Outcomes.

(** ** Invariants of the teardown *)

Section Invariants.

Context {Message T : Type}.

(** The connection as [handleConnectionError] hands it to [close]: closing,
    and with the local [done] channel made. *)
Definition torn (c : Connection (Message := Message) (T := T)) : Connection :=
  set_next_chan (S (next_chan c)) (set_closing true c).

(** [done] is closed only on a connection that is closing. *)
Definition guarded (c : Connection (Message := Message) (T := T)) : Prop :=
  closing c = false -> done_ch c = Open.

(** How many times [done] was closed between two of its states. *)
Definition closes_between (d d' : chan_state) : nat :=
  match d, d' with
  | Open, Closed => 1
  | _, _ => 0
  end.

(** A computation that has no part in the teardown: it leaves [closing] and
    [done] alone, closes nothing and does not panic on [done]. *)
Definition quiet {A : Type} (m : Go (Message := Message) (T := T) A) : Prop :=
  forall c,
    closing (state_of (m c)) = closing c
    /\ done_ch (state_of (m c)) = done_ch c
    /\ count is_CloseDone (trace_of (m c)) = 0%nat
    /\ ~ close_panic (m c).

(** A computation that keeps the teardown in order: from a guarded
    connection it ends in a guarded one, never resets [closing], never
    reopens [done], closes [done] once if it finds it open and leaves it
    closed and not at all otherwise, and does not panic on [done]. *)
Definition orderly {A : Type} (m : Go (Message := Message) (T := T) A) : Prop :=
  forall c,
    guarded c ->
    guarded (state_of (m c))
    /\ (closing c = true -> closing (state_of (m c)) = true)
    /\ (done_ch c = Closed -> done_ch (state_of (m c)) = Closed)
    /\ count is_CloseDone (trace_of (m c)) =
         closes_between (done_ch c) (done_ch (state_of (m c)))
    /\ ~ close_panic (m c).

End Invariants.

(** ** Establishing the connection *)

Section Connecting.

Context {Message : Type} `{!Codec Message}.
Context {T : Type} `{!ReadWriteCloser T}.

(** The loops the [go] statements of [run] start. *)
Inductive loop : Type := GoWriteLoop | GoReadLoop | GoReadResponseLoop.

(** What [Connect] does besides the events of the engine: it dials, with or
    without TLS, the address and the timeout it is configured with, and it
    starts the loops. *)
Inductive connect_event : Type :=
  | EvDial (tls : bool) (address : string) (timeout : Z)
  | EvRun (l : loop)
  | EvEngine (e : event (Message := Message)).

Inductive connect_outcome : Type :=
  | ConnectReturns (err : option error) (c : Connection (Message := Message) (T := T))
      (tr : list connect_event)
  | ConnectPanics (why : string) (c : Connection (Message := Message) (T := T))
      (tr : list connect_event).

(** [func (c *Connection) run()] *)
Definition run : list connect_event :=
  [EvRun GoWriteLoop; EvRun GoReadLoop; EvRun GoReadResponseLoop].

(** The end of [Connect] once the transport is in place and [OnConnect] has
    not failed. *)
Definition established (c : Connection) (tr : list connect_event)
  : connect_outcome :=
  ConnectReturns None c
    (tr ++ match ConnectionEstablishedHandler (Opts c) with
           | Some h => [EvEngine (EvGo (GoConnectionEstablishedHandler h))]
           | None => []
           end).

(** [func (c *Connection) Connect() error].  The two results of the dial and
    what the [OnConnect] callback does with the connection are arguments. *)
Definition Connect (dialed : option T * option error)
    (callback : handler -> Go (Message := Message) (T := T) (option error))
    (c : Connection) : connect_outcome :=
  match conn c with
  | Some _ => ConnectReturns None c run
  | None =>
      let dial :=
        EvDial (bool_decide (TLSConfig (Opts c) <> None)) (addr c)
          (ConnectTimeout (Opts c)) in
      match dialed.2 with
      | Some err =>
          ConnectReturns
            (Some (fmt_Errorf_w ("connecting to server " +:+ addr c +:+ ": ") err))
            c [dial]
      | None =>
          let c1 := set_conn dialed.1 c in
          match OnConnect (Opts c1) with
          | Some h =>
              match callback h c1 with
              | Returns (Some err) c2 t2 =>
                  match Close c2 with
                  | Returns _ c3 t3 =>
                      ConnectReturns
                        (Some (fmt_Errorf_w
                                 ("on connect callback " +:+ addr c3 +:+ ": ") err))
                        c3 (dial :: run ++ (EvEngine <$> t2 ++ t3))
                  | Panics why c3 t3 =>
                      ConnectPanics why c3 (dial :: run ++ (EvEngine <$> t2 ++ t3))
                  end
              | Returns None c2 t2 =>
                  established c2 (dial :: run ++ (EvEngine <$> t2))
              | Panics why c2 t2 =>
                  ConnectPanics why c2 (dial :: run ++ (EvEngine <$> t2))
              end
          | None => established c1 (dial :: run)
          end
      end
  end.

(** The error [Connect] returned, the connection it left and what it did. *)
Definition connect_error (o : connect_outcome) : option (option error) :=
  match o with
  | ConnectReturns err _ _ => Some err
  | ConnectPanics _ _ _ => None
  end.

Definition connect_state (o : connect_outcome) : Connection :=
  match o with
  | ConnectReturns _ c _ => c
  | ConnectPanics _ c _ => c
  end.

Definition connect_trace (o : connect_outcome) : list connect_event :=
  match o with
  | ConnectReturns _ _ tr => tr
  | ConnectPanics _ _ tr => tr
  end.

(** The loops and the dials of a trace of [Connect]. *)
Definition loops_started (tr : list connect_event) : list loop :=
  omap (fun e => match e with EvRun l => Some l | _ => None end) tr.

Definition dials (tr : list connect_event) : list (bool * string * Z) :=
  omap (fun e => match e with
                 | EvDial tls a d => Some (tls, a, d)
                 | _ => None
                 end) tr.

Definition engine_events (tr : list connect_event)
  : list (event (Message := Message)) :=
  omap (fun e => match e with EvEngine x => Some x | _ => None end) tr.

End Connecting.

(** ** What a call leaves in the trace *)

Section Footprints.

Context {Message : Type}.

Implicit Types (e : event (Message := Message)).

Definition is_WgAdd e : bool :=
  match e with EvWgAdd => true | _ => false end.

Definition is_WgDone e : bool :=
  match e with EvWgDone => true | _ => false end.

Definition is_Enqueue e : bool :=
  match e with EvEnqueue _ => true | _ => false end.

Definition is_Store e : bool :=
  match e with EvStore _ _ => true | _ => false end.

Definition is_Lookup e : bool :=
  match e with EvLookup _ => true | _ => false end.

Definition is_Delete e : bool :=
  match e with EvDelete _ => true | _ => false end.

Definition is_SendReply e : bool :=
  match e with EvSendReply _ _ => true | _ => false end.

(** An event that is neither [wg.Add(1)] nor [wg.Done()]. *)
Definition off_barrier e : bool := negb (is_WgAdd e) && negb (is_WgDone e).

(** A trace in which the barrier is counted down as often as it is counted
    up, and at no point more often than it was counted up before. *)
Definition balanced (tr : list (event (Message := Message))) : Prop :=
  count is_WgAdd tr = count is_WgDone tr
  /\ forall n, (count is_WgDone (take n tr) <= count is_WgAdd (take n tr))%nat.

(** The frames written to the transport, in order. *)
Definition written (tr : list (event (Message := Message))) : list bytes :=
  omap (fun e => match e with EvConnWrite raw => Some raw | _ => None end) tr.

(** The frames the reader handed to the dispatcher, in order. *)
Definition handed_over (tr : list (event (Message := Message))) : list bytes :=
  omap (fun e => match e with EvSendRaw raw => Some raw | _ => None end) tr.

(** The messages sent on reply channels, in order. *)
Definition replies (tr : list (event (Message := Message))) : list (chan * Message) :=
  omap (fun e => match e with EvSendReply ch m => Some (ch, m) | _ => None end) tr.

(** The events of a call of [close]. *)
Definition close_event e : bool :=
  match e with
  | EvWgWait | EvCloseDone | EvConnClose => true
  | _ => false
  end.

(** The events of a call of [handleConnectionError]. *)
Definition teardown_event e : bool :=
  match e with
  | EvSendErr _ (Some ErrConnectionClosed) => true
  | EvGo (GoDrainRequests _) | EvGo (GoWaitBarrier _)
  | EvGo (GoConnectionClosedHandler _) => true
  | _ => close_event e
  end.

(** The [go] statement of [handleError]. *)
Definition report_event e : bool :=
  match e with
  | EvGo (GoErrorHandler _ _) => true
  | _ => false
  end.

Definition Send_event e : bool :=
  match e with
  | EvWgAdd | EvWgDone | EvEnqueue _ | EvDelete _ => true
  | EvGo (GoSalvage _ _) => true
  | _ => false
  end.

Definition Reply_event e : bool :=
  match e with
  | EvWgAdd | EvWgDone | EvEnqueue _ => true
  | _ => false
  end.

Definition handleResponse_event e : bool :=
  match e with
  | EvLookup _ | EvSendReply _ _ => true
  | EvGo (GoInboundMessageHandler _ _) => true
  | _ => report_event e
  end.

Definition writeLoop_event e : bool :=
  match e with
  | EvStore _ _ | EvConnWrite _ | EvSendErr _ None => true
  | EvGo (GoPingHandler _) => true
  | _ => report_event e || teardown_event e
  end.

Definition readLoop_event e : bool :=
  match e with
  | EvSendRaw _ => true
  | _ => report_event e || teardown_event e
  end.

Definition readResponseLoop_event e : bool :=
  match e with
  | EvGo (GoHandleResponse _) | EvGo (GoReadTimeoutHandler _) => true
  | _ => false
  end.

(** The events each call of a lifetime is made of. *)
Definition footprint (k : call (Message := Message)) e : bool :=
  match k with
  | CallClose => close_event e
  | CallHandleConnectionError _ => teardown_event e
  | CallSend _ _ => Send_event e
  | CallReply _ _ => Reply_event e
  | CallHandleResponse _ => handleResponse_event e
  | CallWriteLoop _ => writeLoop_event e
  | CallReadLoop _ => readLoop_event e
  | CallReadResponseLoop _ => readResponseLoop_event e
  | CallSetStatus _ | CallSetOptions _ => false
  end.

End Footprints.

Section Confined.

Context {Message T : Type}.

(** A computation whose trace holds events of one kind only, from every
    connection and however it ends. *)
Definition confined {A : Type} (P : event (Message := Message) -> bool)
    (m : Go (Message := Message) (T := T) A) : Prop :=
  forall c, Forall (fun e => P e = true) (trace_of (m c)).

End Confined.

(** ** Scripts of the writer *)

Section Scripts.

Context {T : Type} `{!ReadWriteCloser T}.

(** The requests a script of the writer's [select] hands it, in order, and
    how many times the idle timer fires in it. *)
Definition selected (script : list write_select) : list request :=
  omap (fun s => match s with SelectRequest req => Some req | _ => None end)
    script.

Definition idles (script : list write_select) : nat :=
  length (omap (fun s => match s with SelectIdle => Some tt | _ => None end)
            script).

(** The transport after the frames were written to it one after the other,
    if every write returned no error. *)
Fixpoint writes_succeed (t : T) (raws : list bytes) : option T :=
  match raws with
  | [] => Some t
  | raw :: rest =>
      match conn_Write t raw with
      | (t', (_, None)) => writes_succeed t' rest
      | (_, (_, Some _)) => None
      end
  end.

(** The pending table with the slots of the requests that carry a reply
    channel stored in it, in order. *)
Definition registered (reqs : list request) (m : gmap string response)
  : gmap string response :=
  foldl (fun m req =>
           match req_replyCh req with
           | Some replyCh =>
               <[req_requestID req := mkResponse replyCh (req_errCh req)]> m
           | None => m
           end) m reqs.

(** The [nil] the writer sends on the error channel of every request that
    carries no reply channel. *)
Definition acknowledged (reqs : list request) : list (chan * option error) :=
  omap (fun req =>
          match req_replyCh req with
          | None => Some (req_errCh req, None)
          | Some _ => None
          end) reqs.

End Scripts.

(** ** What a call leaves of the connection *)

Section Settings.

Context {Message T : Type}.

(** Two states of a connection between which nothing was reconfigured and
    nothing undone: the address, the options, the spec, the framer and the
    status are the same, a transport is there in both or in neither,
    [closing] was not reset, [done] was not reopened, and the channels made
    before are still made. *)
Definition same_settings (c c' : Connection (Message := Message) (T := T)) : Prop :=
  addr c' = addr c
  /\ Opts c' = Opts c
  /\ spec c' = spec c
  /\ writeMessageLength c' = writeMessageLength c
  /\ status c' = status c
  /\ (is_Some (conn c') <-> is_Some (conn c))
  /\ (closing c = true -> closing c' = true)
  /\ (done_ch c = Closed -> done_ch c' = Closed)
  /\ (next_chan c <= next_chan c')%nat.

Definition steady {A : Type} (m : Go (Message := Message) (T := T) A) : Prop :=
  forall c, same_settings c (state_of (m c)).

(** The channels of a request, and those of the requests of a trace. *)
Definition request_chans (req : request) : list chan :=
  match req_replyCh req with
  | Some replyCh => [replyCh; req_errCh req]
  | None => [req_errCh req]
  end.

Definition made (tr : list (event (Message := Message))) : list chan :=
  enqueued tr ≫= request_chans.

(** A call of the engine, as opposed to one that reconfigures. *)
Definition engine_call (k : call (Message := Message)) : bool :=
  match k with
  | CallSetStatus _ | CallSetOptions _ => false
  | _ => true
  end.

End Settings.

(** ** Scripts of the dispatcher *)

Section Dispatching.

Context {Message : Type}.

(** The goroutines the dispatcher starts for a script of its [select]: one
    [handleResponse] for every frame, and the [ReadTimeoutHandler], when one
    is configured, every time the read timer fires. *)
Definition dispatched (opts : Options) (script : list dispatch_select)
  : list (goroutine (Message := Message)) :=
  script ≫= fun s =>
    match s with
    | DispatchMessage raw => [GoHandleResponse raw]
    | DispatchTimeout =>
        match ReadTimeoutHandler opts with
        | Some h => [GoReadTimeoutHandler h]
        | None => []
        end
    | DispatchDone => []
    end.

End Dispatching.

(** ** The handlers of a closed connection *)

Section ClosedHandlers.

Context {Message T : Type}.

(** The [ConnectionClosedHandlers] a trace starts, in order. *)
Definition closed_handlers_started (tr : list (event (Message := Message)))
  : list handler :=
  omap (fun e => match e with
                 | EvGo (GoConnectionClosedHandler h) => Some h
                 | _ => None
                 end) tr.

(** An event other than the start of a [ConnectionClosedHandler]. *)
Definition off_closed_handlers (e : event (Message := Message)) : bool :=
  match e with
  | EvGo (GoConnectionClosedHandler _) => false
  | _ => true
  end.

(** A computation that starts the [ConnectionClosedHandlers] at most once:
    it keeps the options and never resets [closing]; on a connection that is
    closing it starts none; and if it starts any, it starts the configured
    ones, in order, on a connection that was not closing and is afterwards. *)
Definition notifies_once {A : Type} (m : Go (Message := Message) (T := T) A) : Prop :=
  forall c,
    Opts (state_of (m c)) = Opts c
    /\ (closing c = true ->
        closing (state_of (m c)) = true
        /\ closed_handlers_started (trace_of (m c)) = [])
    /\ (closed_handlers_started (trace_of (m c)) = []
        \/ (closed_handlers_started (trace_of (m c)) =
              ConnectionClosedHandlers (Opts c)
            /\ closing c = false
            /\ closing (state_of (m c)) = true)).

End ClosedHandlers.

(** ** An in-memory codec, transport and framer

    The instances the examples below run on: a message is an MTI and a STAN,
    packed as the four characters of the MTI followed by the STAN; the
    transport is a pipe that records what is written until it is closed; the
    header is the length in two bytes. *)

Record demo_message : Type := mkDemoMessage {
  demo_mti : string;
  demo_stan : string
}.

Definition demo_Pack (m : demo_message) : result bytes :=
  if bool_decide (String.length (demo_mti m) = 4%nat)
  then (list_byte_of_string (demo_mti m +:+ demo_stan m), None)
  else ([], Some (collaborator_error "failed to pack MTI")).

Definition demo_Unpack (raw : bytes) : result demo_message :=
  if (length raw <? 4)%nat
  then (mkDemoMessage "" "", Some (collaborator_error "not enough data to unpack MTI"))
  else (mkDemoMessage (string_of_list_byte (take 4 raw))
          (string_of_list_byte (drop 4 raw)), None).

#[global] Instance demo_codec : Codec demo_message := {|
  Pack := demo_Pack;
  Pack_nil := None;
  GetMTI m := (demo_mti m, None);
  GetString m i :=
    if bool_decide (i = 11%Z) then (demo_stan m, None)
    else ("", Some (collaborator_error "no such field"))
|}.

Record pipe : Type := mkPipe {
  pipe_written : list bytes;
  pipe_closed : bool
}.

#[global] Instance pipe_transport : ReadWriteCloser pipe := {|
  conn_Write p raw :=
    if pipe_closed p
    then (p, (0%Z, Some (collaborator_error "io: read/write on closed pipe")))
    else (mkPipe (pipe_written p ++ [raw]) false, (Z.of_nat (length raw), None));
  conn_Close p :=
    if pipe_closed p
    then (p, Some (collaborator_error "io: read/write on closed pipe"))
    else (mkPipe (pipe_written p) true, None)
|}.

Definition demo_byte (n : Z) : byte := default x00 (Byte.of_N (Z.to_N n)).

Definition demo_writer : MessageLengthWriter :=
  fun n =>
    if ((0 <=? n) && (n <? 65536))%Z
    then ([demo_byte (n / 256); demo_byte (n mod 256)], (2%Z, None))
    else ([], (0%Z, Some (collaborator_error "message length out of range"))).

Definition demo_defaults : Options :=
  mkOptions 10000000000 30000000000 5000000000 60000000000
    None None None [] None None None None.

(** The defaults with an [ErrorHandler], an [InboundMessageHandler] and two
    [ConnectionClosedHandlers]. *)
Definition demo_handlers : Options :=
  mkOptions 10000000000 30000000000 5000000000 60000000000
    None None None [3; 4]%nat (Some 1%nat) None None (Some 2%nat).

(** A connection as [NewFrom] returns it over an open pipe. *)
Definition demo_conn (opts : Options) : Connection (T := pipe) :=
  mkConnection "" opts (Some (mkPipe [] false)) Open demo_Unpack demo_writer
    ∅ false StatusUnknown 0.

(** The same with two requests in flight: both written, both registered. *)
Definition demo_busy (opts : Options) : Connection (T := pipe) :=
  mkConnection "" opts (Some (mkPipe [] false)) Open demo_Unpack demo_writer
    (<["000001" := mkResponse 0 1]> (<["000002" := mkResponse 2 3]> ∅))
    false StatusUnknown 4.

Definition demo_request : demo_message := mkDemoMessage "0800" "000001".
Definition demo_reply : demo_message := mkDemoMessage "0810" "000001".
Definition demo_unsolicited : demo_message := mkDemoMessage "0200" "000007".
Definition demo_garbage : bytes := [x30; x38].

(** A message without STAN, and one whose MTI does not pack. *)
Definition demo_no_stan : demo_message := mkDemoMessage "0800" "".
Definition demo_bad_mti : demo_message := mkDemoMessage "08" "000001".

(** Two options: one that installs the handlers, one that fails. *)
Definition demo_with_handlers (o : Options) : Options * option error :=
  (demo_handlers, None).

Definition demo_bad_option (o : Options) : Options * option error :=
  (o, Some (collaborator_error "invalid option")).

(** A connection as [New] returns it, before [Connect]. *)
Definition demo_unconnected (opts : Options) : Connection (T := pipe) :=
  mkConnection "127.0.0.1:8583" opts None Open demo_Unpack demo_writer
    ∅ false StatusUnknown 0.

(** The defaults with an [OnConnect] callback and a
    [ConnectionEstablishedHandler]. *)
Definition demo_on_connect : Options :=
  mkOptions 10000000000 30000000000 5000000000 60000000000
    None (Some 5%nat) (Some 6%nat) [] None None None None.

(** A sign-on callback: it sends the echo request and returns the error of
    [Send]; [wait] is how the wait of that [Send] ends. *)
Definition demo_sign_on (wait : send_wait) (h : handler)
  : Go (Message := demo_message) (T := pipe) (option error) :=
  bind (Send (Some demo_request) wait) (fun r => ret r.2).

(** The frames of the echo request and of its reply. *)
Definition demo_request_frame : bytes :=
  [x00; x0a] ++ list_byte_of_string "0800000001".

Definition demo_reply_raw : bytes := list_byte_of_string "0810000001".

(** * Properties *)

(** ** Error values *)

Lemma chain_unfold (e : error) :
  chain e = e :: from_option chain [] (Unwrap e).
Proof. destruct e as [| | | | | | [u|] ? |]; reflexivity. Qed.

Lemma error_eqb_refl : forall e : error, error_eqb e e = true.
Proof.
  fix IH 1.
  intros [| | s | s | p w | i m | [u|] r | s]; simpl;
    rewrite ?bool_decide_eq_true_2 by reflexivity;
    rewrite ?IH; reflexivity.
Qed.

Lemma errors_Is_refl (e : error) : errors_Is e e = true.
Proof.
  unfold errors_Is. rewrite chain_unfold. simpl.
  rewrite error_eqb_refl. reflexivity.
Qed.

Lemma errors_Is_through (e u target : error) :
  Unwrap e = Some u ->
  errors_Is e target = error_eqb e target || errors_Is u target.
Proof.
  intros Hu. unfold errors_Is. rewrite (chain_unfold e), Hu. reflexivity.
Qed.

Lemma errors_As_through {A : Type} (cast : error -> option A) (e u : error) :
  Unwrap e = Some u ->
  errors_As cast e =
    match cast e with Some a => Some a | None => errors_As cast u end.
Proof.
  intros Hu. unfold errors_As. rewrite (chain_unfold e), Hu. reflexivity.
Qed.

(** C10.  For every [ErrUnpack] value [e] that wraps an error [u]:
    [e.Error()] is the message of [u], whatever the raw bytes are;
    [e.Unwrap()] is [u]; and [errors.Is] and [errors.As] on [e] find what
    they find on [u] (and [errors.As] for [*ErrUnpack] finds [e] itself). *)
Theorem ErrUnpack_Error_Unwrap (e : ErrUnpack) (u : error) :
  Err e = Some u ->
  ErrUnpack_Error e = Error u
  /\ Error (as_error e) = Error u
  /\ (forall raw, ErrUnpack_Error (mkErrUnpack (Err e) raw) = Error u)
  /\ ErrUnpack_Unwrap e = Some u
  /\ Unwrap (as_error e) = Some u
  /\ errors_Is (as_error e) u = true
  /\ (forall target, errors_Is u target = true ->
        errors_Is (as_error e) target = true)
  /\ (forall (A : Type) (cast : error -> option A),
        cast (as_error e) = None ->
        errors_As cast (as_error e) = errors_As cast u)
  /\ errors_As to_ErrUnpack (as_error e) = Some e.
Proof.
  destruct e as [inner raw]; simpl. intros ->.
  assert (Hu : Unwrap (as_error (mkErrUnpack (Some u) raw)) = Some u)
    by reflexivity.
  repeat split; try reflexivity.
  - rewrite (errors_Is_through _ u u Hu), errors_Is_refl.
    apply orb_true_r.
  - intros target Ht. rewrite (errors_Is_through _ u target Hu), Ht.
    apply orb_true_r.
  - intros A cast Hc. rewrite (errors_As_through cast _ u Hu), Hc.
    reflexivity.
Qed.

(** ** Classification and correlation *)

Section Facts.

Context {Message : Type} `{!Codec Message}.
Context {T : Type} `{!ReadWriteCloser T}.

Implicit Types (c : Connection (Message := Message) (T := T)).
Implicit Types (message : option Message).
Implicit Types (tr : list (event (Message := Message))).

Lemma string_of_byte_one (b d : ascii) :
  (nat_of_ascii d < 128)%nat ->
  string_of_byte b = String d EmptyString <-> b = d.
Proof.
  intros Hd. unfold string_of_byte.
  destruct (nat_of_ascii b <? 128)%nat eqn:Hb.
  - split; [intros [= ->]; reflexivity | intros ->; reflexivity].
  - split; [discriminate |].
    intros ->. apply Nat.ltb_ge in Hb. lia.
Qed.

Lemma isResponse_Some (m : Message) :
  isResponse (Some m) = true <->
  exists b, (4 <= String.length (GetMTI m).1)%nat
    /\ String.get 2 (GetMTI m).1 = Some b
    /\ (b = "1" \/ b = "3" \/ b = "5" \/ b = "7")%char.
Proof.
  unfold isResponse, messageFunctionIndex, messageFunctionRequestResponse,
    messageFunctionAdviceResponse, messageFunctionNotificationAcknowledgment,
    messageFunctionInstructionAcknowledgment.
  cbv zeta.
  destruct (String.length (GetMTI m).1 <? 4)%nat eqn:Hlen.
  - apply Nat.ltb_lt in Hlen. split; [discriminate |].
    intros (b & Hge & _). lia.
  - apply Nat.ltb_ge in Hlen.
    destruct (String.get 2 (GetMTI m).1) as [b|] eqn:Hget.
    + rewrite !orb_true_iff, !bool_decide_eq_true.
      rewrite !string_of_byte_one by (vm_compute; lia).
      split.
      * intros Hb. exists b. split; [exact Hlen |]. split; [reflexivity |].
        tauto.
      * intros (b' & _ & [= <-] & Hb). tauto.
    + split; [discriminate |]. intros (b & _ & [=] & _).
Qed.

Lemma handleResponse_not_response (rawMessage : bytes) (m : Message) c :
  spec c rawMessage = (m, None) ->
  isResponse (Some m) = false ->
  handleResponse rawMessage c =
    Returns tt c
      match InboundMessageHandler (Opts c) with
      | Some h => [EvGo (GoInboundMessageHandler h m)]
      | None => []
      end.
Proof.
  intros HU Hr. unfold handleResponse, bind, get. rewrite HU, Hr.
  destruct (InboundMessageHandler (Opts c)); reflexivity.
Qed.

(** C3.  [isResponse] answers [true] exactly for a message (not [nil]) whose
    MTI has at least four characters, the third being '1', '3', '5' or '7';
    and a message for which it answers [false] is handled as unsolicited
    inbound: [handleResponse] hands it to the [InboundMessageHandler], if
    there is one, and does nothing else. *)
Theorem isResponse_iff message :
  (isResponse message = true <->
   exists m b, message = Some m
     /\ (4 <= String.length (GetMTI m).1)%nat
     /\ String.get 2 (GetMTI m).1 = Some b
     /\ (b = "1" \/ b = "3" \/ b = "5" \/ b = "7")%char)
  /\ (forall rawMessage m c,
        message = Some m ->
        spec c rawMessage = (m, None) ->
        isResponse message = false ->
        handleResponse rawMessage c =
          Returns tt c
            match InboundMessageHandler (Opts c) with
            | Some h => [EvGo (GoInboundMessageHandler h m)]
            | None => []
            end).
Proof.
  split.
  - destruct message as [m|].
    + rewrite isResponse_Some. split.
      * intros (b & H1 & H2 & H3). exists m, b. auto.
      * intros (m' & b & [= <-] & H1 & H2 & H3). exists b. auto.
    + simpl. split; [discriminate |]. intros (m & b & [=] & _).
  - intros rawMessage m c -> HU Hr.
    apply handleResponse_not_response; assumption.
Qed.

(** C8.  An inbound message that [isResponse] does not classify as a
    response leaves the connection as it was, the pending table included,
    and neither looks up, stores nor deletes a key of the table; the only
    thing [handleResponse] does is start the [InboundMessageHandler] on the
    message when one is configured, and nothing when none is. *)
Theorem handleResponse_unsolicited (rawMessage : bytes) (m : Message) c :
  spec c rawMessage = (m, None) ->
  isResponse (Some m) = false ->
  exists tr,
    handleResponse rawMessage c = Returns tt c tr
    /\ respMap (state_of (handleResponse rawMessage c)) = respMap c
    /\ table_accesses tr = []
    /\ (forall h, InboundMessageHandler (Opts c) = Some h ->
          tr = [EvGo (GoInboundMessageHandler h m)])
    /\ (InboundMessageHandler (Opts c) = None -> tr = []).
Proof.
  intros HU Hr.
  rewrite (handleResponse_not_response rawMessage m c HU Hr).
  eexists. split; [reflexivity |]. split; [reflexivity |].
  destruct (InboundMessageHandler (Opts c)) as [h|].
  - split; [reflexivity |]. split; [| discriminate].
    intros h' [= ->]. reflexivity.
  - split; [reflexivity |]. split; [discriminate | reflexivity].
Qed.

(** The third character of the MTI decides, as claim C8 words it: when it is
    none of '1', '3', '5', '7', the message is not classified as a
    response. *)
Lemma isResponse_third_character (m : Message) (b : ascii) :
  String.get 2 (GetMTI m).1 = Some b ->
  (b <> "1" /\ b <> "3" /\ b <> "5" /\ b <> "7")%char ->
  isResponse (Some m) = false.
Proof.
  intros Hget Hb. apply not_true_is_false. rewrite isResponse_Some.
  intros (b' & _ & Hget' & Hb'). rewrite Hget in Hget'.
  injection Hget' as <-. tauto.
Qed.

(** ** Correlation *)




(** ** Running the statements *)

Lemma for_range_emit {A : Type} (l : list A) (f : A -> event) c :
  for_range l (fun x => emit (f x)) c = Returns tt c (f <$> l).
Proof.
  revert c. induction l as [|x l IH]; intros c; [reflexivity |].
  simpl. unfold bind at 1. simpl. rewrite IH. reflexivity.
Qed.

Lemma close_eq c :
  close c =
    match done_ch c with
    | Closed => Panics "close of closed channel" c [EvWgWait]
    | Open =>
        match conn c with
        | Some t =>
            Returns (close_result (conn_Close t).2)
              (set_conn (Some (conn_Close t).1) (set_done_ch Closed c))
              [EvWgWait; EvCloseDone; EvConnClose]
        | None => Returns None (set_done_ch Closed c) [EvWgWait; EvCloseDone]
        end
    end.
Proof.
  unfold close, close_done, bind, emit, get, put, panic. simpl.
  destruct (done_ch c); simpl; [| reflexivity].
  destruct (conn c) as [t|]; simpl; [| reflexivity].
  destruct (conn_Close t) as [t' [e|]]; reflexivity.
Qed.

Lemma Close_eq c :
  Close c = if closing c then Returns None c [] else close (set_closing true c).
Proof.
  unfold Close, bind, get, put. simpl. destruct (closing c); [reflexivity |].
  simpl. destruct (close _); reflexivity.
Qed.

Lemma handleConnectionError_eq (err : error) c :
  closing c = false ->
  handleConnectionError (Some err) c =
    match close (torn c) with
    | Returns _ c1 t1 =>
        Returns tt c1
          (notices (respMap c) ++ drainers (next_chan c)
           ++ t1 ++ closed_handlers (ConnectionClosedHandlers (Opts c)))
    | Panics why c1 t1 =>
        Panics why c1 (notices (respMap c) ++ drainers (next_chan c) ++ t1)
    end.
Proof.
  intros Hc. unfold handleConnectionError, make_chan, bind, get, put, ret.
  rewrite Hc. cbn [orb bool_decide decide_rel]. cbv beta iota.
  rewrite for_range_emit. unfold emit at 1 2. cbv beta iota.
  change (set_next_chan (S (next_chan (set_closing true c)))
            (set_closing true c)) with (torn c).
  destruct (close (torn c)) as [r c1 t1 | why c1 t1].
  - rewrite for_range_emit. reflexivity.
  - reflexivity.
Qed.

Lemma handleConnectionError_skips (err : option error) c :
  err = None \/ closing c = true ->
  handleConnectionError err c = Returns tt c [].
Proof.
  intros Hs. unfold handleConnectionError, bind, get. simpl.
  destruct Hs as [-> | ->]; [reflexivity |].
  rewrite orb_true_r. reflexivity.
Qed.

(** ** [Send] and [Reply], case by case *)

Lemma Send_closing message w c :
  closing c = true ->
  Send message w c =
    Returns (None, Some ErrConnectionClosed) c [EvWgAdd; EvWgDone].
Proof.
  intros Hc. unfold Send, with_defer, bind, emit, get. simpl.
  rewrite Hc. reflexivity.
Qed.

Lemma Send_pack_panics message w c :
  closing c = false ->
  Pack_ptr message = None ->
  Send message w c =
    Panics "invalid memory address or nil pointer dereference" c
      [EvWgAdd; EvWgDone].
Proof.
  intros Hc HP. unfold Send, with_defer, bind, emit, get, message_Pack. simpl.
  rewrite Hc, HP. reflexivity.
Qed.

Lemma Send_pack_fails message w c (packed : bytes) (e : error) :
  closing c = false ->
  Pack_ptr message = Some (packed, Some e) ->
  Send message w c =
    Returns (None, Some (fmt_Errorf_w "packing message: " e)) c
      [EvWgAdd; EvWgDone].
Proof.
  intros Hc HP. unfold Send, with_defer, bind, emit, get, message_Pack. simpl.
  rewrite Hc, HP. reflexivity.
Qed.

Lemma Send_header_fails message w c (packed hb : bytes) (n : Z) (e : error) :
  closing c = false ->
  Pack_ptr message = Some (packed, None) ->
  writeMessageLength c (Z.of_nat (length packed)) = (hb, (n, Some e)) ->
  Send message w c =
    Returns (None, Some (fmt_Errorf_w "writing message header to buffer: " e)) c
      [EvWgAdd; EvWgDone].
Proof.
  intros Hc HP HW. unfold Send, with_defer, bind, emit, get, message_Pack.
  simpl. rewrite Hc, HP. simpl. rewrite HW. reflexivity.
Qed.

Lemma Send_requestID_fails message w c (packed hb : bytes) (n : Z)
    (stan : string) (e : error) :
  closing c = false ->
  Pack_ptr message = Some (packed, None) ->
  writeMessageLength c (Z.of_nat (length packed)) = (hb, (n, None)) ->
  requestID message = (stan, Some e) ->
  Send message w c =
    Returns (None, Some (fmt_Errorf_w "creating request ID: " e)) c
      [EvWgAdd; EvWgDone].
Proof.
  intros Hc HP HW HI. unfold Send, with_defer, bind, emit, get, message_Pack.
  simpl. rewrite Hc, HP. simpl. rewrite HW, HI. reflexivity.
Qed.

Lemma Send_enqueues message w c (packed hb : bytes) (n : Z) (stan : string) :
  closing c = false ->
  Pack_ptr message = Some (packed, None) ->
  writeMessageLength c (Z.of_nat (length packed)) = (hb, (n, None)) ->
  requestID message = (stan, None) ->
  Send message w c =
    Returns
      match w with
      | WaitReply r => (Some r, None)
      | WaitErr err => (None, err)
      | WaitTimeout => (None, Some ErrSendTimeout)
      end
      (set_respMap (delete stan (respMap c))
         (set_next_chan (S (S (next_chan c))) c))
      ([EvWgAdd;
        EvEnqueue (mkRequest (hb ++ packed) stan (Some (next_chan c))
                     (S (next_chan c)))]
       ++ match w, InboundMessageHandler (Opts c) with
          | WaitTimeout, Some h => [EvGo (GoSalvage (next_chan c) h)]
          | _, _ => []
          end
       ++ [EvDelete stan; EvWgDone]).
Proof.
  intros Hc HP HW HI. unfold Send, with_defer, bind, emit, get, message_Pack.
  simpl. rewrite Hc, HP. simpl. rewrite HW, HI. simpl.
  destruct w as [r|err|]; simpl; try reflexivity.
  destruct (InboundMessageHandler (Opts c)); reflexivity.
Qed.

Lemma Reply_closing message w c :
  closing c = true ->
  Reply message w c = Returns (Some ErrConnectionClosed) c [EvWgAdd; EvWgDone].
Proof.
  intros Hc. unfold Reply, with_defer, bind, emit, get. simpl.
  rewrite Hc. reflexivity.
Qed.

Lemma Reply_pack_fails message w c (packed : bytes) (e : error) :
  closing c = false ->
  Pack_ptr message = Some (packed, Some e) ->
  Reply message w c =
    Returns (Some (fmt_Errorf_w "packing message: " e)) c [EvWgAdd; EvWgDone].
Proof.
  intros Hc HP. unfold Reply, with_defer, bind, emit, get, message_Pack. simpl.
  rewrite Hc, HP. reflexivity.
Qed.

Lemma Reply_header_fails message w c (packed hb : bytes) (n : Z) (e : error) :
  closing c = false ->
  Pack_ptr message = Some (packed, None) ->
  writeMessageLength c (Z.of_nat (length packed)) = (hb, (n, Some e)) ->
  Reply message w c =
    Returns (Some (fmt_Errorf_w "writing message header to buffer: " e)) c
      [EvWgAdd; EvWgDone].
Proof.
  intros Hc HP HW. unfold Reply, with_defer, bind, emit, get, message_Pack.
  simpl. rewrite Hc, HP. simpl. rewrite HW. reflexivity.
Qed.





(** C6.  On a connection that is not closing, a [Send] or [Reply] whose
    message fails to pack, or whose length header fails to be written, and a
    [Send] whose correlator cannot be derived, returns that error (wrapped
    with the name of the step) at once: the connection, the pending table
    with it, is as before the call, and the trace holds the barrier's
    [Add] and [Done] and nothing else, so no request was enqueued. *)
Theorem preflight_errors message c :
  closing c = false ->
  (forall (packed : bytes) (e : error),
     Pack_ptr message = Some (packed, Some e) ->
     (forall w, Send message w c =
        Returns (None, Some (fmt_Errorf_w "packing message: " e)) c
          [EvWgAdd; EvWgDone])
     /\ (forall w, Reply message w c =
        Returns (Some (fmt_Errorf_w "packing message: " e)) c
          [EvWgAdd; EvWgDone]))
  /\ (forall (packed hb : bytes) (n : Z) (e : error),
     Pack_ptr message = Some (packed, None) ->
     writeMessageLength c (Z.of_nat (length packed)) = (hb, (n, Some e)) ->
     (forall w, Send message w c =
        Returns
          (None, Some (fmt_Errorf_w "writing message header to buffer: " e)) c
          [EvWgAdd; EvWgDone])
     /\ (forall w, Reply message w c =
        Returns (Some (fmt_Errorf_w "writing message header to buffer: " e)) c
          [EvWgAdd; EvWgDone]))
  /\ (forall (packed hb : bytes) (n : Z) (stan : string) (e : error),
     Pack_ptr message = Some (packed, None) ->
     writeMessageLength c (Z.of_nat (length packed)) = (hb, (n, None)) ->
     requestID message = (stan, Some e) ->
     forall w, Send message w c =
        Returns (None, Some (fmt_Errorf_w "creating request ID: " e)) c
          [EvWgAdd; EvWgDone])
  /\ (forall (A : Type) (r : A) (o : outcome A),
     o = Returns r c [EvWgAdd; EvWgDone] ->
     enqueued (trace_of o) = []
     /\ table_accesses (trace_of o) = []
     /\ respMap (state_of o) = respMap c).
Proof.
  intros Hc. split; [| split; [| split]]; [| | | by intros A r o ->].
  - intros packed e HP. split; intros w.
    + apply (Send_pack_fails _ _ _ packed); assumption.
    + apply (Reply_pack_fails _ _ _ packed); assumption.
  - intros packed hb n e HP HW. split; intros w.
    + apply (Send_header_fails _ _ _ packed hb n); assumption.
    + apply (Reply_header_fails _ _ _ packed hb n); assumption.
  - intros packed hb n stan e HP HW HI w.
    apply (Send_requestID_fails _ _ _ packed hb n stan); assumption.
Qed.

(** ** Teardown *)

Lemma err_sends_app tr1 tr2 :
  err_sends (tr1 ++ tr2) = err_sends tr1 ++ err_sends tr2.
Proof. apply omap_app. Qed.

Lemma err_sends_notices (m : gmap string response) :
  err_sends (notices (Message := Message) m) =
    (fun kv => (resp_errCh kv.2, Some ErrConnectionClosed)) <$> map_to_list m.
Proof.
  unfold notices, err_sends.
  induction (map_to_list m) as [|kv l IH]; [reflexivity |].
  simpl. f_equal. exact IH.
Qed.

Lemma err_sends_closed_handlers (hs : list handler) :
  err_sends (closed_handlers (Message := Message) hs) = [].
Proof. induction hs as [|h hs IH]; [reflexivity | exact IH]. Qed.

Lemma close_sends_no_error c : err_sends (trace_of (close c)) = [].
Proof.
  rewrite close_eq. destruct (done_ch c); [| reflexivity].
  destruct (conn c); reflexivity.
Qed.

Lemma close_keeps c :
  respMap (state_of (close c)) = respMap c
  /\ closing (state_of (close c)) = closing c
  /\ Opts (state_of (close c)) = Opts c.
Proof.
  rewrite close_eq. destruct (done_ch c); [| by repeat split].
  destruct (conn c); by repeat split.
Qed.

Lemma Close_sets_closing c : closing (state_of (Close c)) = true.
Proof.
  rewrite Close_eq. destruct (closing c) eqn:Hc; [exact Hc |].
  by destruct (close_keeps (set_closing true c)) as (_ & -> & _).
Qed.

Lemma Close_keeps_table c : respMap (state_of (Close c)) = respMap c.
Proof.
  rewrite Close_eq. destruct (closing c); [reflexivity |].
  by destruct (close_keeps (set_closing true c)) as (-> & _).
Qed.

Lemma Close_sends_no_error c : err_sends (trace_of (Close c)) = [].
Proof.
  rewrite Close_eq. destruct (closing c); [reflexivity |].
  apply close_sends_no_error.
Qed.

Lemma handleConnectionError_state (err : error) c :
  closing c = false ->
  state_of (handleConnectionError (Some err) c) =
    state_of (close (torn c)).
Proof.
  intros Hc. rewrite handleConnectionError_eq by assumption.
  destruct (close (torn c)); reflexivity.
Qed.

Lemma handleConnectionError_err_sends (err : error) c :
  closing c = false ->
  err_sends (trace_of (handleConnectionError (Some err) c)) =
    (fun kv => (resp_errCh kv.2, Some ErrConnectionClosed))
      <$> map_to_list (respMap c).
Proof.
  intros Hc. rewrite handleConnectionError_eq by assumption.
  pose proof (close_sends_no_error (torn c)) as Hcl.
  destruct (close (torn c)) as [r c1 t1 | why c1 t1];
    cbn [trace_of] in *; rewrite !err_sends_app, Hcl, err_sends_notices;
    rewrite ?err_sends_closed_handlers; cbn [err_sends omap];
    rewrite ?app_nil_r; reflexivity.
Qed.

Lemma filter_none {A : Type} (P : A -> Prop) `{!forall x, Decision (P x)}
    (l : list A) :
  (forall y, y ∈ l -> ~ P y) -> filter P l = [].
Proof.
  induction l as [|y l IH]; intros Hn; [reflexivity |].
  rewrite filter_cons_False by (apply Hn; left).
  apply IH. intros z Hz. apply Hn. by right.
Qed.

Lemma filter_unique {A : Type} (P : A -> Prop) `{!forall x, Decision (P x)}
    (l : list A) (x : A) :
  NoDup l -> x ∈ l -> P x -> (forall y, y ∈ l -> P y -> y = x) ->
  length (filter P l) = 1%nat.
Proof.
  induction 1 as [|y l Hy Hnd IH]; intros Hin Px Hu.
  - inversion Hin.
  - destruct (decide (P y)) as [Py|Py].
    + assert (y = x) as -> by (apply Hu; [left | assumption]).
      rewrite filter_cons_True by assumption.
      rewrite filter_none; [reflexivity |].
      intros z Hz Pz. apply Hy. rewrite <- (Hu z); [assumption | by right | assumption].
    + rewrite filter_cons_False by assumption.
      apply IH; [| assumption |].
      * apply elem_of_cons in Hin as [->|]; [contradiction | assumption].
      * intros z Hz. apply Hu. by right.
Qed.

Lemma sends_on_notices (m : gmap string response) (key : string) (r : response) :
  m !! key = Some r ->
  (forall key' r', m !! key' = Some r' -> resp_errCh r' = resp_errCh r ->
     key' = key) ->
  sends_on (resp_errCh r) (notices (Message := Message) m) = 1%nat.
Proof.
  intros Hk Hu. unfold sends_on. rewrite err_sends_notices.
  rewrite <- (filter_unique (fun kv => resp_errCh kv.2 = resp_errCh r)
              (map_to_list m) (key, r)).
  - induction (map_to_list m) as [|kv l IH]; [reflexivity |].
    rewrite fmap_cons. destruct (decide (resp_errCh kv.2 = resp_errCh r)) as [E|E].
    + rewrite !filter_cons_True by assumption. simpl. f_equal. exact IH.
    + rewrite !filter_cons_False by assumption. exact IH.
  - apply NoDup_map_to_list.
  - by apply elem_of_map_to_list.
  - reflexivity.
  - intros [k' r'] Hin Hch. apply elem_of_map_to_list in Hin. simpl in Hch.
    assert (k' = key) as -> by (eapply Hu; eassumption).
    congruence.
Qed.

(** C2, as amended.  Once [closing] is set, a [Send] and a [Reply] return
    [ErrConnectionClosed] and leave the connection as it was, with nothing in
    the trace but the barrier's [Add] and [Done]: no request is enqueued.
    Both teardown paths set the flag.  The teardown for an error of the
    transport, [handleConnectionError] on a connection not yet closing,
    sends [ErrConnectionClosed] and nothing else on error channels, once for
    every entry of the pending table as it is at that time: the errors sent
    are the entries' error channels, in some order, and an entry whose error
    channel no other entry shares is sent exactly one.  The teardown by the
    user, [Close], sends no error to any slot and leaves the pending table
    as it is: it waits on the barrier for the calls in flight. *)
Theorem closing_refuses_and_notifies c :
  (closing c = true ->
   forall message,
     (forall w, Send message w c =
        Returns (None, Some ErrConnectionClosed) c [EvWgAdd; EvWgDone])
     /\ (forall w, Reply message w c =
        Returns (Some ErrConnectionClosed) c [EvWgAdd; EvWgDone])
     /\ enqueued [EvWgAdd (Message := Message); EvWgDone] = [])
  /\ closing (state_of (Close c)) = true
  /\ (forall err : error,
        closing (state_of (handleConnectionError (Some err) c)) = true)
  /\ (closing c = false ->
      forall err : error,
        let tr := trace_of (handleConnectionError (Some err) c) in
        err_sends tr ≡ₚ
          (fun kv => (resp_errCh kv.2, Some ErrConnectionClosed))
            <$> map_to_list (respMap c)
        /\ (forall key r,
              respMap c !! key = Some r ->
              (forall key' r', respMap c !! key' = Some r' ->
                 resp_errCh r' = resp_errCh r -> key' = key) ->
              sends_on (resp_errCh r) tr = 1%nat))
  /\ err_sends (trace_of (Close c)) = []
  /\ respMap (state_of (Close c)) = respMap c.
Proof.
  split; [| split; [| split; [| split; [| split]]]].
  - intros Hc message. split; [| split; [| reflexivity]]; intros w.
    + by apply Send_closing.
    + by apply Reply_closing.
  - apply Close_sets_closing.
  - intros err. destruct (closing c) eqn:Hc.
    + rewrite handleConnectionError_skips by auto. exact Hc.
    + rewrite handleConnectionError_state by assumption.
      by destruct (close_keeps (torn c)) as (_ & -> & _).
  - intros Hc err tr. subst tr. split.
    + by rewrite handleConnectionError_err_sends.
    + intros key r Hk Hu. unfold sends_on.
      rewrite handleConnectionError_err_sends by assumption.
      rewrite <- err_sends_notices.
      exact (sends_on_notices (respMap c) key r Hk Hu).
  - apply Close_sends_no_error.
  - apply Close_keeps_table.
Qed.

(** ** Inbound frames that do not unpack *)

Lemma handleResponse_unpack_fails (rawMessage : bytes) (m : Message) (e : error) c :
  spec c rawMessage = (m, Some e) ->
  handleResponse rawMessage c =
    Returns tt c
      match ErrorHandler (Opts c) with
      | Some h =>
          [EvGo (GoErrorHandler h
                   (SafeError (as_error (mkErrUnpack (Some e) rawMessage))
                      "failed to unpack message"))]
      | None => []
      end.
Proof.
  intros HU. unfold handleResponse, handleError, bind, get. rewrite HU.
  destruct (ErrorHandler (Opts c)); reflexivity.
Qed.

(** C7, as amended.  When the payload of an inbound frame fails to unpack,
    [handleResponse] returns with the connection exactly as it was: the
    pending table, the [closing] flag, the [done] channel and the transport
    are untouched, and the trace holds no access to the table, no close of
    [done] and no close of the transport.  The one thing it does is start the
    [ErrorHandler], when one is configured (and nothing when none is), on an
    error from which [errors.As] recovers the [ErrUnpack] with the raw bytes
    of the frame.  A [Send] that follows on a connection that was not
    closing, with a message that packs, frames and has a correlator, enqueues
    its request and returns the reply it is given, with no error. *)
Theorem unpack_error_is_reported (rawMessage : bytes) (m : Message) (e : error) c :
  spec c rawMessage = (m, Some e) ->
  let reported :=
    SafeError (as_error (mkErrUnpack (Some e) rawMessage))
      "failed to unpack message" in
  let o := handleResponse rawMessage c in
  o = Returns tt c
        match ErrorHandler (Opts c) with
        | Some h => [EvGo (GoErrorHandler h reported)]
        | None => []
        end
  /\ (forall h, ErrorHandler (Opts c) = Some h ->
        started (trace_of o) = [GoErrorHandler h reported])
  /\ errors_As to_ErrUnpack reported = Some (mkErrUnpack (Some e) rawMessage)
  /\ respMap (state_of o) = respMap c
  /\ table_accesses (trace_of o) = []
  /\ closing (state_of o) = closing c
  /\ done_ch (state_of o) = done_ch c
  /\ conn (state_of o) = conn c
  /\ count is_CloseDone (trace_of o) = 0%nat
  /\ count is_ConnClose (trace_of o) = 0%nat
  /\ (forall message (packed hb : bytes) (n : Z) (stan : string) (reply : Message),
        closing c = false ->
        Pack_ptr message = Some (packed, None) ->
        writeMessageLength c (Z.of_nat (length packed)) = (hb, (n, None)) ->
        requestID message = (stan, None) ->
        let o2 := Send message (WaitReply reply) (state_of o) in
        returned o2 = Some (Some reply, None)
        /\ enqueued (trace_of o2) =
             [mkRequest (hb ++ packed) stan (Some (next_chan c))
                (S (next_chan c))]).
Proof.
  intros HU reported o. subst o.
  rewrite (handleResponse_unpack_fails rawMessage m e c HU). fold reported.
  split; [reflexivity |]. cbn [state_of trace_of].
  split. { intros h ->. reflexivity. }
  split. { reflexivity. }
  split. { reflexivity. }
  assert (Hq : forall tr0,
    tr0 = match ErrorHandler (Opts c) with
          | Some h => [EvGo (GoErrorHandler h reported)]
          | None => []
          end ->
    table_accesses tr0 = [] /\ count is_CloseDone tr0 = 0%nat
    /\ count is_ConnClose tr0 = 0%nat).
  { intros tr0 ->. destruct (ErrorHandler (Opts c)); by repeat split. }
  destruct (Hq _ eq_refl) as (Ha & Hd & Hc).
  split; [exact Ha |]. do 3 (split; [reflexivity |]).
  split; [exact Hd |]. split; [exact Hc |].
  intros message packed hb n stan reply Hcl HP HW HI.
  rewrite (Send_enqueues message _ c packed hb n stan Hcl HP HW HI).
  split; reflexivity.
Qed.

(** ** The writer *)

Lemma writeLoop_request_slot (req : request) (replyCh : chan) c (t : T) :
  conn c = Some t ->
  req_replyCh req = Some replyCh ->
  writeLoop_request req c =
    Returns (conn_Write t (req_rawMessage req)).2.2
      (set_conn (Some (conn_Write t (req_rawMessage req)).1)
         (set_respMap
            (<[req_requestID req := mkResponse replyCh (req_errCh req)]>
               (respMap c)) c))
      (EvStore (req_requestID req) (mkResponse replyCh (req_errCh req))
       :: EvConnWrite (req_rawMessage req)
       :: match (conn_Write t (req_rawMessage req)).2.2, ErrorHandler (Opts c) with
          | Some e, Some h =>
              [EvGo (GoErrorHandler h
                       (SafeError e "failed to write message into connection"))]
          | _, _ => []
          end).
Proof.
  intros Hconn Hr.
  unfold writeLoop_request, respMap_store, transport_Write, handleError,
    bind, get, put, emit, ret.
  rewrite Hr. simpl. rewrite Hconn.
  destruct (conn_Write t (req_rawMessage req)) as [t' [n [e|]]]; simpl.
  - destruct (ErrorHandler (Opts c)); reflexivity.
  - reflexivity.
Qed.

Lemma writeLoop_request_no_slot (req : request) c (t : T) :
  conn c = Some t ->
  req_replyCh req = None ->
  writeLoop_request req c =
    Returns (conn_Write t (req_rawMessage req)).2.2
      (set_conn (Some (conn_Write t (req_rawMessage req)).1) c)
      (EvConnWrite (req_rawMessage req)
       :: match (conn_Write t (req_rawMessage req)).2.2, ErrorHandler (Opts c) with
          | Some e, Some h =>
              [EvGo (GoErrorHandler h
                       (SafeError e "failed to write message into connection"))]
          | Some e, None => []
          | None, _ => [EvSendErr (req_errCh req) None]
          end).
Proof.
  intros Hconn Hr.
  unfold writeLoop_request, respMap_store, transport_Write, handleError,
    bind, get, put, emit, ret.
  rewrite Hr. simpl. rewrite Hconn.
  destruct (conn_Write t (req_rawMessage req)) as [t' [n [e|]]]; simpl.
  - destruct (ErrorHandler (Opts c)); reflexivity.
  - reflexivity.
Qed.

(** C5.  The writer, for a request it received, with a transport in place:
    if the request carries a reply channel, the first thing it does is store
    the entry (correlator to the request's two channels) in the pending
    table, and the write of the request's bytes to the transport comes
    next, whatever the write returns; nothing is sent on the error channel.
    If the request carries none and the write returns no error, the write is
    followed by [nil] on the request's error channel, the pending table is
    not touched, and nothing else happens.  The loop runs exactly this for
    every request it selects. *)
Theorem writer_registers_before_write (req : request) c (t : T) :
  conn c = Some t ->
  (forall replyCh, req_replyCh req = Some replyCh ->
     exists rest c',
       writeLoop_request req c =
         Returns (conn_Write t (req_rawMessage req)).2.2 c'
           (EvStore (req_requestID req) (mkResponse replyCh (req_errCh req))
            :: EvConnWrite (req_rawMessage req) :: rest)
       /\ respMap c' =
            <[req_requestID req := mkResponse replyCh (req_errCh req)]>
              (respMap c)
       /\ err_sends rest = []
       /\ count is_ConnWrite rest = 0%nat)
  /\ (req_replyCh req = None ->
      (conn_Write t (req_rawMessage req)).2.2 = None ->
      exists c',
        writeLoop_request req c =
          Returns None c'
            [EvConnWrite (req_rawMessage req); EvSendErr (req_errCh req) None]
        /\ respMap c' = respMap c)
  /\ (forall rest,
        writeLoop (SelectRequest req :: rest) c =
          bind (writeLoop_request req)
            (fun err =>
               match err with
               | Some e =>
                   bind (handleConnectionError (Some e))
                     (fun _ => ret LoopReturned)
               | None => writeLoop rest
               end) c).
Proof.
  intros Hconn. split; [| split].
  - intros replyCh Hr.
    rewrite (writeLoop_request_slot req replyCh c t Hconn Hr).
    eexists _, _. split; [reflexivity |]. split; [reflexivity |].
    destruct (conn_Write t (req_rawMessage req)).2.2;
      destruct (ErrorHandler (Opts c)); by split.
  - intros Hr Hw.
    rewrite (writeLoop_request_no_slot req c t Hconn Hr), Hw.
    eexists. split; reflexivity.
  - reflexivity.
Qed.

(** ** The teardown over a lifetime *)

Abbreviation M := (Go (Message := Message) (T := T)).

Lemma count_app (P : event (Message := Message) -> bool) tr1 tr2 :
  count P (tr1 ++ tr2) = (count P tr1 + count P tr2)%nat.
Proof. unfold count. rewrite filter_app, length_app. reflexivity. Qed.

(** How [bind] ends, by how its first part ends. *)
Lemma bind_Returns {A B : Type} (m : M A) (k : A -> M B) c a c1 t1 :
  m c = Returns a c1 t1 ->
  state_of (bind m k c) = state_of (k a c1)
  /\ trace_of (bind m k c) = t1 ++ trace_of (k a c1)
  /\ (close_panic (bind m k c) -> close_panic (k a c1)).
Proof.
  intros Hm. unfold bind. rewrite Hm.
  destruct (k a c1) as [b c2 t2 | why c2 t2]; simpl.
  - repeat split; try reflexivity. intros (? & ? & [=]).
  - repeat split; try reflexivity.
    intros (c' & tr' & [= -> _ _]). by eexists _, _.
Qed.

Lemma bind_Panics {A B : Type} (m : M A) (k : A -> M B) c why c1 t1 :
  m c = Panics why c1 t1 ->
  bind m k c = Panics why c1 t1.
Proof. intros Hm. unfold bind. rewrite Hm. reflexivity. Qed.

Lemma close_panic_Panics {A B : Type} (why : string) c1 t1 c2 t2 :
  close_panic (Panics (A := A) why c1 t1) ->
  close_panic (Panics (A := B) why c2 t2).
Proof. intros (? & ? & [= -> _ _]). by eexists _, _. Qed.

Lemma quiet_ret {A : Type} (a : A) : quiet (ret (Message := Message) (T := T) a).
Proof. intros c. repeat split. intros (? & ? & [=]). Qed.

Lemma quiet_get : quiet (get (Message := Message) (T := T)).
Proof. intros c. repeat split. intros (? & ? & [=]). Qed.

Lemma quiet_emit (e : event) :
  is_CloseDone e = false -> quiet (emit (Message := Message) (T := T) e).
Proof.
  intros He c. unfold emit, count. simpl.
  rewrite filter_cons_False by (rewrite He; discriminate).
  repeat split. intros (? & ? & [=]).
Qed.

Lemma quiet_panic {A : Type} (why : string) :
  why <> "close of closed channel" ->
  quiet (panic (Message := Message) (T := T) (A := A) why).
Proof. intros Hw c. repeat split. intros (? & ? & [= ? _ _]). contradiction. Qed.

Lemma quiet_put_same (f : Connection -> Connection) :
  (forall c, closing (f c) = closing c /\ done_ch (f c) = done_ch c) ->
  quiet (bind get (fun c => put (Message := Message) (T := T) (f c))).
Proof.
  intros Hf c. destruct (Hf c) as [H1 H2]. unfold bind, get, put. simpl.
  repeat split; try assumption. intros (? & ? & [=]).
Qed.

Lemma quiet_bind {A B : Type} (m : M A) (k : A -> M B) :
  quiet m -> (forall a, quiet (k a)) -> quiet (bind m k).
Proof.
  intros Hm Hk c. destruct (Hm c) as (H1 & H2 & H3 & H4).
  destruct (m c) as [a c1 t1 | why c1 t1] eqn:Em.
  - destruct (bind_Returns m k c a c1 t1 Em) as (Hs & Ht & Hp).
    destruct (Hk a c1) as (K1 & K2 & K3 & K4). simpl in *.
    rewrite Hs, Ht, count_app, K1, K2, K3, H3.
    repeat split; try assumption.
    intros Hcp. apply K4, Hp, Hcp.
  - rewrite (bind_Panics m k c why c1 t1 Em). simpl in *.
    repeat split; try assumption.
    intros Hcp. apply H4. revert Hcp. apply close_panic_Panics.
Qed.

Lemma quiet_with_defer {A : Type} (d : M unit) (body : M A) :
  quiet d -> quiet body -> quiet (with_defer d body).
Proof.
  intros Hd Hb c. destruct (Hb c) as (H1 & H2 & H3 & H4).
  unfold with_defer.
  destruct (body c) as [a c1 t1 | why c1 t1] eqn:Eb; simpl in *;
    destruct (Hd c1) as (D1 & D2 & D3 & D4);
    destruct (d c1) as [u c2 t2 | why2 c2 t2] eqn:Ed; simpl in *;
    rewrite count_app, H3, D3, D1, D2; repeat split; try assumption.
  - intros (? & ? & [=]).
  - intros Hcp. apply D4. revert Hcp. apply close_panic_Panics.
  - intros Hcp. apply H4. revert Hcp. apply close_panic_Panics.
  - intros Hcp. apply D4. revert Hcp. apply close_panic_Panics.
Qed.

Lemma quiet_for_range {A : Type} (l : list A) (body : A -> M unit) :
  (forall x, quiet (body x)) -> quiet (for_range l body).
Proof.
  intros Hb. induction l as [|x l IH]; simpl.
  - apply quiet_ret.
  - apply quiet_bind; [apply Hb | intros _; exact IH].
Qed.

Create HintDb quiet.
Hint Resolve quiet_ret quiet_get quiet_bind quiet_with_defer quiet_for_range : quiet.
Hint Extern 1 (quiet (emit _)) => apply quiet_emit; reflexivity : quiet.
Hint Extern 1 (quiet (panic _)) => apply quiet_panic; discriminate : quiet.

(** The statements that touch other fields than [closing] and [done]. *)
Ltac quiet_step :=
  intros c;
  repeat first
    [ progress (cbv beta iota delta
        [bind get put ret emit panic state_of trace_of count])
    | progress simpl ];
  repeat split; try reflexivity; try (intros (? & ? & [=])).

Lemma quiet_make_chan : quiet (make_chan (Message := Message) (T := T)).
Proof. unfold make_chan. quiet_step. Qed.

Lemma quiet_respMap_store (key : string) (r : response) :
  quiet (respMap_store (Message := Message) (T := T) key r).
Proof. unfold respMap_store. quiet_step. Qed.

Lemma quiet_respMap_load (key : string) :
  quiet (respMap_load (Message := Message) (T := T) key).
Proof. unfold respMap_load. quiet_step. Qed.

Lemma quiet_respMap_delete (key : string) :
  quiet (respMap_delete (Message := Message) (T := T) key).
Proof. unfold respMap_delete. quiet_step. Qed.

Lemma quiet_message_Pack message : quiet (message_Pack (T := T) message).
Proof.
  unfold message_Pack. destruct (Pack_ptr message); auto with quiet.
Qed.

Lemma quiet_transport_Write (raw : bytes) :
  quiet (transport_Write (Message := Message) (T := T) raw).
Proof.
  intros c. unfold transport_Write, bind, get, put, emit, ret, panic.
  destruct (conn c) as [t|]; [destruct (conn_Write t raw) as [t' [n err]] |];
    simpl; repeat split; try reflexivity; intros (? & ? & [=]).
Qed.

Lemma quiet_handleError (err : error) :
  quiet (handleError (Message := Message) (T := T) err).
Proof.
  intros c. unfold handleError, bind, get, emit, ret.
  destruct (ErrorHandler (Opts c));
    simpl; repeat split; try reflexivity; intros (? & ? & [=]).
Qed.

Lemma quiet_SetStatus (s : Status) :
  quiet (SetStatus (Message := Message) (T := T) s).
Proof. unfold SetStatus. quiet_step. Qed.

Lemma quiet_SetOptions (options : list (Options -> Options * option error)) :
  quiet (SetOptions (Message := Message) (T := T) options).
Proof. unfold SetOptions. quiet_step. Qed.

Hint Resolve quiet_make_chan quiet_respMap_store quiet_respMap_load
  quiet_respMap_delete quiet_message_Pack quiet_transport_Write
  quiet_handleError quiet_SetStatus quiet_SetOptions : quiet.

Ltac quiet_cases :=
  repeat first
    [ solve [auto with quiet]
    | match goal with
      | |- quiet (bind _ _) => apply quiet_bind; [| intros ?]
      | |- quiet (with_defer _ _) => apply quiet_with_defer
      | |- quiet (match ?x with _ => _ end) => destruct x
      | |- quiet (if ?x then _ else _) => destruct x
      | |- quiet (let '(_, _) := ?x in _) => destruct x
      end ].

Lemma quiet_Send message w : quiet (Send (T := T) message w).
Proof. unfold Send. quiet_cases. Qed.

Lemma quiet_Reply message w : quiet (Reply (T := T) message w).
Proof. unfold Reply. quiet_cases. Qed.

Lemma quiet_handleResponse (rawMessage : bytes) :
  quiet (handleResponse (T := T) rawMessage).
Proof. unfold handleResponse. quiet_cases. Qed.

Lemma quiet_writeLoop_request (req : request) :
  quiet (writeLoop_request (Message := Message) (T := T) req).
Proof. unfold writeLoop_request. quiet_cases. Qed.

Lemma quiet_readResponseLoop (script : list dispatch_select) :
  quiet (readResponseLoop (Message := Message) (T := T) script).
Proof.
  induction script as [|[raw| |] rest IH]; simpl; quiet_cases.
Qed.

Lemma quiet_orderly {A : Type} (m : M A) : quiet m -> orderly m.
Proof.
  intros Hq c Hg. destruct (Hq c) as (H1 & H2 & H3 & H4).
  unfold guarded in *. rewrite H1, H2, H3.
  split; [exact Hg |]. split; [auto |]. split; [auto |].
  split; [by destruct (done_ch c) | exact H4].
Qed.

Lemma closes_between_trans (d0 d1 d2 : chan_state) :
  (d0 = Closed -> d1 = Closed) -> (d1 = Closed -> d2 = Closed) ->
  (closes_between d0 d1 + closes_between d1 d2)%nat = closes_between d0 d2.
Proof.
  destruct d0, d1, d2; simpl; intros H01 H12; try reflexivity;
    try (by specialize (H01 eq_refl)); by specialize (H12 eq_refl).
Qed.

Lemma orderly_bind {A B : Type} (m : M A) (k : A -> M B) :
  orderly m -> (forall a, orderly (k a)) -> orderly (bind m k).
Proof.
  intros Hm Hk c Hg. destruct (Hm c Hg) as (H1 & H2 & H3 & H4 & H5).
  destruct (m c) as [a c1 t1 | why c1 t1] eqn:Em.
  - destruct (bind_Returns m k c a c1 t1 Em) as (Hs & Ht & Hp).
    simpl in *.
    destruct (Hk a c1 H1) as (K1 & K2 & K3 & K4 & K5).
    rewrite Hs, Ht, count_app, H4, K4.
    repeat split; auto.
    apply closes_between_trans; assumption.
  - rewrite (bind_Panics m k c why c1 t1 Em). simpl in *.
    repeat split; try assumption.
    intros Hcp. apply H5. revert Hcp. apply close_panic_Panics.
Qed.

Lemma orderly_for_range {A : Type} (l : list A) (body : A -> M unit) :
  (forall x, orderly (body x)) -> orderly (for_range l body).
Proof.
  intros Hb. induction l as [|x l IH]; simpl.
  - apply quiet_orderly, quiet_ret.
  - apply orderly_bind; [apply Hb | intros _; exact IH].
Qed.

Lemma count_notices (P : event -> bool) (m : gmap string response) :
  (forall ch err, P (EvSendErr ch err) = false) ->
  count P (notices (Message := Message) m) = 0%nat.
Proof.
  intros HP. unfold notices, count.
  induction (map_to_list m) as [|kv l IH]; [reflexivity |].
  rewrite fmap_cons, filter_cons_False by (rewrite HP; discriminate).
  exact IH.
Qed.

Lemma count_closed_handlers (P : event -> bool) (hs : list handler) :
  (forall g, P (EvGo g) = false) ->
  count P (closed_handlers (Message := Message) hs) = 0%nat.
Proof.
  intros HP. unfold closed_handlers, count.
  induction hs as [|h l IH]; [reflexivity |].
  rewrite fmap_cons, filter_cons_False by (rewrite HP; discriminate).
  exact IH.
Qed.

Lemma orderly_Close : orderly (Close (Message := Message) (T := T)).
Proof.
  intros c Hg. rewrite Close_eq. destruct (closing c) eqn:Hc.
  - simpl. repeat split; auto. + by destruct (done_ch c). + intros (? & ? & [=]).
  - specialize (Hg Hc). rewrite close_eq. simpl. rewrite Hg.
    destruct (conn c) as [t|]; simpl; unfold guarded; simpl;
      repeat split; auto; try discriminate; intros (? & ? & [=]).
Qed.

Lemma orderly_handleConnectionError (err : option error) :
  orderly (handleConnectionError (Message := Message) (T := T) err).
Proof.
  intros c Hg.
  destruct err as [e|]; [destruct (closing c) eqn:Hc |].
  - rewrite handleConnectionError_skips by auto. simpl.
    repeat split; auto. + by destruct (done_ch c). + intros (? & ? & [=]).
  - specialize (Hg Hc).
    rewrite handleConnectionError_eq, close_eq by assumption.
    unfold torn. cbn [done_ch conn set_closing set_next_chan]. rewrite Hg.
    destruct (conn c) as [t|]; cbn [state_of trace_of];
      rewrite !count_app, count_notices, count_closed_handlers by reflexivity;
      unfold guarded; simpl;
      repeat split; auto; try discriminate; intros (? & ? & [=]).
  - rewrite handleConnectionError_skips by auto. simpl.
    repeat split; auto. + by destruct (done_ch c). + intros (? & ? & [=]).
Qed.

Create HintDb orderly.
Hint Resolve orderly_bind orderly_for_range orderly_Close
  orderly_handleConnectionError : orderly.
Hint Extern 5 (orderly _) => apply quiet_orderly; solve [quiet_cases] : orderly.

Ltac orderly_cases :=
  repeat first
    [ solve [auto with orderly]
    | match goal with
      | |- orderly (bind _ _) => apply orderly_bind; [| intros ?]
      | |- orderly (match ?x with _ => _ end) => destruct x
      end ].

Lemma orderly_writeLoop (script : list write_select) :
  orderly (writeLoop (Message := Message) (T := T) script).
Proof.
  induction script as [|[req| |] rest IH]; simpl.
  - orderly_cases.
  - apply orderly_bind; [apply quiet_orderly, quiet_writeLoop_request |].
    intros [e|]; [orderly_cases | exact IH].
  - apply orderly_bind; [apply quiet_orderly, quiet_get | intros c].
    apply orderly_bind; [orderly_cases | intros _; exact IH].
  - orderly_cases.
Qed.

Lemma orderly_readLoop (script : list read_step) :
  orderly (readLoop (Message := Message) (T := T) script).
Proof.
  induction script as [|[raw|err|err] rest IH]; simpl.
  - orderly_cases.
  - apply orderly_bind; [orderly_cases | intros _; exact IH].
  - orderly_cases.
  - orderly_cases.
Qed.

Lemma orderly_perform (k : call) : orderly (perform (T := T) k).
Proof.
  destruct k; simpl.
  - orderly_cases.
  - orderly_cases.
  - apply quiet_orderly, quiet_bind; [apply quiet_Send | auto with quiet].
  - apply quiet_orderly, quiet_bind; [apply quiet_Reply | auto with quiet].
  - apply quiet_orderly, quiet_handleResponse.
  - apply orderly_bind; [apply orderly_writeLoop | orderly_cases].
  - apply orderly_bind; [apply orderly_readLoop | orderly_cases].
  - apply quiet_orderly, quiet_bind;
      [apply quiet_readResponseLoop | auto with quiet].
  - apply quiet_orderly, quiet_SetStatus.
  - apply quiet_orderly, quiet_bind; [apply quiet_SetOptions | auto with quiet].
Qed.

Lemma orderly_lifetime (calls : list call) : orderly (lifetime (T := T) calls).
Proof. apply orderly_for_range, orderly_perform. Qed.

(** A guarded connection stays guarded whatever is called on it. *)
Lemma guarded_lifetime (calls : list call) c :
  guarded c -> guarded (state_of (lifetime calls c)).
Proof. intros Hg. by destruct (orderly_lifetime calls c Hg) as (H & _). Qed.

(** ** Order within a trace *)

Lemma precedes_none (P Q : event -> bool) tr :
  Forall (fun x => Q x = false) tr -> precedes P Q tr = true.
Proof.
  induction 1 as [|x l Hx _ IH]; [reflexivity |].
  simpl. rewrite Hx. exact IH.
Qed.

Lemma precedes_app (P Q : event -> bool) tr1 tr2 :
  Forall (fun x => Q x = false) tr1 ->
  precedes P Q (tr1 ++ tr2) = precedes P Q tr2.
Proof.
  induction 1 as [|x l Hx _ IH]; [reflexivity |].
  simpl. rewrite Hx. exact IH.
Qed.

Lemma precedes_meaning (P Q : event -> bool) tr :
  precedes P Q tr = true <->
  forall i j x y,
    tr !! i = Some x -> tr !! j = Some y -> P x = true -> Q y = true ->
    (i < j)%nat.
Proof.
  induction tr as [|e rest IH]; simpl.
  - split; [| reflexivity]. intros _ i j x y Hi. inversion Hi.
  - destruct (Q e) eqn:Qe.
    + rewrite andb_true_iff, negb_true_iff, forallb_forall. split.
      * intros [Pe Hrest] i j x y Hi Hj Px Qy. exfalso.
        destruct i as [|i]; simpl in Hi.
        -- injection Hi as <-. congruence.
        -- apply list_elem_of_lookup_2, list_elem_of_In in Hi.
           apply Hrest in Hi. rewrite Px in Hi. discriminate.
      * intros Hall. split.
        -- destruct (P e) eqn:Pe; [| reflexivity].
           specialize (Hall 0%nat 0%nat e e eq_refl eq_refl Pe Qe). lia.
        -- intros x Hx. apply list_elem_of_In, list_elem_of_lookup in Hx as [i Hi].
           destruct (P x) eqn:Px; [| reflexivity].
           specialize (Hall (S i) 0%nat x e Hi eq_refl Px Qe). lia.
    + rewrite IH. split.
      * intros Hall i j x y Hi Hj Px Qy.
        destruct j as [|j]; simpl in Hj; [injection Hj as <-; congruence |].
        destruct i as [|i]; [lia |]. simpl in Hi.
        specialize (Hall i j x y Hi Hj Px Qy). lia.
      * intros Hall i j x y Hi Hj Px Qy.
        specialize (Hall (S i) (S j) x y Hi Hj Px Qy). lia.
Qed.

Lemma count_zero (P : event -> bool) tr :
  Forall (fun x => P x = false) tr -> count P tr = 0%nat.
Proof.
  unfold count. induction 1 as [|x l Hx _ IH]; [reflexivity |].
  rewrite filter_cons_False by (rewrite Hx; discriminate). exact IH.
Qed.

Lemma forallb_negb (P : event -> bool) tr :
  Forall (fun x => P x = false) tr ->
  forallb (fun x => negb (P x)) tr = true.
Proof.
  induction 1 as [|x l Hx _ IH]; [reflexivity |].
  simpl. rewrite Hx. exact IH.
Qed.

Lemma Forall_notices (P : event -> bool) (m : gmap string response) :
  (forall ch err, P (EvSendErr ch err) = false) ->
  Forall (fun x => P x = false) (notices (Message := Message) m).
Proof. intros HP. unfold notices. apply Forall_fmap, Forall_true. intros kv. apply HP. Qed.

Lemma Forall_closed_handlers (P : event -> bool) (hs : list handler) :
  (forall g, P (EvGo g) = false) ->
  Forall (fun x => P x = false) (closed_handlers (Message := Message) hs).
Proof.
  intros HP. unfold closed_handlers. apply Forall_fmap, Forall_true.
  intros h. apply HP.
Qed.

(** The shape both teardown paths give their trace: events that concern
    neither the barrier, [done] nor the transport, then the wait on the
    barrier, the close of [done], the close of the transport if there is one,
    and [go] statements. *)
Lemma teardown_shape (pre post transport : list (event (Message := Message))) :
  Forall (fun x => is_WgWait x = false) pre ->
  Forall (fun x => is_CloseDone x = false) pre ->
  Forall (fun x => is_ConnClose x = false) pre ->
  (exists hs, post = closed_handlers hs) ->
  transport = [EvConnClose] \/ transport = [] ->
  let tr := pre ++ [EvWgWait; EvCloseDone] ++ transport ++ post in
  count is_CloseDone tr = 1%nat
  /\ precedes is_WgWait is_CloseDone tr = true
  /\ precedes is_SendErr is_CloseDone tr = true
  /\ precedes is_CloseDone is_ConnClose tr = true
  /\ count is_ConnClose tr = length transport.
Proof.
  intros Hw Hd Hc [hs ->] Ht tr. subst tr.
  pose proof (Forall_closed_handlers is_CloseDone hs (fun _ => eq_refl)) as Pd.
  pose proof (Forall_closed_handlers is_ConnClose hs (fun _ => eq_refl)) as Pc.
  pose proof (Forall_closed_handlers is_WgWait hs (fun _ => eq_refl)) as Pw.
  pose proof (Forall_closed_handlers is_SendErr hs (fun _ => eq_refl)) as Ps.
  rewrite !count_app, !(precedes_app _ _ pre) by assumption.
  rewrite (count_zero _ pre Hd), (count_zero _ pre Hc).
  rewrite (count_zero _ _ Pd), (count_zero _ _ Pc).
  destruct Ht as [-> | ->]; cbn [app precedes is_CloseDone is_ConnClose
    is_WgWait is_SendErr negb andb forallb];
    rewrite ?forallb_negb, ?precedes_none by assumption;
    repeat split; reflexivity.
Qed.

Lemma Close_fresh c :
  closing c = false -> done_ch c = Open ->
  exists r c1,
    Close c =
      Returns r c1
        ([EvWgWait; EvCloseDone]
         ++ match conn c with Some _ => [EvConnClose] | None => [] end)
    /\ done_ch c1 = Closed /\ closing c1 = true.
Proof.
  intros Hc Hd. rewrite Close_eq, Hc, close_eq. cbn [done_ch conn set_closing].
  rewrite Hd. destruct (conn c) as [t|]; eexists _, _; by repeat split.
Qed.

Lemma handleConnectionError_fresh (err : error) c :
  closing c = false -> done_ch c = Open ->
  exists c1,
    handleConnectionError (Some err) c =
      Returns tt c1
        (notices (respMap c)
         ++ drainers (next_chan c) ++ [EvWgWait; EvCloseDone]
         ++ match conn c with Some _ => [EvConnClose] | None => [] end
         ++ closed_handlers (ConnectionClosedHandlers (Opts c)))
    /\ done_ch c1 = Closed /\ closing c1 = true.
Proof.
  intros Hc Hd. rewrite handleConnectionError_eq, close_eq by assumption.
  unfold torn. cbn [done_ch conn set_closing set_next_chan]. rewrite Hd.
  destruct (conn c) as [t|]; eexists; by repeat split.
Qed.

(** C1, as amended.  On a connection on which no teardown has begun
    ([closing] not set, [done] open), both teardown paths, [Close] and
    [handleConnectionError] for an error of the transport, return without
    panic and leave [done] closed; their trace closes [done] exactly once,
    after the wait on the barrier and after every error sent to a pending
    slot, and BEFORE the close of the transport (which happens once when a
    transport is there).  Over any sequence of calls on the connection,
    [done] is closed at most once, exactly once when it ends closed, and no
    call panics by closing it twice. *)
Theorem done_closed_once_before_transport c :
  closing c = false ->
  done_ch c = Open ->
  let transport := match conn c with Some _ => [EvConnClose] | None => [] end in
  (exists r c1,
     Close c = Returns r c1 ([EvWgWait; EvCloseDone] ++ transport)
     /\ done_ch c1 = Closed)
  /\ (forall err : error,
      exists c1,
        handleConnectionError (Some err) c =
          Returns tt c1
            (notices (respMap c)
             ++ drainers (next_chan c) ++ [EvWgWait; EvCloseDone]
             ++ transport
             ++ closed_handlers (ConnectionClosedHandlers (Opts c)))
        /\ done_ch c1 = Closed)
  /\ (forall tr,
        tr = trace_of (Close c)
        \/ (exists err : error,
              tr = trace_of (handleConnectionError (Some err) c)) ->
        count is_CloseDone tr = 1%nat
        /\ precedes is_WgWait is_CloseDone tr = true
        /\ precedes is_SendErr is_CloseDone tr = true
        /\ precedes is_CloseDone is_ConnClose tr = true
        /\ count is_ConnClose tr = length transport)
  /\ (forall calls,
        (count is_CloseDone (trace_of (lifetime calls c)) <= 1)%nat
        /\ (count is_CloseDone (trace_of (lifetime calls c)) = 1%nat <->
            done_ch (state_of (lifetime calls c)) = Closed)
        /\ ~ close_panic (lifetime calls c)).
Proof.
  intros Hc Hd transport.
  assert (Ht : transport = [EvConnClose] \/ transport = [])
    by (subst transport; destruct (conn c); auto).
  split; [| split; [| split]].
  - destruct (Close_fresh c Hc Hd) as (r & c1 & HC & Hd1 & _). eauto.
  - intros err.
    destruct (handleConnectionError_fresh err c Hc Hd) as (c1 & HE & Hd1 & _).
    eauto.
  - intros tr [-> | [err ->]].
    + destruct (Close_fresh c Hc Hd) as (r & c1 & -> & _). cbn [trace_of].
      pose proof (teardown_shape [] (closed_handlers []) transport
                    (Forall_nil_2 _) (Forall_nil_2 _) (Forall_nil_2 _)
                    (ex_intro _ [] eq_refl) Ht) as Hshape.
      cbn [app closed_handlers fmap list_fmap] in Hshape.
      rewrite app_nil_r in Hshape. exact Hshape.
    + destruct (handleConnectionError_fresh err c Hc Hd) as (c1 & -> & _).
      cbn [trace_of].
      assert (Hpre : forall P : event (Message := Message) -> bool,
                (forall ch e, P (EvSendErr ch e) = false) ->
                (forall g, P (EvGo g) = false) ->
                Forall (fun x => P x = false)
                  (notices (respMap c)
                   ++ drainers (next_chan c))).
      { intros P HPs HPg. apply Forall_app. split.
        - by apply Forall_notices.
        - repeat constructor; apply HPg. }
      pose proof (teardown_shape
                    (notices (respMap c)
                     ++ drainers (next_chan c))
                    (closed_handlers (ConnectionClosedHandlers (Opts c)))
                    transport
                    (Hpre _ (fun _ _ => eq_refl) (fun _ => eq_refl))
                    (Hpre _ (fun _ _ => eq_refl) (fun _ => eq_refl))
                    (Hpre _ (fun _ _ => eq_refl) (fun _ => eq_refl))
                    (ex_intro _ _ eq_refl) Ht) as Hshape.
      cbv zeta in Hshape. rewrite <- app_assoc in Hshape. exact Hshape.
  - intros calls.
    assert (Hg : guarded c) by (intros _; exact Hd).
    destruct (orderly_lifetime calls c Hg) as (_ & _ & _ & Hn & Hp).
    rewrite Hn, Hd. destruct (done_ch (state_of (lifetime calls c))); simpl.
    + split; [lia |]. split; [| exact Hp]. split; discriminate.
    + split; [lia |]. split; [| exact Hp]. split; reflexivity.
Qed.

Lemma Close_times_closing (n : nat) c :
  closing c = true ->
  Close_times n c = Returns (replicate n None) c [].
Proof.
  intros Hc. induction n as [|n IH]; [reflexivity |].
  simpl. unfold bind at 1. rewrite Close_eq, Hc.
  unfold bind at 1. rewrite IH. reflexivity.
Qed.

(** C9.  After a call of [Close], however it ended, the connection is
    closing, and every further [Close] returns [nil] at once: the connection
    is as it was and the trace is empty, so nothing is closed again.  On a
    guarded connection (one on which [done] is closed only if it is closing,
    as every connection is from [New] on), any number of calls of [Close] in
    a row return, the first with its result and the rest with [nil]; their
    trace is that of the first call alone, and it closes [done] at most once
    and the transport at most once. *)
Theorem Close_idempotent c :
  closing (state_of (Close c)) = true
  /\ Close (state_of (Close c)) = Returns None (state_of (Close c)) []
  /\ (forall n,
        Close_times n (state_of (Close c)) =
          Returns (replicate n None) (state_of (Close c)) [])
  /\ (guarded c ->
      forall n,
        exists r,
          Close_times (S n) c =
            Returns (r :: replicate n None) (state_of (Close c))
              (trace_of (Close c))
          /\ (count is_CloseDone (trace_of (Close_times (S n) c)) <= 1)%nat
          /\ (count is_ConnClose (trace_of (Close_times (S n) c)) <= 1)%nat).
Proof.
  pose proof (Close_sets_closing c) as Hs.
  split; [exact Hs |].
  split; [by rewrite Close_eq, Hs |].
  split; [intros n; by apply Close_times_closing |].
  intros Hg n.
  assert (HC : exists r tr,
    Close c = Returns r (state_of (Close c)) tr
    /\ (count is_CloseDone tr <= 1)%nat /\ (count is_ConnClose tr <= 1)%nat).
  { destruct (closing c) eqn:Hc.
    - rewrite Close_eq, Hc. eexists _, _. split; [reflexivity |].
      split; unfold count; simpl; lia.
    - destruct (Close_fresh c Hc (Hg Hc)) as (r & c1 & -> & _).
      eexists _, _. split; [reflexivity |].
      destruct (conn c); split; unfold count; simpl; lia. }
  destruct HC as (r & tr & HC & Hd & Ht). exists r.
  assert (HT : Close_times (S n) c =
                 Returns (r :: replicate n None) (state_of (Close c)) tr).
  { simpl. unfold bind at 1. rewrite HC. cbn [state_of].
    unfold bind at 1. rewrite Close_times_closing.
    - simpl. rewrite app_nil_r. reflexivity.
    - rewrite HC in Hs. exact Hs. }
  rewrite HT. rewrite HC. cbn [trace_of state_of]. auto.
Qed.

(** ** Further properties of the engine *)

(** X1.  A [Send] that got past the pre-flight steps removes the entry of
    its correlator from the pending table before it returns, however its
    wait ended (reply, error or timeout), and touches no other entry. *)
Theorem Send_removes_slot message w c (packed hb : bytes) (n : Z) (stan : string) :
  closing c = false ->
  Pack_ptr message = Some (packed, None) ->
  writeMessageLength c (Z.of_nat (length packed)) = (hb, (n, None)) ->
  requestID message = (stan, None) ->
  respMap (state_of (Send message w c)) = delete stan (respMap c)
  /\ respMap (state_of (Send message w c)) !! stan = None
  /\ (forall key, key <> stan ->
        respMap (state_of (Send message w c)) !! key = respMap c !! key)
  /\ table_accesses (trace_of (Send message w c)) = [stan]
  /\ closing (state_of (Send message w c)) = false.
Proof.
  intros Hc HP HW HI.
  rewrite (Send_enqueues message w c packed hb n stan Hc HP HW HI).
  cbn [state_of trace_of respMap set_respMap closing].
  split; [reflexivity |]. split; [apply lookup_delete_eq |].
  split; [intros key Hk; by apply lookup_delete_ne |].
  split; [| exact Hc].
  destruct w as [r | e |]; [reflexivity | reflexivity |].
  destruct (InboundMessageHandler (Opts c)); reflexivity.
Qed.

(** X2.  The routing of an inbound message classified as a response, with
    correlator [stan]: the pending table is looked up once and not changed;
    with a slot registered under [stan] the message is sent on the slot's
    reply channel; with none, it goes to the [InboundMessageHandler] if one
    is configured, and otherwise an error naming the correlator goes to
    [handleError]. *)
Theorem handleResponse_routes_response (rawMessage : bytes) (m : Message)
    (stan : string) c :
  spec c rawMessage = (m, None) ->
  isResponse (Some m) = true ->
  requestID (Some m) = (stan, None) ->
  (forall resp, respMap c !! stan = Some resp ->
     handleResponse rawMessage c =
       Returns tt c [EvLookup stan; EvSendReply (resp_replyCh resp) m])
  /\ (forall h, respMap c !! stan = None ->
        InboundMessageHandler (Opts c) = Some h ->
        handleResponse rawMessage c =
          Returns tt c [EvLookup stan; EvGo (GoInboundMessageHandler h m)])
  /\ (respMap c !! stan = None ->
      InboundMessageHandler (Opts c) = None ->
      handleResponse rawMessage c =
        Returns tt c
          (EvLookup stan
           :: match ErrorHandler (Opts c) with
              | Some h =>
                  [EvGo (GoErrorHandler h
                           (fmt_Errorf ("can't find request for ID: " +:+ stan)))]
              | None => []
              end)).
Proof.
  intros HU Hr HI.
  assert (Hrun : handleResponse rawMessage c =
    match respMap c !! stan with
    | Some resp => Returns tt c [EvLookup stan; EvSendReply (resp_replyCh resp) m]
    | None =>
        match InboundMessageHandler (Opts c) with
        | Some h => Returns tt c [EvLookup stan; EvGo (GoInboundMessageHandler h m)]
        | None =>
            Returns tt c
              (EvLookup stan
               :: match ErrorHandler (Opts c) with
                  | Some h =>
                      [EvGo (GoErrorHandler h
                               (fmt_Errorf ("can't find request for ID: " +:+ stan)))]
                  | None => []
                  end)
        end
    end).
  { unfold handleResponse, respMap_load, handleError, bind, get, emit, ret.
    rewrite HU, Hr, HI. cbn [fst snd].
    destruct (respMap c !! stan) as [resp|]; [reflexivity |].
    destruct (InboundMessageHandler (Opts c)); [reflexivity |].
    destruct (ErrorHandler (Opts c)); reflexivity. }
  rewrite Hrun. split; [| split].
  - intros resp ->. reflexivity.
  - intros h -> ->. reflexivity.
  - intros -> ->. reflexivity.
Qed.


(** X4.  A [Send] whose wait ends on the timer returns [ErrSendTimeout] and
    no reply; what it starts is the one-second salvage of a late reply when
    an [InboundMessageHandler] is configured, and nothing otherwise; the
    connection is not torn down. *)
Theorem Send_timeout message c (packed hb : bytes) (n : Z) (stan : string) :
  closing c = false ->
  Pack_ptr message = Some (packed, None) ->
  writeMessageLength c (Z.of_nat (length packed)) = (hb, (n, None)) ->
  requestID message = (stan, None) ->
  returned (Send message WaitTimeout c) = Some (None, Some ErrSendTimeout)
  /\ started (trace_of (Send message WaitTimeout c)) =
       match InboundMessageHandler (Opts c) with
       | Some h => [GoSalvage (next_chan c) h]
       | None => []
       end
  /\ closing (state_of (Send message WaitTimeout c)) = false
  /\ done_ch (state_of (Send message WaitTimeout c)) = done_ch c
  /\ conn (state_of (Send message WaitTimeout c)) = conn c.
Proof.
  intros Hc HP HW HI.
  rewrite (Send_enqueues message WaitTimeout c packed hb n stan Hc HP HW HI).
  cbn [returned trace_of state_of].
  split; [reflexivity |]. split.
  - destruct (InboundMessageHandler (Opts c)); reflexivity.
  - by repeat split.
Qed.

(** ** Options *)

Lemma apply_options_app (pre post : list (Options -> Options * option error))
    (opts : Options) :
  apply_options (pre ++ post) opts =
    match (apply_options pre opts).2 with
    | Some _ => apply_options pre opts
    | None => apply_options post (apply_options pre opts).1
    end.
Proof.
  revert opts. induction pre as [|opt pre IH]; intros opts; simpl; [reflexivity |].
  destruct (opt opts) as [opts' [e|]]; simpl; [reflexivity | apply IH].
Qed.

Lemma errors_Is_wrapped (prefix : string) (u target : error) :
  errors_Is u target = true ->
  errors_Is (fmt_Errorf_w prefix u) target = true.
Proof.
  intros Hu.
  rewrite (errors_Is_through (fmt_Errorf_w prefix u) u target) by reflexivity.
  rewrite Hu.
  apply orb_true_r.
Qed.

(** X5.  Options are applied in order, each to what the one before left,
    and the first that fails ends the run: no later option is applied, and
    the error returned wraps the option's own.  [New] then returns no
    connection, [NewFrom] wraps the error once more, and [SetOptions] keeps
    on the connection what the options before the failing one and the
    failing one itself did to it; nothing is rolled back. *)
Theorem options_stop_at_first_failure
    (pre post : list (Options -> Options * option error))
    (bad : Options -> Options * option error) (opts : Options) (e : error) :
  (apply_options pre opts).2 = None ->
  (bad (apply_options pre opts).1).2 = Some e ->
  let reached := (bad (apply_options pre opts).1).1 in
  let failure := fmt_Errorf_w "setting client option: " e in
  apply_options (pre ++ bad :: post) opts = (reached, Some failure)
  /\ (forall (a : string) (sp : MessageSpec Message) (w : MessageLengthWriter),
        New (T := T) opts a sp w (pre ++ bad :: post) = (None, Some failure))
  /\ (forall (t : T) (sp : MessageSpec Message) (w : MessageLengthWriter),
        NewFrom opts t sp w (pre ++ bad :: post) =
          (None, Some (fmt_Errorf_w "creating client: " failure)))
  /\ (forall c, Opts c = opts ->
        SetOptions (pre ++ bad :: post) c =
          Returns (Some failure) (set_Opts reached c) [])
  /\ errors_Is (fmt_Errorf_w "creating client: " failure) e = true.
Proof.
  intros Hpre Hbad reached failure.
  assert (Happ : apply_options (pre ++ bad :: post) opts = (reached, Some failure)).
  { rewrite apply_options_app, Hpre. simpl.
    subst reached failure.
    destruct (bad (apply_options pre opts).1) as [o' oe]. simpl in Hbad.
    subst oe. reflexivity. }
  split; [exact Happ |].
  split; [intros a sp w; unfold New; rewrite Happ; reflexivity |].
  split; [intros t sp w; unfold NewFrom, New; rewrite Happ; reflexivity |].
  split.
  - intros c <-. unfold SetOptions, bind, get, put, ret. simpl.
    rewrite Happ. reflexivity.
  - do 2 apply errors_Is_wrapped. apply errors_Is_refl.
Qed.

(** X6.  When every option succeeds, [New] returns a connection that holds
    the options applied in order and on which nothing has begun: no
    transport, [done] open, not closing, no request pending; [NewFrom] gives
    the same connection with the transport in place.  Options given to [New]
    and options set afterwards by [SetOptions] are the same thing: setting
    [more] on the connection gives the connection [New] returns for the
    options followed by [more], and fails exactly when that call of [New]
    fails, with the same error. *)
Theorem options_at_New_or_later
    (options more : list (Options -> Options * option error))
    (defaults : Options) (a : string) (sp : MessageSpec Message)
    (w : MessageLengthWriter) :
  (apply_options options defaults).2 = None ->
  exists c,
    New (T := T) defaults a sp w options = (Some c, None)
    /\ Opts c = (apply_options options defaults).1
    /\ conn c = None /\ done_ch c = Open /\ closing c = false
    /\ respMap c = ∅ /\ addr c = a
    /\ (forall t : T,
          NewFrom defaults t sp w options =
            (Some (mkConnection "" (Opts c) (Some t) Open sp w ∅ false
                     StatusUnknown 0), None))
    /\ (forall c', SetOptions more c = Returns None c' [] ->
          New defaults a sp w (options ++ more) = (Some c', None))
    /\ (forall e c', SetOptions more c = Returns (Some e) c' [] ->
          New (T := T) defaults a sp w (options ++ more) = (None, Some e)).
Proof.
  intros Hok.
  destruct (apply_options options defaults) as [opts oe] eqn:Happ.
  simpl in Hok. subst oe.
  eexists. split; [unfold New; rewrite Happ; reflexivity |].
  cbn [Opts conn done_ch closing respMap addr fst].
  do 6 (split; [reflexivity |]).
  split; [intros t; unfold NewFrom, New; rewrite Happ; reflexivity |].
  split.
  - intros c'. unfold SetOptions, bind, get, put, ret. simpl.
    intros [= Herr <-]. unfold New.
    rewrite apply_options_app, Happ. simpl.
    destruct (apply_options more opts) as [o2 oe2]. simpl in Herr. subst oe2.
    reflexivity.
  - intros e c'. unfold SetOptions, bind, get, put, ret. simpl.
    intros [= Herr _]. unfold New.
    rewrite apply_options_app, Happ. simpl.
    destruct (apply_options more opts) as [o2 oe2]. simpl in Herr. subst oe2.
    reflexivity.
Qed.

(** ** What each call leaves in the trace *)

Lemma confined_ret {A : Type} (P : event -> bool) (a : A) :
  confined P (ret (Message := Message) (T := T) a).
Proof. intros c. constructor. Qed.

Lemma confined_get (P : event -> bool) :
  confined P (get (Message := Message) (T := T)).
Proof. intros c. constructor. Qed.

Lemma confined_put (P : event -> bool) c0 :
  confined P (put (Message := Message) (T := T) c0).
Proof. intros c. constructor. Qed.

Lemma confined_panic {A : Type} (P : event -> bool) (why : string) :
  confined P (panic (Message := Message) (T := T) (A := A) why).
Proof. intros c. constructor. Qed.

Lemma confined_emit (P : event -> bool) (e : event) :
  P e = true -> confined P (emit (Message := Message) (T := T) e).
Proof. intros He c. repeat constructor. exact He. Qed.

Lemma confined_bind {A B : Type} (P : event -> bool) (m : M A) (k : A -> M B) :
  confined P m -> (forall a, confined P (k a)) -> confined P (bind m k).
Proof.
  intros Hm Hk c. specialize (Hm c). unfold bind.
  destruct (m c) as [a c1 t1 | why c1 t1]; [| exact Hm].
  specialize (Hk a c1).
  destruct (k a c1) as [b c2 t2 | why c2 t2]; apply Forall_app; by split.
Qed.

Lemma confined_with_defer {A : Type} (P : event -> bool) (d : M unit) (body : M A) :
  confined P d -> confined P body -> confined P (with_defer d body).
Proof.
  intros Hd Hb c. specialize (Hb c). unfold with_defer.
  destruct (body c) as [a c1 t1 | why c1 t1]; specialize (Hd c1);
    destruct (d c1) as [u c2 t2 | why2 c2 t2]; apply Forall_app; by split.
Qed.

Lemma confined_for_range {A : Type} (P : event -> bool) (l : list A)
    (body : A -> M unit) :
  (forall x, confined P (body x)) -> confined P (for_range l body).
Proof.
  intros Hb. induction l as [|x l IH]; simpl.
  - apply confined_ret.
  - apply confined_bind; [apply Hb | intros _; exact IH].
Qed.

Lemma confined_weaken {A : Type} (P Q : event -> bool) (m : M A) :
  (forall e, P e = true -> Q e = true) -> confined P m -> confined Q m.
Proof. intros HPQ Hm c. eapply Forall_impl; [apply Hm | exact HPQ]. Qed.

Ltac confined_cases :=
  repeat first
    [ apply confined_ret
    | apply confined_get
    | apply confined_put
    | apply confined_panic
    | apply confined_emit; reflexivity
    | match goal with
      | |- confined _ (bind _ _) => apply confined_bind; [| intros ?]
      | |- confined _ (with_defer _ _) => apply confined_with_defer
      | |- confined _ (for_range _ _) => apply confined_for_range; intros ?
      | |- confined _ (match ?x with _ => _ end) => destruct x
      | |- confined _ (if ?x then _ else _) => destruct x
      | |- confined _ (let '(_, _) := ?x in _) => destruct x
      end ].

Lemma teardown_writeLoop_event (e : event (Message := Message)) :
  teardown_event e = true -> writeLoop_event e = true.
Proof.
  intros He. unfold writeLoop_event. rewrite He, orb_true_r.
  destruct e as [| | | | | | |ch [er|]| | | | | |g]; try destruct g; reflexivity.
Qed.

Lemma teardown_readLoop_event (e : event (Message := Message)) :
  teardown_event e = true -> readLoop_event e = true.
Proof.
  intros He. unfold readLoop_event. rewrite He, orb_true_r.
  by destruct e.
Qed.

Lemma report_writeLoop_event (e : event (Message := Message)) :
  report_event e = true -> writeLoop_event e = true.
Proof.
  intros He. unfold writeLoop_event. rewrite He.
  destruct e as [| | | | | | |ch [er|]| | | | | |g]; try destruct g; reflexivity.
Qed.

Lemma report_readLoop_event (e : event (Message := Message)) :
  report_event e = true -> readLoop_event e = true.
Proof.
  intros He. unfold readLoop_event. rewrite He. by destruct e.
Qed.

Lemma confined_close : confined close_event (close (Message := Message) (T := T)).
Proof. unfold close, close_done. confined_cases. Qed.

Lemma confined_Close : confined close_event (Close (Message := Message) (T := T)).
Proof. unfold Close, close, close_done. confined_cases. Qed.

Lemma confined_handleConnectionError (err : option error) :
  confined teardown_event (handleConnectionError (Message := Message) (T := T) err).
Proof.
  unfold handleConnectionError, make_chan, close, close_done. confined_cases.
Qed.

Lemma confined_handleError (err : error) :
  confined report_event (handleError (Message := Message) (T := T) err).
Proof. unfold handleError. confined_cases. Qed.

Lemma confined_Send message w : confined Send_event (Send (T := T) message w).
Proof.
  unfold Send, message_Pack, make_chan, respMap_delete. confined_cases.
Qed.

Lemma confined_Reply message w : confined Reply_event (Reply (T := T) message w).
Proof. unfold Reply, message_Pack, make_chan. confined_cases. Qed.

Lemma confined_handleResponse (rawMessage : bytes) :
  confined handleResponse_event (handleResponse (T := T) rawMessage).
Proof. unfold handleResponse, handleError, respMap_load. confined_cases. Qed.

Lemma confined_writeLoop_request (req : request) :
  confined writeLoop_event (writeLoop_request (Message := Message) (T := T) req).
Proof.
  unfold writeLoop_request, respMap_store, transport_Write, handleError.
  confined_cases.
Qed.

Lemma confined_writeLoop (script : list write_select) :
  confined writeLoop_event (writeLoop (Message := Message) (T := T) script).
Proof.
  induction script as [|[req| |] rest IH]; cbn [writeLoop].
  - confined_cases.
  - apply confined_bind; [apply confined_writeLoop_request |].
    intros [e|]; [| exact IH].
    apply confined_bind; [| intros _; apply confined_ret].
    eapply confined_weaken; [| apply confined_handleConnectionError].
    apply teardown_writeLoop_event.
  - confined_cases; exact IH.
  - confined_cases.
Qed.

Lemma confined_readLoop (script : list read_step) :
  confined readLoop_event (readLoop (Message := Message) (T := T) script).
Proof.
  induction script as [|[raw|err|err] rest IH]; cbn [readLoop].
  - confined_cases.
  - confined_cases. exact IH.
  - apply confined_bind; [| intros _; apply confined_bind; [| intros _; apply confined_ret]].
    + eapply confined_weaken; [| apply confined_handleError].
      apply report_readLoop_event.
    + eapply confined_weaken; [| apply confined_handleConnectionError].
      apply teardown_readLoop_event.
  - apply confined_bind; [| intros _; apply confined_bind; [| intros _; apply confined_ret]].
    + eapply confined_weaken; [| apply confined_handleError].
      apply report_readLoop_event.
    + eapply confined_weaken; [| apply confined_handleConnectionError].
      apply teardown_readLoop_event.
Qed.

Lemma confined_readResponseLoop (script : list dispatch_select) :
  confined readResponseLoop_event
    (readResponseLoop (Message := Message) (T := T) script).
Proof.
  induction script as [|[raw| |] rest IH]; cbn [readResponseLoop];
    confined_cases; exact IH.
Qed.

Lemma confined_perform (k : call) :
  confined (footprint k) (perform (T := T) k).
Proof.
  destruct k; cbn [perform footprint].
  - apply confined_bind; [apply confined_Close | intros; apply confined_ret].
  - apply confined_handleConnectionError.
  - apply confined_bind; [apply confined_Send | intros; apply confined_ret].
  - apply confined_bind; [apply confined_Reply | intros; apply confined_ret].
  - apply confined_handleResponse.
  - apply confined_bind; [apply confined_writeLoop | intros; apply confined_ret].
  - apply confined_bind; [apply confined_readLoop | intros; apply confined_ret].
  - apply confined_bind; [apply confined_readResponseLoop | intros; apply confined_ret].
  - unfold SetStatus. confined_cases.
  - unfold SetOptions. confined_cases.
Qed.

Lemma lifetime_cons (k : call) (calls : list call) c :
  trace_of (lifetime (k :: calls) c) = trace_of (perform k c)
  \/ exists c1,
       trace_of (lifetime (k :: calls) c) =
         trace_of (perform k c) ++ trace_of (lifetime calls c1).
Proof.
  unfold lifetime. cbn [for_range].
  destruct (perform k c) as [[] c1 t1 | why c1 t1] eqn:Ek.
  - right. exists c1.
    by destruct (bind_Returns (perform k) (fun _ => for_range calls perform)
                   c tt c1 t1 Ek) as (_ & Ht & _).
  - left. by rewrite (bind_Panics _ _ c why c1 t1 Ek).
Qed.

Lemma confined_lifetime (calls : list call) c :
  Forall (fun e => exists k, k ∈ calls /\ footprint k e = true)
    (trace_of (lifetime (T := T) calls c)).
Proof.
  revert c. induction calls as [|k calls IH]; intros c; [constructor |].
  assert (Hk : Forall (fun e => exists k0, k0 ∈ k :: calls /\ footprint k0 e = true)
                 (trace_of (perform k c))).
  { eapply Forall_impl; [apply confined_perform |].
    intros e He. exists k. split; [left | exact He]. }
  destruct (lifetime_cons k calls c) as [-> | [c1 ->]]; [exact Hk |].
  apply Forall_app. split; [exact Hk |].
  eapply Forall_impl; [apply IH |].
  intros e (k0 & Hin & He). exists k0. split; [by right | exact He].
Qed.

(** X7.  Who does what.  Every event of a sequence of calls on a connection
    comes from one of the calls and is of the kind that call is made of; so
    the transport is written and the pending table is stored into by the
    writer alone, an entry is deleted by [Send] alone, the table is looked
    up and a reply is delivered by [handleResponse] alone, a request is
    enqueued by [Send] and [Reply] alone, and [done] and the transport are
    closed by [Close], by [handleConnectionError] and by the two loops that
    call it, and by no other call. *)
Theorem division_of_labour (calls : list call) c (e : event) :
  e ∈ trace_of (lifetime calls c) ->
  exists k,
    k ∈ calls /\ footprint k e = true
    /\ (is_ConnWrite e = true \/ is_Store e = true ->
        exists script, k = CallWriteLoop script)
    /\ (is_Delete e = true -> exists message w, k = CallSend message w)
    /\ (is_Lookup e = true \/ is_SendReply e = true ->
        exists rawMessage, k = CallHandleResponse rawMessage)
    /\ (is_Enqueue e = true ->
        (exists message w, k = CallSend message w)
        \/ (exists message w, k = CallReply message w))
    /\ (is_CloseDone e = true \/ is_ConnClose e = true ->
        k = CallClose
        \/ (exists err, k = CallHandleConnectionError err)
        \/ (exists script, k = CallWriteLoop script)
        \/ (exists script, k = CallReadLoop script)).
Proof.
  intros He.
  pose proof (confined_lifetime calls c) as Hall.
  rewrite Forall_forall in Hall.
  destruct (Hall e He) as (k & Hin & Hk).
  exists k. split; [exact Hin |]. split; [exact Hk |].
  destruct k; cbn [footprint] in Hk;
    (split; [intros [H | H] |
     split; [intros H |
     split; [intros [H | H] | split; [intros H | intros [H | H]]]]]);
    eauto 6;
    exfalso; destruct e as [| | | | | | |ch [er|]| | | | | |g];
    try destruct g; simpl in H, Hk; discriminate.
Qed.

(** ** [Reply] past the pre-flight steps *)

Lemma Reply_pack_panics message w c :
  closing c = false ->
  Pack_ptr message = None ->
  Reply message w c =
    Panics "invalid memory address or nil pointer dereference" c
      [EvWgAdd; EvWgDone].
Proof.
  intros Hc HP. unfold Reply, with_defer, bind, emit, get, message_Pack. simpl.
  rewrite Hc, HP. reflexivity.
Qed.

Lemma Reply_enqueues message w c (packed hb : bytes) (n : Z) :
  closing c = false ->
  Pack_ptr message = Some (packed, None) ->
  writeMessageLength c (Z.of_nat (length packed)) = (hb, (n, None)) ->
  Reply message w c =
    Returns
      match w with
      | ReplyErr err => err
      | ReplyTimeout => Some ErrSendTimeout
      end
      (set_next_chan (S (next_chan c)) c)
      [EvWgAdd; EvEnqueue (mkRequest (hb ++ packed) "" None (next_chan c));
       EvWgDone].
Proof.
  intros Hc HP HW. unfold Reply, with_defer, bind, emit, get, message_Pack.
  simpl. rewrite Hc, HP. simpl. rewrite HW. simpl.
  destruct w as [err|]; reflexivity.
Qed.

(** X8.  A [Reply] that got past packing and framing, whether or not the
    message has a STAN: it enqueues one request, the frame (header, then the
    packed message) with no reply channel and no correlator, and returns
    what arrives on the request's error channel, or [ErrSendTimeout] on the
    timer; it never touches the pending table and does not tear the
    connection down.  The writer, for this request, registers nothing: it
    writes the frame and, when the write succeeds, sends [nil] on that same
    error channel, which is what ends the wait of [Reply] without error. *)
Theorem Reply_enqueues_unregistered message w c (packed hb : bytes) (n : Z) :
  closing c = false ->
  Pack_ptr message = Some (packed, None) ->
  writeMessageLength c (Z.of_nat (length packed)) = (hb, (n, None)) ->
  let req := mkRequest (hb ++ packed) "" None (next_chan c) in
  let o := Reply message w c in
  enqueued (trace_of o) = [req]
  /\ returned o =
       Some match w with
            | ReplyErr err => err
            | ReplyTimeout => Some ErrSendTimeout
            end
  /\ table_accesses (trace_of o) = []
  /\ respMap (state_of o) = respMap c
  /\ closing (state_of o) = false
  /\ done_ch (state_of o) = done_ch c
  /\ conn (state_of o) = conn c
  /\ (forall c0 (t : T),
        conn c0 = Some t ->
        (conn_Write t (hb ++ packed)).2.2 = None ->
        exists c',
          writeLoop_request req c0 =
            Returns None c'
              [EvConnWrite (hb ++ packed); EvSendErr (next_chan c) None]
          /\ respMap c' = respMap c0).
Proof.
  intros Hc HP HW req o. subst o.
  rewrite (Reply_enqueues message w c packed hb n Hc HP HW).
  cbn [trace_of state_of returned respMap closing done_ch conn set_next_chan].
  do 4 (split; [reflexivity |]). split; [exact Hc |].
  do 2 (split; [reflexivity |]).
  intros c0 t Hconn Hw.
  rewrite (writeLoop_request_no_slot req c0 t Hconn eq_refl).
  cbn [req_rawMessage req_errCh req]. rewrite Hw.
  eexists. split; reflexivity.
Qed.

(** ** The guard of the teardown *)

Lemma handleConnectionError_sets_closing (e : error) c :
  closing (state_of (handleConnectionError (Some e) c)) = true.
Proof.
  destruct (closing c) eqn:Hc.
  - rewrite handleConnectionError_skips by auto. exact Hc.
  - rewrite handleConnectionError_state by assumption.
    by destruct (close_keeps (torn c)) as (_ & -> & _).
Qed.

(** X9.  The teardown runs once, whichever path comes first.
    [handleConnectionError] does nothing for a [nil] error and nothing on a
    connection that is closing: no slot is notified, nothing is closed, no
    handler is started.  So after a [Close], and after a
    [handleConnectionError] for an error, a later [handleConnectionError]
    and a later [Close] leave the connection as it is and the trace empty,
    and [Close] returns [nil]. *)
Theorem teardown_runs_once c (err : option error) (e : error) :
  handleConnectionError None c = Returns tt c []
  /\ (closing c = true -> handleConnectionError err c = Returns tt c [])
  /\ (let c1 := state_of (Close c) in
      handleConnectionError err c1 = Returns tt c1 [])
  /\ (let c1 := state_of (handleConnectionError (Some e) c) in
      handleConnectionError err c1 = Returns tt c1 []
      /\ Close c1 = Returns None c1 []).
Proof.
  split; [apply handleConnectionError_skips; by left |].
  split; [intros Hc; apply handleConnectionError_skips; by right |].
  split.
  - intros c1. apply handleConnectionError_skips. right.
    apply Close_sets_closing.
  - intros c1.
    assert (Hc1 : closing c1 = true) by apply handleConnectionError_sets_closing.
    split; [apply handleConnectionError_skips; by right |].
    rewrite Close_eq, Hc1. reflexivity.
Qed.

(** ** The reader *)

Lemma omap_confined {B : Type} (P : event (Message := Message) -> bool)
    (f : event -> option B) tr :
  (forall x, P x = true -> f x = None) ->
  Forall (fun x => P x = true) tr ->
  omap f tr = [].
Proof.
  intros Hf. induction 1 as [|x l Hx _ IH]; [reflexivity |].
  cbn [omap list_omap]. rewrite (Hf x Hx). exact IH.
Qed.

Lemma handleConnectionError_returns (err : option error) c :
  guarded c ->
  returned (handleConnectionError err c) = Some tt.
Proof.
  intros Hg. destruct err as [e|]; [destruct (closing c) eqn:Hc |].
  - rewrite handleConnectionError_skips by auto. reflexivity.
  - destruct (handleConnectionError_fresh e c Hc (Hg Hc)) as (c1 & -> & _).
    reflexivity.
  - rewrite handleConnectionError_skips by auto. reflexivity.
Qed.

Lemma readLoop_frames (frames : list bytes) (rest : list read_step) c :
  trace_of (readLoop ((ReadFrame <$> frames) ++ rest) c) =
    (EvSendRaw <$> frames) ++ trace_of (readLoop rest c)
  /\ state_of (readLoop ((ReadFrame <$> frames) ++ rest) c) =
       state_of (readLoop rest c)
  /\ returned (readLoop ((ReadFrame <$> frames) ++ rest) c) =
       returned (readLoop rest c).
Proof.
  induction frames as [|raw frames IH]; [by repeat split |].
  assert (Hstep : forall s,
    readLoop (ReadFrame raw :: s) c =
      match readLoop s c with
      | Returns r c1 t1 => Returns r c1 (EvSendRaw raw :: t1)
      | Panics why c1 t1 => Panics why c1 (EvSendRaw raw :: t1)
      end) by reflexivity.
  rewrite fmap_cons. cbn [app]. rewrite Hstep.
  destruct IH as (IH1 & IH2 & IH3).
  destruct (readLoop ((ReadFrame <$> frames) ++ rest) c) as [r c1 t1 | why c1 t1];
    cbn [trace_of state_of returned] in *; subst; by repeat split.
Qed.

Lemma bind_eq {A B : Type} (m : M A) (k : A -> M B) c a c1 t1 :
  m c = Returns a c1 t1 ->
  bind m k c =
    match k a c1 with
    | Returns b c2 t2 => Returns b c2 (t1 ++ t2)
    | Panics why c2 t2 => Panics why c2 (t1 ++ t2)
    end.
Proof. intros Hm. unfold bind. rewrite Hm. reflexivity. Qed.

Lemma handleError_eq (err : error) c :
  handleError err c =
    Returns tt c
      match ErrorHandler (Opts c) with
      | Some h => [EvGo (GoErrorHandler h err)]
      | None => []
      end.
Proof.
  unfold handleError, bind, get, emit, ret.
  destruct (ErrorHandler (Opts c)); reflexivity.
Qed.

Lemma readLoop_failure (err : error) (text : string) c :
  let m :=
    bind (handleError (Message := Message) (T := T) (SafeError err text))
      (fun _ => bind (handleConnectionError (Some err))
                  (fun _ => ret LoopReturned)) in
  trace_of (m c) =
    trace_of (handleError (SafeError err text) c)
    ++ trace_of (handleConnectionError (Some err) c)
  /\ state_of (m c) = state_of (handleConnectionError (Some err) c)
  /\ (guarded c -> returned (m c) = Some LoopReturned).
Proof.
  intros m. subst m.
  rewrite (bind_eq _ _ c tt c _ (handleError_eq _ c)).
  rewrite handleError_eq. cbn [trace_of].
  pose proof (handleConnectionError_returns (Some err) c) as Hret.
  destruct (handleConnectionError (Some err) c) as [[] c1 t1 | why c1 t1] eqn:Eh.
  - rewrite (bind_eq _ _ c tt c1 t1 Eh). unfold ret.
    cbn [trace_of state_of returned]. rewrite app_nil_r. by repeat split.
  - rewrite (bind_Panics _ _ c why c1 t1 Eh).
    cbn [trace_of state_of returned] in *. repeat split.
    intros Hg. specialize (Hret Hg). discriminate.
Qed.

(** X10.  The reader hands the frames it reads to the dispatcher in the
    order it read them, and leaves the connection alone while it does.  The
    first read that fails, on the length or on the body, ends it: the
    frames before were handed over, none after is; the error goes to
    [handleError] wrapped in a [SafeError], and then to
    [handleConnectionError], so the connection is closing when the loop
    ends; on a connection whose [done] is still open unless it is closing,
    the loop returns, and with [done] closed if it began the teardown. *)
Theorem readLoop_hands_over_until_failure (frames : list bytes)
    (failure : read_step) (rest : list read_step) (err : error) c :
  failure = ReadLengthFails err \/ failure = ReadBodyFails err ->
  let o := readLoop ((ReadFrame <$> frames) ++ failure :: rest) c in
  readLoop (ReadFrame <$> frames) c = Returns LoopWaiting c (EvSendRaw <$> frames)
  /\ handed_over (trace_of o) = frames
  /\ (exists text,
        trace_of o =
          (EvSendRaw <$> frames)
          ++ trace_of (handleError (SafeError err text) c)
          ++ trace_of (handleConnectionError (Some err) c)
        /\ errors_Is (SafeError err text) err = true)
  /\ state_of o = state_of (handleConnectionError (Some err) c)
  /\ closing (state_of o) = true
  /\ (guarded c ->
      returned o = Some LoopReturned
      /\ (closing c = false -> done_ch (state_of o) = Closed)).
Proof.
  intros Hf o.
  assert (Hframes : forall l : list bytes,
            handed_over (EvSendRaw (Message := Message) <$> l) = l).
  { induction l as [|x l IH]; [reflexivity |].
    rewrite fmap_cons. unfold handed_over in *. cbn [omap list_omap].
    by rewrite IH. }
  split.
  { pose proof (readLoop_frames frames [] c) as (H1 & H2 & H3).
    rewrite app_nil_r in *. cbn [readLoop] in *. unfold ret in *.
    destruct (readLoop (ReadFrame <$> frames) c) as [r c1 t1 | why c1 t1];
      cbn [trace_of state_of returned] in *; [| discriminate].
    injection H3 as ->. subst. by rewrite app_nil_r. }
  assert (Hshape : exists text,
    trace_of (readLoop (failure :: rest) c) =
      trace_of (handleError (SafeError err text) c)
      ++ trace_of (handleConnectionError (Some err) c)
    /\ state_of (readLoop (failure :: rest) c) =
         state_of (handleConnectionError (Some err) c)
    /\ (guarded c -> returned (readLoop (failure :: rest) c) = Some LoopReturned)).
  { destruct Hf as [-> | ->]; eexists; cbn [readLoop]; apply readLoop_failure. }
  destruct Hshape as (text & Ht & Hs & Hr).
  destruct (readLoop_frames frames (failure :: rest) c) as (F1 & F2 & F3).
  fold o in F1, F2, F3.
  assert (Hno : handed_over
                  (trace_of (handleError (SafeError err text) c)
                   ++ trace_of (handleConnectionError (Some err) c)) = []).
  { unfold handed_over. rewrite omap_app.
    rewrite (omap_confined report_event);
      [| by intros [] | apply confined_handleError].
    rewrite (omap_confined teardown_event);
      [reflexivity | by intros [] | apply confined_handleConnectionError]. }
  split.
  { rewrite F1, Ht. unfold handed_over in *. rewrite omap_app.
    rewrite Hno, app_nil_r. apply Hframes. }
  split.
  { exists text. split; [by rewrite F1, Ht |].
    rewrite (errors_Is_through (SafeError err text) err err) by reflexivity.
    rewrite errors_Is_refl. apply orb_true_r. }
  split; [by rewrite F2, Hs |].
  split; [rewrite F2, Hs; apply handleConnectionError_sets_closing |].
  intros Hg. split; [rewrite F3; by apply Hr |].
  intros Hc. rewrite F2, Hs.
  by destruct (handleConnectionError_fresh err c Hc (Hg Hc)) as (c1 & -> & Hd & _).
Qed.

(** ** The writer on a transport that takes every frame *)

Lemma writeLoop_request_ok (req : request) c (t t1 : T) (n : Z) :
  conn c = Some t ->
  conn_Write t (req_rawMessage req) = (t1, (n, None)) ->
  exists c1 tr1,
    writeLoop_request req c = Returns None c1 tr1
    /\ written tr1 = [req_rawMessage req]
    /\ err_sends tr1 = acknowledged [req]
    /\ started tr1 = []
    /\ count is_CloseDone tr1 = 0%nat
    /\ count is_ConnClose tr1 = 0%nat
    /\ conn c1 = Some t1
    /\ respMap c1 = registered [req] (respMap c)
    /\ closing c1 = closing c
    /\ done_ch c1 = done_ch c
    /\ Opts c1 = Opts c.
Proof.
  intros Hconn Hw. unfold registered, acknowledged. cbn [foldl omap list_omap].
  destruct (req_replyCh req) as [replyCh|] eqn:Hr.
  - rewrite (writeLoop_request_slot req replyCh c t Hconn Hr), Hw.
    eexists _, _. split; [reflexivity |]. by repeat split.
  - rewrite (writeLoop_request_no_slot req c t Hconn Hr), Hw.
    eexists _, _. split; [reflexivity |]. by repeat split.
Qed.

Lemma omap_app_events {B : Type} (f : event (Message := Message) -> option B)
    tr1 tr2 :
  omap f (tr1 ++ tr2) = omap f tr1 ++ omap f tr2.
Proof. apply omap_app. Qed.

Lemma writeLoop_idle (rest : list write_select) c :
  writeLoop (SelectIdle :: rest) c =
    match writeLoop rest c with
    | Returns r c1 t1 =>
        Returns r c1
          (match PingHandler (Opts c) with
           | Some h => [EvGo (GoPingHandler h)]
           | None => []
           end ++ t1)
    | Panics why c1 t1 =>
        Panics why c1
          (match PingHandler (Opts c) with
           | Some h => [EvGo (GoPingHandler h)]
           | None => []
           end ++ t1)
    end.
Proof.
  cbn [writeLoop]. unfold bind, get, emit, ret.
  destruct (PingHandler (Opts c)); destruct (writeLoop rest c); reflexivity.
Qed.

(** X11.  The writer takes the requests in the order its [select] hands
    them over and, as long as every write succeeds, writes their frames to
    the transport in that order, one write per request, and keeps waiting:
    it does not return and tears nothing down.  Along the way it stores the
    slot of every request that carries a reply channel, answers [nil] on the
    error channel of every request that carries none, and starts the
    [PingHandler], when one is configured, each time the idle timer fires. *)
Theorem writeLoop_writes_in_order (script : list write_select) c (t t' : T) :
  conn c = Some t ->
  Forall (fun s => s <> SelectDone) script ->
  writes_succeed t (req_rawMessage <$> selected script) = Some t' ->
  exists c' tr,
    writeLoop script c = Returns LoopWaiting c' tr
    /\ written tr = req_rawMessage <$> selected script
    /\ conn c' = Some t'
    /\ respMap c' = registered (selected script) (respMap c)
    /\ err_sends tr = acknowledged (selected script)
    /\ started tr =
         match PingHandler (Opts c) with
         | Some h => replicate (idles script) (GoPingHandler h)
         | None => []
         end
    /\ count is_CloseDone tr = 0%nat
    /\ count is_ConnClose tr = 0%nat
    /\ closing c' = closing c
    /\ done_ch c' = done_ch c.
Proof.
  revert c t. induction script as [|s script IH]; intros c t Hconn Hall Hw.
  - injection Hw as <-. exists c, []. repeat split; try assumption.
    by destruct (PingHandler (Opts c)).
  - apply Forall_cons in Hall as [Hs Hall].
    destruct s as [req| |]; [| | contradiction].
    + change (selected (SelectRequest req :: script))
        with (req :: selected script) in *.
      rewrite fmap_cons in Hw. cbn [writes_succeed] in Hw.
      destruct (conn_Write t (req_rawMessage req)) as [t1 [n [e|]]] eqn:Ew;
        [discriminate |].
      destruct (writeLoop_request_ok req c t t1 n Hconn Ew)
        as (c1 & tr1 & Hrun & W1 & E1 & S1 & D1 & C1 & Hconn1 & Hmap1 & Hcl1
            & Hd1 & Ho1).
      destruct (IH c1 t1 Hconn1 Hall Hw)
        as (c' & tr & Hloop & W & Hc' & Hmap & E & S & D & C & Hcl & Hd).
      exists c', (tr1 ++ tr). split.
      { cbn [writeLoop]. rewrite (bind_eq _ _ c None c1 tr1 Hrun).
        cbv beta iota. rewrite Hloop. reflexivity. }
      unfold written, err_sends, started in *.
      rewrite !omap_app_events, !count_app, W1, W, E1, E, S1, S, D1, D, C1, C.
      rewrite Hc', Hmap, Hmap1, Hcl, Hd, Hcl1, Hd1, Ho1, fmap_cons.
      do 3 (split; [reflexivity |]).
      split; [unfold acknowledged; cbn [omap list_omap];
              by destruct (req_replyCh req) |].
      by repeat split.
    + change (selected (SelectIdle :: script)) with (selected script) in *.
      destruct (IH c t Hconn Hall Hw)
        as (c' & tr & Hloop & W & Hc' & Hmap & E & S & D & C & Hcl & Hd).
      change (idles (SelectIdle :: script)) with (Datatypes.S (idles script)).
      rewrite writeLoop_idle, Hloop. eexists _, _. split; [reflexivity |].
      unfold written, err_sends, started in *.
      rewrite !omap_app_events, !count_app, W, E, S, D, C.
      destruct (PingHandler (Opts c)) as [h|]; by repeat split.
Qed.

(** ** A slot from the writer to the dispatcher *)

Lemma handleResponse_response_eq (rawMessage : bytes) (m : Message)
    (stan : string) c :
  spec c rawMessage = (m, None) ->
  isResponse (Some m) = true ->
  requestID (Some m) = (stan, None) ->
  handleResponse rawMessage c =
    Returns tt c
      (EvLookup stan
       :: match respMap c !! stan with
          | Some resp => [EvSendReply (resp_replyCh resp) m]
          | None =>
              match InboundMessageHandler (Opts c) with
              | Some h => [EvGo (GoInboundMessageHandler h m)]
              | None =>
                  match ErrorHandler (Opts c) with
                  | Some h =>
                      [EvGo (GoErrorHandler h
                               (fmt_Errorf ("can't find request for ID: " +:+ stan)))]
                  | None => []
                  end
              end
          end).
Proof.
  intros HU Hr HI.
  unfold handleResponse, respMap_load, handleError, bind, get, emit, ret.
  rewrite HU, Hr, HI. cbn [fst snd].
  destruct (respMap c !! stan) as [resp|]; [reflexivity |].
  destruct (InboundMessageHandler (Opts c)); [reflexivity |].
  destruct (ErrorHandler (Opts c)); reflexivity.
Qed.

(** X12.  The slot the writer stores for a request is the one the
    dispatcher finds: once the writer has handled a request that carries a
    reply channel, a response whose correlator is the request's is sent on
    that reply channel, whatever was registered under the correlator
    before; the other entries of the table are as they were.  Once the entry
    is deleted, as [Send] does before it returns, the same response is sent
    on no reply channel any more: it goes to the [InboundMessageHandler],
    or with none configured to [handleError]. *)
Theorem slot_round_trip (req : request) (replyCh : chan) (rawMessage : bytes)
    (m : Message) c (t : T) :
  conn c = Some t ->
  req_replyCh req = Some replyCh ->
  spec c rawMessage = (m, None) ->
  isResponse (Some m) = true ->
  requestID (Some m) = (req_requestID req, None) ->
  let c1 := state_of (writeLoop_request req c) in
  let c2 := state_of (respMap_delete (req_requestID req) c1) in
  handleResponse rawMessage c1 =
    Returns tt c1 [EvLookup (req_requestID req); EvSendReply replyCh m]
  /\ (forall key, key <> req_requestID req ->
        respMap c1 !! key = respMap c !! key)
  /\ replies (trace_of (handleResponse rawMessage c2)) = []
  /\ started (trace_of (handleResponse rawMessage c2)) =
       match InboundMessageHandler (Opts c), ErrorHandler (Opts c) with
       | Some h, _ => [GoInboundMessageHandler h m]
       | None, Some h =>
           [GoErrorHandler h
              (fmt_Errorf ("can't find request for ID: " +:+ req_requestID req))]
       | None, None => []
       end.
Proof.
  intros Hconn Hr HU Hresp HI c1 c2.
  assert (Hc1 : spec c1 = spec c /\ Opts c1 = Opts c
                /\ respMap c1 =
                     <[req_requestID req := mkResponse replyCh (req_errCh req)]>
                       (respMap c)).
  { subst c1. rewrite (writeLoop_request_slot req replyCh c t Hconn Hr).
    by repeat split. }
  destruct Hc1 as (Hs1 & Ho1 & Hm1).
  assert (Hc2 : spec c2 = spec c /\ Opts c2 = Opts c
                /\ respMap c2 = delete (req_requestID req) (respMap c1)).
  { subst c2. unfold respMap_delete, bind, get, put, emit.
    cbn [state_of spec Opts respMap set_respMap]. by repeat split. }
  destruct Hc2 as (Hs2 & Ho2 & Hm2).
  split.
  { rewrite (handleResponse_response_eq rawMessage m (req_requestID req) c1)
      by (rewrite ?Hs1; assumption).
    rewrite Hm1, lookup_insert_eq. reflexivity. }
  split.
  { intros key Hk. rewrite Hm1. by apply lookup_insert_ne. }
  rewrite (handleResponse_response_eq rawMessage m (req_requestID req) c2)
    by (rewrite ?Hs2; assumption).
  rewrite Hm2, lookup_delete_eq, Ho2. cbn [trace_of].
  destruct (InboundMessageHandler (Opts c)); [by split |].
  destruct (ErrorHandler (Opts c)); by split.
Qed.

Ltac no_reply :=
  eexists; split; [reflexivity |];
  split; [cbn; lia |]; split; [cbn; lia |];
  intros ? ? Hin; cbn in Hin; by apply elem_of_nil in Hin.

(** X13.  Whatever the frame and whatever the connection holds,
    [handleResponse] returns and leaves the connection exactly as it was.
    It does at most one thing with the frame: one message on one reply
    channel, or one handler started, never both and never two; it looks the
    pending table up at most once, and only for its own goroutine's
    message. *)
Theorem handleResponse_delivers_once (rawMessage : bytes) c :
  exists tr,
    handleResponse rawMessage c = Returns tt c tr
    /\ (length (replies tr) + length (started tr) <= 1)%nat
    /\ (length (table_accesses tr) <= 1)%nat
    /\ (forall ch m, (ch, m) ∈ replies tr ->
          spec c rawMessage = (m, None)
          /\ exists stan resp,
               requestID (Some m) = (stan, None)
               /\ respMap c !! stan = Some resp
               /\ resp_replyCh resp = ch).
Proof.
  unfold handleResponse, respMap_load, handleError, bind, get, emit, ret.
  destruct (spec c rawMessage) as [m [e|]] eqn:HU.
  { destruct (ErrorHandler (Opts c)); no_reply. }
  destruct (isResponse (Some m)).
  - destruct (requestID (Some m)) as [stan [e|]] eqn:HI; cbn [fst snd].
    { destruct (ErrorHandler (Opts c)); no_reply. }
    destruct (respMap c !! stan) as [resp|] eqn:Hl.
    + eexists. split; [reflexivity |].
      split; [cbn; lia |]. split; [cbn; lia |].
      intros ch m0 Hin. cbn in Hin.
      apply list_elem_of_singleton in Hin. injection Hin as -> ->.
      split; [reflexivity |]. exists stan, resp. by repeat split.
    + destruct (InboundMessageHandler (Opts c));
        [| destruct (ErrorHandler (Opts c))]; no_reply.
  - destruct (InboundMessageHandler (Opts c)); no_reply.
Qed.

(** ** The barrier *)

Lemma with_barrier {A : Type} (body : M A) c :
  trace_of (bind (emit EvWgAdd) (fun _ => with_defer (emit EvWgDone) body) c) =
    EvWgAdd :: trace_of (body c) ++ [EvWgDone].
Proof. unfold bind, emit, with_defer. destruct (body c); reflexivity. Qed.

Lemma Send_trace message w c :
  exists mid,
    trace_of (Send message w c) = EvWgAdd :: mid ++ [EvWgDone]
    /\ Forall (fun e => off_barrier e = true) mid.
Proof.
  unfold Send. rewrite with_barrier. eexists. split; [reflexivity |].
  match goal with
  | |- Forall _ (trace_of (?b c)) => enough (H : confined off_barrier b) by apply H
  end.
  unfold message_Pack, make_chan, respMap_delete. confined_cases.
Qed.

Lemma Reply_trace message w c :
  exists mid,
    trace_of (Reply message w c) = EvWgAdd :: mid ++ [EvWgDone]
    /\ Forall (fun e => off_barrier e = true) mid.
Proof.
  unfold Reply. rewrite with_barrier. eexists. split; [reflexivity |].
  match goal with
  | |- Forall _ (trace_of (?b c)) => enough (H : confined off_barrier b) by apply H
  end.
  unfold message_Pack, make_chan. confined_cases.
Qed.

Lemma count_off_barrier tr :
  Forall (fun e => off_barrier e = true) tr ->
  count is_WgAdd tr = 0%nat /\ count is_WgDone tr = 0%nat.
Proof.
  intros Hoff. split; apply count_zero; (eapply Forall_impl; [exact Hoff |]);
    intros e; unfold off_barrier; by destruct e.
Qed.

Lemma count_take (P : event -> bool) (n : nat) tr :
  (count P (take n tr) <= count P tr)%nat.
Proof.
  rewrite <- (take_drop n tr) at 2. rewrite count_app. lia.
Qed.

Lemma balanced_off tr :
  Forall (fun e => off_barrier e = true) tr -> balanced tr.
Proof.
  intros Hoff. destruct (count_off_barrier tr Hoff) as [Ha Hd].
  split; [by rewrite Ha, Hd |].
  intros n. pose proof (count_take is_WgDone n tr). lia.
Qed.

Lemma balanced_framed (mid : list (event (Message := Message))) :
  Forall (fun e => off_barrier e = true) mid ->
  balanced (EvWgAdd :: mid ++ [EvWgDone]).
Proof.
  intros Hoff. destruct (count_off_barrier mid Hoff) as [Ha Hd].
  assert (Hda : count is_WgDone (mid ++ [EvWgDone]) = 1%nat)
    by (rewrite count_app, Hd; reflexivity).
  split.
  - change (EvWgAdd :: mid ++ [EvWgDone]) with ([EvWgAdd] ++ mid ++ [EvWgDone]).
    rewrite !count_app, Ha, Hd. reflexivity.
  - intros [|n]; [cbn; lia |]. cbn [take].
    change (EvWgAdd :: take n (mid ++ [EvWgDone]))
      with ([EvWgAdd] ++ take n (mid ++ [EvWgDone])).
    rewrite !count_app.
    pose proof (count_take is_WgDone n (mid ++ [EvWgDone])) as Hle.
    change (count is_WgDone [EvWgAdd]) with 0%nat.
    change (count is_WgAdd [EvWgAdd]) with 1%nat.
    lia.
Qed.

Lemma balanced_app tr1 tr2 :
  balanced tr1 -> balanced tr2 -> balanced (tr1 ++ tr2).
Proof.
  intros [E1 P1] [E2 P2]. split.
  - rewrite !count_app. lia.
  - intros n. rewrite take_app, !count_app.
    specialize (P1 n). specialize (P2 (n - length tr1)%nat). lia.
Qed.

Lemma trace_of_bind_ret {A : Type} (m : M A) c :
  trace_of (bind m (fun _ => ret tt) c) = trace_of (m c).
Proof.
  unfold bind, ret. destruct (m c); cbn [trace_of]; [apply app_nil_r | reflexivity].
Qed.

Lemma balanced_perform (k : call) c : balanced (trace_of (perform k c)).
Proof.
  assert (Hother : (forall e, footprint k e = true -> off_barrier e = true) ->
                   balanced (trace_of (perform k c))).
  { intros Himp. apply balanced_off.
    eapply Forall_impl; [apply confined_perform | exact Himp]. }
  destruct k; cbn [perform];
    try (apply Hother; intros e; cbn [footprint];
         destruct e as [| | | | | | |ch [er|]| | | | | |g]; try destruct g;
         by try destruct er).
  - rewrite trace_of_bind_ret.
    destruct (Send_trace message w c) as (mid & -> & Hoff).
    by apply balanced_framed.
  - rewrite trace_of_bind_ret.
    destruct (Reply_trace message w c) as (mid & -> & Hoff).
    by apply balanced_framed.
Qed.

Lemma balanced_lifetime (calls : list call) c :
  balanced (trace_of (lifetime calls c)).
Proof.
  revert c. induction calls as [|k calls IH]; intros c.
  - apply balanced_off. constructor.
  - destruct (lifetime_cons k calls c) as [-> | [c1 ->]].
    + apply balanced_perform.
    + apply balanced_app; [apply balanced_perform | apply IH].
Qed.

(** X14.  The barrier is balanced.  [Send] and [Reply] count it up as their
    first step and down as their last, on every path, the panic of [Pack] on
    a [nil] message included, and touch it nowhere in between; no other call
    counts it up or down.  So over any sequence of calls it is counted down
    exactly as often as it was counted up, and never below zero: the wait
    of a teardown that follows is not held up by a call that has ended. *)
Theorem barrier_balanced (calls : list call) message (ws : send_wait)
    (wr : reply_wait) c :
  balanced (trace_of (lifetime calls c))
  /\ (exists mid,
        trace_of (Send message ws c) = EvWgAdd :: mid ++ [EvWgDone]
        /\ count is_WgAdd mid = 0%nat /\ count is_WgDone mid = 0%nat)
  /\ (exists mid,
        trace_of (Reply message wr c) = EvWgAdd :: mid ++ [EvWgDone]
        /\ count is_WgAdd mid = 0%nat /\ count is_WgDone mid = 0%nat).
Proof.
  split; [apply balanced_lifetime |]. split.
  - destruct (Send_trace message ws c) as (mid & Ht & Hoff).
    exists mid. split; [exact Ht | by apply count_off_barrier].
  - destruct (Reply_trace message wr c) as (mid & Ht & Hoff).
    exists mid. split; [exact Ht | by apply count_off_barrier].
Qed.

(** ** What the engine leaves of the connection *)

Lemma same_settings_refl c : same_settings c c.
Proof. unfold same_settings. by repeat split. Qed.

Lemma same_settings_trans c1 c2 c3 :
  same_settings c1 c2 -> same_settings c2 c3 -> same_settings c1 c3.
Proof.
  unfold same_settings.
  intros (A1 & A2 & A3 & A4 & A5 & A6 & A7 & A8 & A9)
         (B1 & B2 & B3 & B4 & B5 & B6 & B7 & B8 & B9).
  rewrite B1, B2, B3, B4, B5, B6, A1, A2, A3, A4, A5, A6.
  repeat split; auto; lia.
Qed.

Lemma steady_ret {A : Type} (a : A) : steady (ret (Message := Message) (T := T) a).
Proof. intros c. apply same_settings_refl. Qed.

Lemma steady_get : steady (get (Message := Message) (T := T)).
Proof. intros c. apply same_settings_refl. Qed.

Lemma steady_emit (e : event) : steady (emit (Message := Message) (T := T) e).
Proof. intros c. apply same_settings_refl. Qed.

Lemma steady_panic {A : Type} (why : string) :
  steady (panic (Message := Message) (T := T) (A := A) why).
Proof. intros c. apply same_settings_refl. Qed.

Lemma steady_bind {A B : Type} (m : M A) (k : A -> M B) :
  steady m -> (forall a, steady (k a)) -> steady (bind m k).
Proof.
  intros Hm Hk c. specialize (Hm c). unfold bind.
  destruct (m c) as [a c1 t1 | why c1 t1]; [| exact Hm].
  specialize (Hk a c1). cbn [state_of] in Hm.
  destruct (k a c1) as [b c2 t2 | why c2 t2];
    eapply same_settings_trans; eauto.
Qed.

Lemma steady_with_defer {A : Type} (d : M unit) (body : M A) :
  steady d -> steady body -> steady (with_defer d body).
Proof.
  intros Hd Hb c. specialize (Hb c). unfold with_defer.
  destruct (body c) as [a c1 t1 | why c1 t1]; specialize (Hd c1);
    cbn [state_of] in Hb;
    destruct (d c1) as [u c2 t2 | why2 c2 t2];
    eapply same_settings_trans; eauto.
Qed.

Lemma steady_for_range {A : Type} (l : list A) (body : A -> M unit) :
  (forall x, steady (body x)) -> steady (for_range l body).
Proof.
  intros Hb. induction l as [|x l IH]; simpl.
  - apply steady_ret.
  - apply steady_bind; [apply Hb | intros _; exact IH].
Qed.

Ltac steady_step :=
  intros c;
  repeat first
    [ progress (cbv beta iota delta [bind get put ret emit panic state_of])
    | progress simpl ];
  unfold same_settings; simpl; repeat split; auto.

Lemma steady_make_chan : steady (make_chan (Message := Message) (T := T)).
Proof. unfold make_chan. steady_step. Qed.

Lemma steady_respMap_store (key : string) (r : response) :
  steady (respMap_store (Message := Message) (T := T) key r).
Proof. unfold respMap_store. steady_step. Qed.

Lemma steady_respMap_load (key : string) :
  steady (respMap_load (Message := Message) (T := T) key).
Proof. unfold respMap_load. steady_step. Qed.

Lemma steady_respMap_delete (key : string) :
  steady (respMap_delete (Message := Message) (T := T) key).
Proof. unfold respMap_delete. steady_step. Qed.

Lemma steady_message_Pack message : steady (message_Pack (T := T) message).
Proof.
  unfold message_Pack.
  destruct (Pack_ptr message); [apply steady_ret | apply steady_panic].
Qed.

Lemma steady_transport_Write (raw : bytes) :
  steady (transport_Write (Message := Message) (T := T) raw).
Proof.
  intros c. unfold transport_Write, bind, get, put, emit, ret, panic.
  destruct (conn c) as [t|] eqn:Hconn;
    [destruct (conn_Write t raw) as [t' [n err]] |];
    unfold same_settings; simpl; rewrite ?Hconn; repeat split; auto.
Qed.

Lemma steady_handleError (err : error) :
  steady (handleError (Message := Message) (T := T) err).
Proof. intros c. rewrite handleError_eq. apply same_settings_refl. Qed.

Lemma steady_close : steady (close (Message := Message) (T := T)).
Proof.
  intros c. rewrite close_eq.
  destruct (done_ch c) eqn:Hd; [| apply same_settings_refl].
  destruct (conn c) as [t|] eqn:Hconn;
    unfold same_settings; simpl; rewrite ?Hconn, ?Hd; repeat split; auto;
    discriminate.
Qed.

Lemma steady_Close : steady (Close (Message := Message) (T := T)).
Proof.
  intros c. rewrite Close_eq.
  destruct (closing c) eqn:Hc; [apply same_settings_refl |].
  eapply same_settings_trans; [| apply steady_close].
  unfold same_settings; simpl. by repeat split.
Qed.

Lemma steady_handleConnectionError (err : option error) :
  steady (handleConnectionError (Message := Message) (T := T) err).
Proof.
  intros c. destruct err as [e|]; [destruct (closing c) eqn:Hc |].
  - rewrite handleConnectionError_skips by auto. apply same_settings_refl.
  - rewrite handleConnectionError_state by assumption.
    eapply same_settings_trans; [| apply steady_close].
    unfold same_settings, torn; simpl. repeat split; auto.
  - rewrite handleConnectionError_skips by auto. apply same_settings_refl.
Qed.

Create HintDb steady.
Hint Resolve steady_ret steady_get steady_emit steady_panic steady_bind
  steady_with_defer steady_for_range steady_make_chan steady_respMap_store
  steady_respMap_load steady_respMap_delete steady_message_Pack
  steady_transport_Write steady_handleError steady_close steady_Close
  steady_handleConnectionError : steady.

Ltac steady_cases :=
  repeat first
    [ solve [auto with steady]
    | match goal with
      | |- steady (bind _ _) => apply steady_bind; [| intros ?]
      | |- steady (with_defer _ _) => apply steady_with_defer
      | |- steady (match ?x with _ => _ end) => destruct x
      | |- steady (if ?x then _ else _) => destruct x
      | |- steady (let '(_, _) := ?x in _) => destruct x
      end ].

Lemma steady_Send message w : steady (Send (T := T) message w).
Proof. unfold Send. steady_cases. Qed.

Lemma steady_Reply message w : steady (Reply (T := T) message w).
Proof. unfold Reply. steady_cases. Qed.

Lemma steady_handleResponse (rawMessage : bytes) :
  steady (handleResponse (T := T) rawMessage).
Proof. unfold handleResponse. steady_cases. Qed.

Lemma steady_writeLoop_request (req : request) :
  steady (writeLoop_request (Message := Message) (T := T) req).
Proof. unfold writeLoop_request. steady_cases. Qed.

Lemma steady_writeLoop (script : list write_select) :
  steady (writeLoop (Message := Message) (T := T) script).
Proof.
  induction script as [|[req| |] rest IH]; cbn [writeLoop].
  - steady_cases.
  - apply steady_bind; [apply steady_writeLoop_request |].
    intros [e|]; [steady_cases | exact IH].
  - steady_cases; exact IH.
  - steady_cases.
Qed.

Lemma steady_readLoop (script : list read_step) :
  steady (readLoop (Message := Message) (T := T) script).
Proof.
  induction script as [|[raw|err|err] rest IH]; cbn [readLoop];
    steady_cases; exact IH.
Qed.

Lemma steady_readResponseLoop (script : list dispatch_select) :
  steady (readResponseLoop (Message := Message) (T := T) script).
Proof.
  induction script as [|[raw| |] rest IH]; cbn [readResponseLoop];
    steady_cases; exact IH.
Qed.

Lemma steady_perform (k : call) :
  engine_call k = true -> steady (perform (T := T) k).
Proof.
  destruct k; cbn [engine_call perform]; intros Hk; try discriminate.
  - apply steady_bind; [apply steady_Close | intros; apply steady_ret].
  - apply steady_handleConnectionError.
  - apply steady_bind; [apply steady_Send | intros; apply steady_ret].
  - apply steady_bind; [apply steady_Reply | intros; apply steady_ret].
  - apply steady_handleResponse.
  - apply steady_bind; [apply steady_writeLoop | intros; apply steady_ret].
  - apply steady_bind; [apply steady_readLoop | intros; apply steady_ret].
  - apply steady_bind; [apply steady_readResponseLoop | intros; apply steady_ret].
Qed.

Lemma steady_lifetime (calls : list call) :
  forallb engine_call calls = true -> steady (lifetime (T := T) calls).
Proof.
  intros Hall. unfold lifetime. induction calls as [|k calls IH]; cbn [for_range].
  - apply steady_ret.
  - cbn [forallb] in Hall. apply andb_true_iff in Hall as [Hk Hall].
    apply steady_bind; [by apply steady_perform | intros _; by apply IH].
Qed.

(** X15.  What the engine leaves alone.  No call of the engine ([Send],
    [Reply], [Close], [handleConnectionError], [handleResponse] and the three
    loops), and so no sequence of them, changes the address, the options,
    the spec, the framer or the status of the connection; none removes the
    transport or puts one in place, none resets [closing], none reopens
    [done].  The status is what [SetStatus] set last and the options what
    [SetOptions] made them, and these two calls change nothing else. *)
Theorem engine_keeps_settings (calls : list call) c (s : Status)
    (options : list (Options -> Options * option error)) :
  forallb engine_call calls = true ->
  same_settings c (state_of (lifetime calls c))
  /\ SetStatus s c = Returns tt (set_status s c) []
  /\ (let c1 := state_of (lifetime calls (state_of (SetStatus s c))) in
      Status_ c1 = Returns s c1 [])
  /\ SetOptions options c =
       Returns (apply_options options (Opts c)).2
         (set_Opts (apply_options options (Opts c)).1 c) [].
Proof.
  intros Hall. split; [by apply steady_lifetime |].
  split; [reflexivity |]. split; [| reflexivity].
  intros c1.
  destruct (steady_lifetime calls Hall (set_status s c))
    as (_ & _ & _ & _ & Hs & _).
  unfold Status_, bind, get, ret. cbv beta iota.
  subst c1. cbn [state_of SetStatus bind get put] in *.
  change (state_of (SetStatus s c)) with (set_status s c).
  rewrite Hs. reflexivity.
Qed.

(** ** The channels of the requests *)

Lemma state_of_bind_ret {A : Type} (m : M A) c :
  state_of (bind m (fun _ => ret tt) c) = state_of (m c).
Proof. unfold bind, ret. by destruct (m c). Qed.

Lemma lifetime_step (k : call) (calls : list call) c :
  match perform k c with
  | Returns _ c1 t1 =>
      trace_of (lifetime (k :: calls) c) = t1 ++ trace_of (lifetime calls c1)
      /\ state_of (lifetime (k :: calls) c) = state_of (lifetime calls c1)
  | Panics why c1 t1 => lifetime (k :: calls) c = Panics why c1 t1
  end.
Proof.
  unfold lifetime. cbn [for_range].
  destruct (perform k c) as [[] c1 t1 | why c1 t1] eqn:Ek.
  - by destruct (bind_Returns (perform k) (fun _ => for_range calls perform)
                   c tt c1 t1 Ek) as (Hs & Ht & _).
  - by rewrite (bind_Panics _ _ c why c1 t1 Ek).
Qed.

Lemma made_app tr1 tr2 : made (tr1 ++ tr2) = made tr1 ++ made tr2.
Proof. unfold made, enqueued. by rewrite omap_app, bind_app. Qed.

Lemma made_confined (P : event (Message := Message) -> bool) tr :
  (forall e, P e = true -> is_Enqueue e = false) ->
  Forall (fun e => P e = true) tr ->
  made tr = [].
Proof.
  intros HP Hall. unfold made, enqueued.
  rewrite (omap_confined P); [reflexivity | | exact Hall].
  intros e He. specialize (HP e He). by destruct e.
Qed.

Lemma Send_made message w c :
  (made (trace_of (Send message w c)) = []
   /\ next_chan (state_of (Send message w c)) = next_chan c)
  \/ (made (trace_of (Send message w c)) = [next_chan c; S (next_chan c)]
      /\ next_chan (state_of (Send message w c)) = S (S (next_chan c))).
Proof.
  destruct (closing c) eqn:Hc.
  { rewrite Send_closing by assumption. by left. }
  destruct (Pack_ptr message) as [[packed [pe|]]|] eqn:HP.
  - rewrite (Send_pack_fails _ _ _ packed pe) by assumption. by left.
  - destruct (writeMessageLength c (Z.of_nat (length packed)))
      as [hb [n [we|]]] eqn:HW.
    + rewrite (Send_header_fails _ _ _ packed hb n we) by assumption. by left.
    + destruct (requestID message) as [stan [e|]] eqn:HI.
      * rewrite (Send_requestID_fails _ _ _ packed hb n stan e) by assumption.
        by left.
      * rewrite (Send_enqueues _ w _ packed hb n stan) by assumption.
        right. cbn [trace_of state_of next_chan set_respMap set_next_chan].
        split; [| reflexivity].
        destruct w as [r|err|]; [reflexivity | reflexivity |].
        destruct (InboundMessageHandler (Opts c)); reflexivity.
  - rewrite Send_pack_panics by assumption. by left.
Qed.

Lemma Reply_made message w c :
  (made (trace_of (Reply message w c)) = []
   /\ next_chan (state_of (Reply message w c)) = next_chan c)
  \/ (made (trace_of (Reply message w c)) = [next_chan c]
      /\ next_chan (state_of (Reply message w c)) = S (next_chan c)).
Proof.
  destruct (closing c) eqn:Hc.
  { rewrite Reply_closing by assumption. by left. }
  destruct (Pack_ptr message) as [[packed [pe|]]|] eqn:HP.
  - rewrite (Reply_pack_fails _ _ _ packed pe) by assumption. by left.
  - destruct (writeMessageLength c (Z.of_nat (length packed)))
      as [hb [n [we|]]] eqn:HW.
    + rewrite (Reply_header_fails _ _ _ packed hb n we) by assumption. by left.
    + rewrite (Reply_enqueues _ w _ packed hb n) by assumption. by right.
  - rewrite Reply_pack_panics by assumption. by left.
Qed.

Lemma next_chan_perform (k : call) c :
  (next_chan c <= next_chan (state_of (perform k c)))%nat.
Proof.
  destruct (engine_call k) eqn:Hk.
  - by destruct (steady_perform k Hk c) as (_ & _ & _ & _ & _ & _ & _ & _ & Hn).
  - destruct k; try discriminate; cbn; lia.
Qed.

Lemma perform_made (k : call) c :
  NoDup (made (trace_of (perform k c)))
  /\ Forall (fun ch => (next_chan c <= ch < next_chan (state_of (perform k c)))%nat)
       (made (trace_of (perform k c))).
Proof.
  assert (Hother : (forall e, footprint k e = true -> is_Enqueue e = false) ->
                   made (trace_of (perform k c)) = []).
  { intros Himp. apply (made_confined (footprint k)); [exact Himp |].
    apply confined_perform. }
  destruct k;
    try (rewrite Hother;
         [split; constructor
         | intros e; cbn [footprint];
           destruct e as [| | | | | | |ch [er|]| | | | | |g]; try destruct g;
           by try destruct er]).
  - cbn [perform]. rewrite trace_of_bind_ret, state_of_bind_ret.
    destruct (Send_made message w c) as [[-> _] | [-> ->]];
      [split; constructor |].
    split.
    + apply NoDup_cons. split; [| apply NoDup_singleton].
      rewrite list_elem_of_singleton. lia.
    + repeat constructor; lia.
  - cbn [perform]. rewrite trace_of_bind_ret, state_of_bind_ret.
    destruct (Reply_made message w c) as [[-> _] | [-> ->]];
      [split; constructor |].
    split; [apply NoDup_singleton | repeat constructor; lia].
Qed.

Lemma lifetime_made (calls : list call) c :
  NoDup (made (trace_of (lifetime calls c)))
  /\ Forall (fun ch => (next_chan c <= ch < next_chan (state_of (lifetime calls c)))%nat)
       (made (trace_of (lifetime calls c)))
  /\ (next_chan c <= next_chan (state_of (lifetime calls c)))%nat.
Proof.
  revert c. induction calls as [|k calls IH]; intros c.
  { split; [constructor |]. split; [constructor |]. cbn. lia. }
  pose proof (lifetime_step k calls c) as Hstep.
  destruct (perform_made k c) as [Hnd Hrange].
  pose proof (next_chan_perform k c) as Hle.
  destruct (perform k c) as [[] c1 t1 | why c1 t1];
    cbn [trace_of state_of] in Hnd, Hrange, Hle.
  - destruct Hstep as [-> ->].
    destruct (IH c1) as (Hnd' & Hrange' & Hle').
    rewrite made_app. split; [| split; [| lia]].
    + apply NoDup_app. split; [exact Hnd |]. split; [| exact Hnd'].
      intros ch Hin Hin'.
      rewrite Forall_forall in Hrange, Hrange'.
      specialize (Hrange ch Hin). specialize (Hrange' ch Hin'). lia.
    + apply Forall_app. split.
      * eapply Forall_impl; [exact Hrange |]. intros ch Hch. simpl in Hch. lia.
      * eapply Forall_impl; [exact Hrange' |]. intros ch Hch. simpl in Hch. lia.
  - rewrite Hstep. cbn [trace_of state_of].
    split; [exact Hnd |]. split; [exact Hrange | exact Hle].
Qed.

(** X16.  Every request gets channels of its own.  Over any sequence of
    calls on a connection, the reply and error channels of the requests that
    [Send] and [Reply] enqueue are pairwise distinct: no two requests share
    a channel, and no request uses one channel for replies and for errors.
    They are channels made during these calls, none that existed before
    and none that is made after. *)
Theorem request_channels_distinct (calls : list call) c :
  let o := lifetime calls c in
  NoDup (made (trace_of o))
  /\ Forall (fun ch => (next_chan c <= ch < next_chan (state_of o))%nat)
       (made (trace_of o))
  /\ (forall i j req req',
        enqueued (trace_of o) !! i = Some req ->
        enqueued (trace_of o) !! j = Some req' ->
        i <> j ->
        req_errCh req <> req_errCh req'
        /\ req_replyCh req <> Some (req_errCh req')
        /\ (is_Some (req_replyCh req) -> req_replyCh req <> req_replyCh req')).
Proof.
  intros o. destruct (lifetime_made calls c) as (Hnd & Hrange & _).
  split; [exact Hnd |]. split; [exact Hrange |].
  fold o in Hnd. unfold made in Hnd. clear Hrange.
  generalize dependent (enqueued (trace_of o)). clear o.
  intros reqs Hnd i j req req' Hi Hj Hij.
  assert (Hpair : forall (l : list request) a b r r',
            NoDup (l ≫= request_chans) ->
            l !! a = Some r -> l !! b = Some r' -> (a < b)%nat ->
            forall x y, x ∈ request_chans r -> y ∈ request_chans r' -> x <> y).
  { induction l as [|r0 l IHl]; intros a b r r' Hn Ha Hb Hab x y Hx Hy;
      [by rewrite lookup_nil in Ha |].
    rewrite bind_cons in Hn. apply NoDup_app in Hn as (_ & Hdisj & Hn).
    destruct b as [|b]; [lia |]. cbn in Hb.
    destruct a as [|a]; cbn in Ha.
    - injection Ha as ->. intros ->. apply (Hdisj y Hx).
      apply list_elem_of_bind. exists r'. split; [exact Hy |].
      by eapply list_elem_of_lookup_2.
    - eapply (IHl a b r r'); eauto. lia. }
  assert (Hdiff : forall x y, x ∈ request_chans req -> y ∈ request_chans req' ->
                              x <> y).
  { intros x y Hx Hy.
    destruct (decide (i < j)%nat) as [Hlt | Hge].
    - by eapply (Hpair reqs i j req req').
    - intros Hxy. symmetry in Hxy. revert Hxy.
      eapply (Hpair reqs j i req' req); eauto. lia. }
  unfold request_chans in Hdiff.
  destruct (req_replyCh req) as [r|]; destruct (req_replyCh req') as [r'|];
    (split; [apply Hdiff; set_solver |]);
    (split; [try discriminate; intros [= E]; revert E; apply Hdiff; set_solver |]);
    intros Hs; try discriminate;
    try (intros [= E]; revert E; apply Hdiff; set_solver).
  by destruct Hs.
Qed.

(** ** The dispatcher *)

Lemma readResponseLoop_timeout (rest : list dispatch_select) c :
  readResponseLoop (DispatchTimeout :: rest) c =
    match readResponseLoop rest c with
    | Returns r c1 t1 =>
        Returns r c1
          (match ReadTimeoutHandler (Opts c) with
           | Some h => [EvGo (GoReadTimeoutHandler h)]
           | None => []
           end ++ t1)
    | Panics why c1 t1 =>
        Panics why c1
          (match ReadTimeoutHandler (Opts c) with
           | Some h => [EvGo (GoReadTimeoutHandler h)]
           | None => []
           end ++ t1)
    end.
Proof.
  cbn [readResponseLoop]. unfold bind, get, emit, ret.
  destruct (ReadTimeoutHandler (Opts c)); destruct (readResponseLoop rest c);
    reflexivity.
Qed.

Lemma readResponseLoop_run (script rest : list dispatch_select) c :
  Forall (fun s => s <> DispatchDone) script ->
  readResponseLoop (script ++ rest) c =
    match readResponseLoop rest c with
    | Returns r c1 t1 =>
        Returns r c1 ((EvGo <$> dispatched (Opts c) script) ++ t1)
    | Panics why c1 t1 =>
        Panics why c1 ((EvGo <$> dispatched (Opts c) script) ++ t1)
    end.
Proof.
  induction 1 as [|s script Hs _ IH].
  { cbn [app]. by destruct (readResponseLoop rest c). }
  destruct s as [raw| |]; [| | contradiction]; cbn [app].
  - assert (Hstep : forall l,
      readResponseLoop (DispatchMessage raw :: l) c =
        match readResponseLoop l c with
        | Returns r c1 t1 => Returns r c1 (EvGo (GoHandleResponse raw) :: t1)
        | Panics why c1 t1 => Panics why c1 (EvGo (GoHandleResponse raw) :: t1)
        end) by reflexivity.
    rewrite Hstep, IH.
    destruct (readResponseLoop rest c); reflexivity.
  - rewrite readResponseLoop_timeout, IH.
    unfold dispatched. rewrite bind_cons.
    fold (dispatched (Message := Message) (Opts c) script).
    rewrite fmap_app.
    destruct (ReadTimeoutHandler (Opts c)) as [h|];
      destruct (readResponseLoop rest c); cbn [fmap list_fmap app];
      rewrite ?app_assoc; reflexivity.
Qed.

(** X17.  The dispatcher starts one [handleResponse] goroutine for every
    frame the reader hands it, in the order it gets them, and the
    [ReadTimeoutHandler], if one is configured, each time the read timer
    fires; it changes nothing on the connection and keeps waiting.  So the
    frames the reader read before its first failure are dispatched in the
    order they were read.  It returns when it finds [done] closed, not
    before. *)
Theorem readResponseLoop_dispatches_in_order (script rest : list dispatch_select)
    (frames : list bytes) c :
  Forall (fun s => s <> DispatchDone) script ->
  readResponseLoop script c =
    Returns LoopWaiting c (EvGo <$> dispatched (Opts c) script)
  /\ readResponseLoop (script ++ DispatchDone :: rest) c =
       Returns match done_ch c with Closed => LoopReturned | Open => LoopWaiting end
         c (EvGo <$> dispatched (Opts c) script)
  /\ started (trace_of (readResponseLoop
                          (DispatchMessage <$>
                             handed_over (trace_of (readLoop (ReadFrame <$> frames) c)))
                          c)) =
       GoHandleResponse <$> frames.
Proof.
  intros Hall.
  assert (Hfmap : forall l : list (goroutine (Message := Message)),
            started (EvGo <$> l) = l).
  { induction l as [|g l IH]; [reflexivity |].
    rewrite fmap_cons. unfold started in *. cbn [omap list_omap]. by rewrite IH. }
  split; [| split].
  - rewrite <- (app_nil_r script) at 1.
    rewrite (readResponseLoop_run script [] c Hall).
    cbn [readResponseLoop]. unfold ret. by rewrite app_nil_r.
  - rewrite (readResponseLoop_run script (DispatchDone :: rest) c Hall).
    cbn [readResponseLoop]. unfold bind, get, ret.
    destruct (done_ch c); by rewrite !app_nil_r.
  - destruct (readLoop_frames frames [] c) as (Ht & _).
    rewrite app_nil_r in Ht. rewrite Ht. cbn [readLoop]. unfold ret at 1.
    cbn [trace_of]. rewrite app_nil_r.
    assert (Hh : handed_over (EvSendRaw (Message := Message) <$> frames) = frames).
    { clear. induction frames as [|x l IH]; [reflexivity |].
      rewrite fmap_cons. unfold handed_over in *. cbn [omap list_omap].
      by rewrite IH. }
    rewrite Hh.
    assert (Hd : Forall (fun s => s <> DispatchDone) (DispatchMessage <$> frames)).
    { apply Forall_fmap, Forall_true. intros raw. simpl. discriminate. }
    rewrite <- (app_nil_r (DispatchMessage <$> frames)).
    rewrite (readResponseLoop_run _ [] c Hd).
    cbn [readResponseLoop]. unfold ret. cbn [trace_of]. rewrite app_nil_r, Hfmap.
    clear. induction frames as [|x l IH]; [reflexivity |].
    rewrite !fmap_cons. unfold dispatched in *. rewrite bind_cons.
    cbn [app]. by rewrite IH.
Qed.

(** ** The loops after the teardown *)

(** X18.  How the three loops end once [Close] has run on a connection on
    which no teardown had begun.  The writer and the dispatcher return the
    next time their [select] takes the receive on [done], and do nothing
    else; before the teardown that receive does not let them return.  The
    reader does not watch [done]: it ends on the error its next read
    returns, passes that error to [handleError], so a configured
    [ErrorHandler] is started for it although the connection was closed on
    purpose, and its call of [handleConnectionError] does nothing, the
    teardown having run. *)
Theorem loops_end_after_Close (rest_w : list write_select)
    (rest_d : list dispatch_select) (rest_r : list read_step) (err : error) c :
  closing c = false ->
  done_ch c = Open ->
  let c1 := state_of (Close c) in
  writeLoop (SelectDone :: rest_w) c = Returns LoopWaiting c []
  /\ readResponseLoop (DispatchDone :: rest_d) c = Returns LoopWaiting c []
  /\ writeLoop (SelectDone :: rest_w) c1 = Returns LoopReturned c1 []
  /\ readResponseLoop (DispatchDone :: rest_d) c1 = Returns LoopReturned c1 []
  /\ readLoop (ReadLengthFails err :: rest_r) c1 =
       Returns LoopReturned c1
         match ErrorHandler (Opts c) with
         | Some h =>
             [EvGo (GoErrorHandler h (SafeError err "failed to read message length"))]
         | None => []
         end.
Proof.
  intros Hc Hd c1.
  destruct (Close_fresh c Hc Hd) as (r & c' & Hrun & Hd1 & Hc1).
  assert (Hst : c1 = c') by (subst c1; by rewrite Hrun).
  assert (Ho : Opts c1 = Opts c)
    by (by destruct (steady_Close c) as (_ & Ho & _)).
  rewrite <- Hst in Hd1, Hc1. clear Hrun Hst.
  cbn [writeLoop readResponseLoop readLoop]. unfold bind at 1 2 3 4, get, ret.
  cbv beta iota. rewrite Hd, Hd1.
  do 4 (split; [reflexivity |]).
  rewrite (bind_eq _ _ c1 tt c1 _ (handleError_eq _ c1)).
  rewrite (bind_eq _ _ c1 tt c1 [] (handleConnectionError_skips _ c1 (or_intror Hc1))).
  unfold ret. rewrite Ho. by rewrite !app_nil_r.
Qed.

(** ** Establishing the connection *)

Lemma Close_returns c :
  guarded c -> exists r, Close c = Returns r (state_of (Close c)) (trace_of (Close c)).
Proof.
  intros Hg. rewrite Close_eq. destruct (closing c) eqn:Hc; [by eexists |].
  rewrite close_eq. simpl. rewrite (Hg Hc).
  destruct (conn c); simpl; by eexists.
Qed.

(** X19.  [Connect] on a connection that has a transport, as one made by
    [NewFrom] or one connected before, does not dial and runs neither the
    [OnConnect] callback nor the [ConnectionEstablishedHandler]: it starts
    the three loops, changes nothing and returns [nil].  No teardown takes
    the transport away, so this is also what it does after [Close]: the
    connection stays closing and [Send] on it is still refused. *)
Theorem Connect_keeps_transport (dialed : option T * option error)
    (callback : handler -> M (option error)) c (t : T) :
  conn c = Some t ->
  Connect dialed callback c = ConnectReturns None c run
  /\ loops_started (Message := Message) run =
       [GoWriteLoop; GoReadLoop; GoReadResponseLoop]
  /\ dials (Message := Message) run = []
  /\ engine_events (Message := Message) run = []
  /\ (let c1 := state_of (Close c) in
      Connect dialed callback c1 = ConnectReturns None c1 run
      /\ closing c1 = true
      /\ forall message w,
           Send message w c1 =
             Returns (None, Some ErrConnectionClosed) c1 [EvWgAdd; EvWgDone]).
Proof.
  intros Hconn.
  assert (Hrun : forall c0, is_Some (conn c0) ->
                   Connect dialed callback c0 = ConnectReturns None c0 run).
  { intros c0 [t0 Ht0]. unfold Connect. by rewrite Ht0. }
  split; [apply Hrun; by eexists |].
  do 3 (split; [reflexivity |]).
  intros c1.
  assert (Hc1 : closing c1 = true) by apply Close_sets_closing.
  split; [| split; [exact Hc1 | intros; by apply Send_closing]].
  apply Hrun.
  destruct (steady_Close c) as (_ & _ & _ & _ & _ & Hpresent & _).
  apply Hpresent. by eexists.
Qed.

(** X20.  A dial that fails: [Connect] on a connection without transport
    dials once, with TLS exactly when a TLS configuration is set, the
    address and the connect timeout of the connection; when the dial returns
    an error, [Connect] returns an error that wraps it and names the
    address, starts no loop, calls no callback and leaves the connection as
    it was, without transport, so that a later [Connect] dials again. *)
Theorem Connect_dial_fails (dialed : option T * option error)
    (callback : handler -> M (option error)) c (e : error) :
  conn c = None ->
  dialed.2 = Some e ->
  let failure := fmt_Errorf_w ("connecting to server " +:+ addr c +:+ ": ") e in
  Connect dialed callback c =
    ConnectReturns (Some failure) c
      [EvDial (bool_decide (TLSConfig (Opts c) <> None)) (addr c)
         (ConnectTimeout (Opts c))]
  /\ errors_Is failure e = true
  /\ (forall s, Error e = Some s ->
        Error failure = Some (("connecting to server " +:+ addr c +:+ ": ") +:+ s))
  /\ conn (connect_state (Connect dialed callback c)) = None
  /\ loops_started (connect_trace (Connect dialed callback c)) = [].
Proof.
  intros Hconn He failure.
  assert (Hrun : Connect dialed callback c =
    ConnectReturns (Some failure) c
      [EvDial (bool_decide (TLSConfig (Opts c) <> None)) (addr c)
         (ConnectTimeout (Opts c))]).
  { unfold Connect. by rewrite Hconn, He. }
  rewrite Hrun. split; [reflexivity |].
  split; [apply errors_Is_wrapped, errors_Is_refl |].
  split; [intros s Hs; subst failure; cbn [Error]; by rewrite Hs |].
  split; [exact Hconn | reflexivity].
Qed.

(** X21.  A dial that succeeds: [Connect] puts the transport in place and
    starts the three loops before anything else.  Without [OnConnect], or
    when the callback returns [nil], it returns [nil] and its last step is
    to start the [ConnectionEstablishedHandler] if one is configured.  When
    the callback returns an error, [Connect] closes the connection through
    [Close], returns an error that wraps the callback's and does not start
    the [ConnectionEstablishedHandler]; the connection is closing from then
    on. *)
Theorem Connect_runs_OnConnect (dialed : option T * option error)
    (callback : handler -> M (option error)) c (t : T) :
  conn c = None ->
  dialed = (Some t, None) ->
  let c1 := set_conn (Some t) c in
  let begun :=
    EvDial (bool_decide (TLSConfig (Opts c) <> None)) (addr c)
      (ConnectTimeout (Opts c)) :: run in
  let announce c0 :=
    match ConnectionEstablishedHandler (Opts c0) with
    | Some h => [EvEngine (EvGo (GoConnectionEstablishedHandler h))]
    | None => []
    end in
  (OnConnect (Opts c) = None ->
   Connect dialed callback c = ConnectReturns None c1 (begun ++ announce c))
  /\ (forall h c2 t2,
        OnConnect (Opts c) = Some h ->
        callback h c1 = Returns None c2 t2 ->
        Connect dialed callback c =
          ConnectReturns None c2 (begun ++ (EvEngine <$> t2) ++ announce c2))
  /\ (forall h e c2 t2,
        OnConnect (Opts c) = Some h ->
        callback h c1 = Returns (Some e) c2 t2 ->
        guarded c2 ->
        let failure :=
          fmt_Errorf_w ("on connect callback " +:+ addr c2 +:+ ": ") e in
        Connect dialed callback c =
          ConnectReturns (Some failure) (state_of (Close c2))
            (begun ++ (EvEngine <$> t2 ++ trace_of (Close c2)))
        /\ errors_Is failure e = true
        /\ closing (state_of (Close c2)) = true
        /\ started (trace_of (Close c2)) = []
        /\ (closing c2 = false ->
            done_ch (state_of (Close c2)) = Closed
            /\ trace_of (Close c2) =
                 [EvWgWait; EvCloseDone]
                 ++ match conn c2 with Some _ => [EvConnClose] | None => [] end)).
Proof.
  intros Hconn -> c1 begun announce.
  split; [| split].
  - intros Hon. unfold Connect, established. rewrite Hconn. cbn [fst snd].
    cbn [Opts set_conn]. rewrite Hon. reflexivity.
  - intros h c2 t2 Hon Hcb. unfold Connect, established. rewrite Hconn.
    cbn [fst snd]. cbn [Opts set_conn]. rewrite Hon. fold c1. rewrite Hcb.
    subst begun announce. cbn [app]. by rewrite <- !app_assoc.
  - intros h e c2 t2 Hon Hcb Hg failure.
    destruct (Close_returns c2 Hg) as [r Hclose].
    assert (Haddr : addr (state_of (Close c2)) = addr c2)
      by (by destruct (steady_Close c2) as (Ha & _)).
    split; [| split; [| split; [| split]]].
    + unfold Connect. rewrite Hconn. cbn [fst snd]. cbn [Opts set_conn].
      rewrite Hon. fold c1. rewrite Hcb, Hclose, Haddr. reflexivity.
    + apply errors_Is_wrapped, errors_Is_refl.
    + apply Close_sets_closing.
    + unfold started. apply (omap_confined close_event);
        [by intros [] | apply confined_Close].
    + intros Hc2.
      destruct (Close_fresh c2 Hc2 (Hg Hc2)) as (r' & c3 & -> & Hd3 & _).
      by split.
Qed.

(** ** A request and its reply *)

(** X22.  The way of a request and of its reply.  For a message that gets
    past the pre-flight steps, [Send] enqueues a request whose correlator
    is the STAN of the message and whose reply channel it has just made; the
    writer, handed that request, stores the slot under the STAN and writes
    the frame (header, then packed message) to the transport; a response
    that unpacks to a message with the same STAN is then sent by
    [handleResponse] on that very reply channel, and a [Send] whose wait
    ends on it returns that message and no error, with the slot removed. *)
Theorem Send_request_meets_reply message c (packed hb : bytes) (n : Z)
    (stan : string) (t : T) (rawMessage : bytes) (m : Message) :
  closing c = false ->
  Pack_ptr message = Some (packed, None) ->
  writeMessageLength c (Z.of_nat (length packed)) = (hb, (n, None)) ->
  requestID message = (stan, None) ->
  conn c = Some t ->
  spec c rawMessage = (m, None) ->
  isResponse (Some m) = true ->
  requestID (Some m) = (stan, None) ->
  let o := Send message (WaitReply m) c in
  let req := mkRequest (hb ++ packed) stan (Some (next_chan c)) (S (next_chan c)) in
  let c1 := state_of (writeLoop_request req c) in
  enqueued (trace_of o) = [req]
  /\ written (trace_of (writeLoop_request req c)) = [hb ++ packed]
  /\ respMap c1 !! stan = Some (mkResponse (next_chan c) (S (next_chan c)))
  /\ handleResponse rawMessage c1 =
       Returns tt c1 [EvLookup stan; EvSendReply (next_chan c) m]
  /\ returned o = Some (Some m, None)
  /\ respMap (state_of o) !! stan = None.
Proof.
  intros Hc HP HW HI Hconn HU Hresp HIm o req c1. subst o.
  rewrite (Send_enqueues message (WaitReply m) c packed hb n stan Hc HP HW HI).
  cbn [trace_of state_of returned respMap set_respMap].
  split; [reflexivity |].
  assert (Hw : writeLoop_request req c =
    Returns (conn_Write t (hb ++ packed)).2.2 c1
      (trace_of (writeLoop_request req c))
    /\ written (trace_of (writeLoop_request req c)) = [hb ++ packed]
    /\ respMap c1 = <[stan := mkResponse (next_chan c) (S (next_chan c))]> (respMap c)
    /\ spec c1 = spec c).
  { subst c1.
    rewrite (writeLoop_request_slot req (next_chan c) c t Hconn eq_refl).
    cbn [trace_of state_of req_rawMessage req_requestID req_errCh req].
    split; [reflexivity |]. split; [| by split].
    destruct (conn_Write t (hb ++ packed)).2.2;
      destruct (ErrorHandler (Opts c)); reflexivity. }
  destruct Hw as (_ & Hwr & Hmap & Hspec).
  split; [exact Hwr |].
  split; [rewrite Hmap; apply lookup_insert_eq |].
  split.
  { rewrite (handleResponse_response_eq rawMessage m stan c1)
      by (rewrite ?Hspec; assumption).
    rewrite Hmap, lookup_insert_eq. reflexivity. }
  split; [reflexivity | apply lookup_delete_eq].
Qed.

(** ** The error of the transport's [Close] *)

(** X23.  When the transport's [Close] returns an error, [Close] on a
    connection on which no teardown had begun returns that error wrapped
    with "closing connection: ", after it has closed [done] and called the
    transport's [Close]: the connection is closing and [done] is closed all
    the same, and a second [Close] returns [nil], not the error again.
    [handleConnectionError] drops the error of [close] and goes on to start
    the [ConnectionClosedHandlers]. *)
Theorem Close_reports_transport_error c (t : T) (e failed : error) :
  closing c = false ->
  done_ch c = Open ->
  conn c = Some t ->
  (conn_Close t).2 = Some e ->
  let c1 := state_of (Close c) in
  Close c =
    Returns (Some (fmt_Errorf_w "closing connection: " e)) c1
      [EvWgWait; EvCloseDone; EvConnClose]
  /\ errors_Is (fmt_Errorf_w "closing connection: " e) e = true
  /\ closing c1 = true
  /\ done_ch c1 = Closed
  /\ conn c1 = Some (conn_Close t).1
  /\ Close c1 = Returns None c1 []
  /\ (exists c2,
        handleConnectionError (Some failed) c =
          Returns tt c2
            (notices (respMap c) ++ drainers (next_chan c)
             ++ [EvWgWait; EvCloseDone; EvConnClose]
             ++ closed_handlers (ConnectionClosedHandlers (Opts c)))).
Proof.
  intros Hc Hd Hconn He c1.
  assert (Hrun : Close c =
    Returns (Some (fmt_Errorf_w "closing connection: " e))
      (set_conn (Some (conn_Close t).1) (set_done_ch Closed (set_closing true c)))
      [EvWgWait; EvCloseDone; EvConnClose]).
  { rewrite Close_eq, Hc, close_eq. cbn [done_ch conn set_closing].
    rewrite Hd, Hconn, He. reflexivity. }
  subst c1. rewrite Hrun. cbn [state_of].
  split; [reflexivity |].
  split; [apply errors_Is_wrapped, errors_Is_refl |].
  do 3 (split; [reflexivity |]).
  split; [by rewrite Close_eq |].
  destruct (handleConnectionError_fresh failed c Hc Hd) as (c2 & Hh & _).
  rewrite Hconn in Hh. by exists c2.
Qed.

(** ** The handlers of a closed connection *)

Lemma closed_handlers_started_app tr1 tr2 :
  closed_handlers_started (tr1 ++ tr2) =
    closed_handlers_started tr1 ++ closed_handlers_started tr2.
Proof. apply omap_app. Qed.

Lemma closed_handlers_started_off tr :
  Forall (fun e => off_closed_handlers e = true) tr ->
  closed_handlers_started tr = [].
Proof.
  intros Hoff. apply (omap_confined off_closed_handlers); [| exact Hoff].
  intros e. destruct e as [| | | | | | | | | | | | |g]; try reflexivity.
  by destruct g.
Qed.

Lemma closed_handlers_started_closed_handlers (hs : list handler) :
  closed_handlers_started (closed_handlers (Message := Message) hs) = hs.
Proof.
  unfold closed_handlers_started, closed_handlers.
  induction hs as [|h hs IH]; [reflexivity |].
  rewrite fmap_cons. cbn [omap list_omap]. by rewrite IH.
Qed.

Lemma notifies_once_silent {A : Type} (m : M A) :
  steady m -> confined off_closed_handlers m -> notifies_once m.
Proof.
  intros Hs Hc c.
  destruct (Hs c) as (_ & Ho & _ & _ & _ & _ & Hcl & _).
  pose proof (closed_handlers_started_off _ (Hc c)) as Hnone.
  split; [exact Ho |]. split; [| by left].
  intros Hclosing. split; [by apply Hcl | exact Hnone].
Qed.

Lemma notifies_once_bind {A B : Type} (m : M A) (k : A -> M B) :
  notifies_once m -> (forall a, notifies_once (k a)) -> notifies_once (bind m k).
Proof.
  intros Hm Hk c. destruct (Hm c) as (Ho & Hcl & Hst).
  destruct (m c) as [a c1 t1 | why c1 t1] eqn:Em; cbn [state_of trace_of] in *.
  - destruct (bind_Returns m k c a c1 t1 Em) as (Hs & Ht & _).
    rewrite Hs, Ht, closed_handlers_started_app.
    destruct (Hk a c1) as (Ko & Kcl & Kst). rewrite Ko, Ho.
    split; [reflexivity |]. split.
    + intros Hc. destruct (Hcl Hc) as [Hc1 ->].
      destruct (Kcl Hc1) as [Hc2 ->]. by split.
    + destruct Hst as [-> | (-> & Hc & Hc1)].
      * destruct Kst as [-> | (-> & Kc & Kc2)]; [by left |].
        right. rewrite Ho. split; [reflexivity |]. split; [| exact Kc2].
        destruct (closing c) eqn:Hc; [| reflexivity].
        destruct (Hcl eq_refl) as [Hc1 _]. congruence.
      * destruct (Kcl Hc1) as [Hc2 ->]. right. by rewrite app_nil_r.
  - rewrite (bind_Panics m k c why c1 t1 Em). cbn [state_of trace_of].
    split; [exact Ho |]. split; [exact Hcl | exact Hst].
Qed.

Lemma notifies_once_ret {A : Type} (a : A) :
  notifies_once (ret (Message := Message) (T := T) a).
Proof. apply notifies_once_silent; [apply steady_ret | apply confined_ret]. Qed.

Lemma notifies_once_handleConnectionError (err : option error) :
  notifies_once (handleConnectionError (Message := Message) (T := T) err).
Proof.
  intros c.
  destruct (steady_handleConnectionError err c) as (_ & Ho & _ & _ & _ & _ & Hcl & _).
  split; [exact Ho |].
  destruct err as [e|]; [destruct (closing c) eqn:Hc |].
  - rewrite handleConnectionError_skips by auto. cbn [state_of trace_of].
    split; [by split | by left].
  - split; [discriminate |].
    pose proof (handleConnectionError_sets_closing e c) as Hset.
    rewrite handleConnectionError_eq in * by assumption.
    assert (Hclose : closed_handlers_started (trace_of (close (torn c))) = []).
    { apply closed_handlers_started_off.
      eapply Forall_impl; [apply confined_close |]. by intros []. }
    assert (Hn : closed_handlers_started
                   (notices (Message := Message) (respMap c)) = []).
    { apply closed_handlers_started_off. unfold notices.
      apply Forall_fmap, Forall_true. by intros kv. }
    destruct (close (torn c)) as [r c1 t1 | why c1 t1]; cbn [state_of trace_of] in *.
    + right. split; [| by split].
      rewrite !closed_handlers_started_app, Hn, Hclose.
      apply closed_handlers_started_closed_handlers.
    + left. by rewrite !closed_handlers_started_app, Hn, Hclose.
  - rewrite handleConnectionError_skips by auto. cbn [state_of trace_of].
    split; [by split | by left].
Qed.

Lemma notifies_once_Close :
  notifies_once (Close (Message := Message) (T := T)).
Proof.
  apply notifies_once_silent; [apply steady_Close |].
  eapply confined_weaken; [| apply confined_Close]. by intros [].
Qed.

Lemma notifies_once_Send message w : notifies_once (Send (T := T) message w).
Proof.
  apply notifies_once_silent; [apply steady_Send |].
  eapply confined_weaken; [| apply confined_Send].
  intros e. destruct e as [| | | | | | | | | | | | |g]; try reflexivity.
  by destruct g.
Qed.

Lemma notifies_once_Reply message w : notifies_once (Reply (T := T) message w).
Proof.
  apply notifies_once_silent; [apply steady_Reply |].
  eapply confined_weaken; [| apply confined_Reply]. by intros [].
Qed.

Lemma notifies_once_handleResponse (rawMessage : bytes) :
  notifies_once (handleResponse (T := T) rawMessage).
Proof.
  apply notifies_once_silent; [apply steady_handleResponse |].
  eapply confined_weaken; [| apply confined_handleResponse].
  intros e. destruct e as [| | | | | | | | | | | | |g]; try reflexivity.
  by destruct g.
Qed.

Lemma notifies_once_readResponseLoop (script : list dispatch_select) :
  notifies_once (readResponseLoop (Message := Message) (T := T) script).
Proof.
  apply notifies_once_silent; [apply steady_readResponseLoop |].
  eapply confined_weaken; [| apply confined_readResponseLoop].
  intros e. destruct e as [| | | | | | | | | | | | |g]; try reflexivity.
  by destruct g.
Qed.

Lemma notifies_once_writeLoop_request (req : request) :
  notifies_once (writeLoop_request (Message := Message) (T := T) req).
Proof.
  apply notifies_once_silent; [apply steady_writeLoop_request |].
  unfold writeLoop_request, respMap_store, transport_Write, handleError.
  confined_cases.
Qed.

Lemma notifies_once_writeLoop (script : list write_select) :
  notifies_once (writeLoop (Message := Message) (T := T) script).
Proof.
  induction script as [|[req| |] rest IH]; cbn [writeLoop].
  - apply notifies_once_ret.
  - apply notifies_once_bind; [apply notifies_once_writeLoop_request |].
    intros [e|]; [| exact IH].
    apply notifies_once_bind; [apply notifies_once_handleConnectionError |].
    intros _. apply notifies_once_ret.
  - apply notifies_once_bind;
      [apply notifies_once_silent; [apply steady_get | apply confined_get] |].
    intros c0. apply notifies_once_bind; [| intros _; exact IH].
    apply notifies_once_silent;
      [destruct (PingHandler (Opts c0)); auto with steady
      | destruct (PingHandler (Opts c0)); confined_cases].
  - apply notifies_once_silent; [steady_cases | confined_cases].
Qed.

Lemma notifies_once_readLoop (script : list read_step) :
  notifies_once (readLoop (Message := Message) (T := T) script).
Proof.
  assert (Hfail : forall err text,
    notifies_once
      (bind (handleError (Message := Message) (T := T) (SafeError err text))
         (fun _ => bind (handleConnectionError (Some err))
                     (fun _ => ret LoopReturned)))).
  { intros err text. apply notifies_once_bind.
    - apply notifies_once_silent; [apply steady_handleError |].
      unfold handleError. confined_cases.
    - intros _. apply notifies_once_bind;
        [apply notifies_once_handleConnectionError |].
      intros _. apply notifies_once_ret. }
  induction script as [|[raw|err|err] rest IH]; cbn [readLoop].
  - apply notifies_once_ret.
  - apply notifies_once_bind; [| intros _; exact IH].
    apply notifies_once_silent; [apply steady_emit | by apply confined_emit].
  - apply Hfail.
  - apply Hfail.
Qed.

Lemma notifies_once_perform (k : call) :
  engine_call k = true -> notifies_once (perform (T := T) k).
Proof.
  destruct k; cbn [engine_call perform]; intros Hk; try discriminate.
  - apply notifies_once_bind; [apply notifies_once_Close |].
    intros; apply notifies_once_ret.
  - apply notifies_once_handleConnectionError.
  - apply notifies_once_bind; [apply notifies_once_Send |].
    intros; apply notifies_once_ret.
  - apply notifies_once_bind; [apply notifies_once_Reply |].
    intros; apply notifies_once_ret.
  - apply notifies_once_handleResponse.
  - apply notifies_once_bind; [apply notifies_once_writeLoop |].
    intros; apply notifies_once_ret.
  - apply notifies_once_bind; [apply notifies_once_readLoop |].
    intros; apply notifies_once_ret.
  - apply notifies_once_bind; [apply notifies_once_readResponseLoop |].
    intros; apply notifies_once_ret.
Qed.

Lemma notifies_once_lifetime (calls : list call) :
  forallb engine_call calls = true -> notifies_once (lifetime (T := T) calls).
Proof.
  intros Hall. unfold lifetime. induction calls as [|k calls IH]; cbn [for_range].
  - apply notifies_once_ret.
  - cbn [forallb] in Hall. apply andb_true_iff in Hall as [Hk Hall].
    apply notifies_once_bind;
      [by apply notifies_once_perform | intros _; by apply IH].
Qed.

(** X24.  The [ConnectionClosedHandlers] are for the teardown by an error,
    and run once.  [Close] never starts them.  [handleConnectionError], on a
    connection on which no teardown had begun, starts each of them once, in
    the configured order, as its last step, after [done] and the transport
    are closed.  Over any sequence of calls of the engine they are started
    at most once, all of them or none, and not at all on a connection that
    was closing to begin with. *)
Theorem closed_handlers_at_most_once (calls : list call) c (e : error) :
  forallb engine_call calls = true ->
  let tr := trace_of (lifetime calls c) in
  (closed_handlers_started tr = []
   \/ closed_handlers_started tr = ConnectionClosedHandlers (Opts c))
  /\ (closing c = true -> closed_handlers_started tr = [])
  /\ closed_handlers_started (trace_of (Close c)) = []
  /\ (closing c = false -> done_ch c = Open ->
      closed_handlers_started (trace_of (handleConnectionError (Some e) c)) =
        ConnectionClosedHandlers (Opts c)
      /\ exists before,
           trace_of (handleConnectionError (Some e) c) =
             before ++ closed_handlers (ConnectionClosedHandlers (Opts c))
           /\ closed_handlers_started before = []
           /\ count is_CloseDone before = 1%nat).
Proof.
  intros Hall tr.
  destruct (notifies_once_lifetime calls Hall c) as (_ & Hcl & Hst).
  fold tr in Hcl, Hst.
  split; [destruct Hst as [-> | (-> & _)]; auto |].
  split; [intros Hc; by destruct (Hcl Hc) |].
  split.
  { destruct (notifies_once_Close c) as (_ & _ & [H | (_ & _ & _)]); [exact H |].
    apply closed_handlers_started_off.
    eapply Forall_impl; [apply confined_Close |]. by intros []. }
  intros Hc Hd.
  destruct (handleConnectionError_fresh e c Hc Hd) as (c1 & -> & _).
  cbn [trace_of].
  assert (Hn : closed_handlers_started
                 (notices (Message := Message) (respMap c)) = []).
  { apply closed_handlers_started_off. unfold notices.
    apply Forall_fmap, Forall_true. by intros kv. }
  assert (Ht : closed_handlers_started
                 (match conn c with
                  | Some _ => [EvConnClose (Message := Message)]
                  | None => []
                  end) = []) by (by destruct (conn c)).
  split.
  - rewrite !closed_handlers_started_app, Hn, Ht.
    apply closed_handlers_started_closed_handlers.
  - exists (notices (respMap c) ++ drainers (next_chan c)
            ++ [EvWgWait; EvCloseDone]
            ++ match conn c with Some _ => [EvConnClose] | None => [] end).
    split; [by rewrite <- !app_assoc |].
    split; [by rewrite !closed_handlers_started_app, Hn, Ht |].
    rewrite !count_app, count_notices by reflexivity.
    by destruct (conn c).
Qed.

End Facts.

(** * The properties on the in-memory instances *)

(** The constructor functions give the connections the examples use. *)
Example NewFrom_demo :
  NewFrom demo_defaults (mkPipe [] false) demo_Unpack demo_writer [] =
    (Some (demo_conn demo_defaults), None).
Proof. reflexivity. Qed.

Example New_is_guarded :
  forall c : Connection (Message := demo_message) (T := pipe),
    New demo_defaults "127.0.0.1:8583" demo_Unpack demo_writer [] = (Some c, None) ->
    guarded c /\ closing c = false /\ respMap c = ∅.
Proof. intros c [= <-]. repeat split. Qed.

(** Scenario 1 of the specification, the echo: [Send] of MTI "0800" with
    STAN "000001" enqueues one framed request and returns the reply it is
    given; the writer registers the slot and writes the frame; the reply
    "0810" with the same STAN is delivered on the slot's reply channel. *)
Example echo_Send :
  let o := Send (Some demo_request) (WaitReply demo_reply) (demo_conn demo_defaults) in
  returned o = Some (Some demo_reply, None)
  /\ trace_of o =
       [EvWgAdd;
        EvEnqueue (mkRequest
                     ([x00; x0a] ++ list_byte_of_string "0800000001")
                     "000001" (Some 0%nat) 1%nat);
        EvDelete "000001"; EvWgDone].
Proof. vm_compute. split; reflexivity. Qed.

Example echo_dispatch :
  trace_of (handleResponse (list_byte_of_string "0810000001")
              (demo_busy demo_defaults)) =
    [EvLookup "000001"; EvSendReply 0%nat demo_reply].
Proof. vm_compute. reflexivity. Qed.

(** Scenario 6: MTI "0200" is not a response; the handler gets it. *)
Example unsolicited_dispatch :
  trace_of (handleResponse (list_byte_of_string "0200000007")
              (demo_busy demo_handlers)) =
    [EvGo (GoInboundMessageHandler 2%nat demo_unsolicited)].
Proof. vm_compute. reflexivity. Qed.

(** The unpack error of the in-memory codec, wrapped with the frame. *)
Lemma ErrUnpack_Error_Unwrap_witness :
  let e := mkErrUnpack (Some (collaborator_error "not enough data to unpack MTI"))
             demo_garbage in
  Err e = Some (collaborator_error "not enough data to unpack MTI")
  /\ ErrUnpack_Error e = Some "not enough data to unpack MTI"
  /\ ErrUnpack_Unwrap e = Some (collaborator_error "not enough data to unpack MTI").
Proof.
  intros e. split; [reflexivity |].
  pose proof (ErrUnpack_Error_Unwrap e
                (collaborator_error "not enough data to unpack MTI") eq_refl)
    as (H1 & _ & _ & H4 & _).
  split; [exact H1 | exact H4].
Defined.

(** "0810" is a response, "0800" is not and goes to the handler. *)
Lemma isResponse_iff_witness :
  isResponse (Some demo_reply) = true
  /\ isResponse (Some demo_request) = false
  /\ handleResponse (list_byte_of_string "0800000001") (demo_conn demo_handlers) =
       Returns tt (demo_conn demo_handlers)
         [EvGo (GoInboundMessageHandler 2%nat demo_request)].
Proof.
  split; [| split].
  - apply (proj1 (isResponse_iff (T := pipe) (Some demo_reply))).
    exists demo_reply, "1"%char. repeat split; simpl; auto.
  - reflexivity.
  - apply (proj2 (isResponse_iff (Some demo_request))
             (list_byte_of_string "0800000001") demo_request
             (demo_conn demo_handlers)); reflexivity.
Defined.

(** "0200" with two requests in flight: the table is not touched. *)
Lemma handleResponse_unsolicited_witness :
  spec (demo_busy demo_handlers) (list_byte_of_string "0200000007") =
    (demo_unsolicited, None)
  /\ isResponse (Some demo_unsolicited) = false
  /\ exists tr,
       handleResponse (list_byte_of_string "0200000007") (demo_busy demo_handlers) =
         Returns tt (demo_busy demo_handlers) tr
       /\ table_accesses tr = []
       /\ tr = [EvGo (GoInboundMessageHandler 2%nat demo_unsolicited)].
Proof.
  split; [reflexivity |]. split; [reflexivity |].
  destruct (handleResponse_unsolicited (list_byte_of_string "0200000007")
              demo_unsolicited (demo_busy demo_handlers)
              ltac:(reflexivity) ltac:(reflexivity))
    as (tr & H1 & _ & H3 & H4 & _).
  exists tr. split; [exact H1 |]. split; [exact H3 |].
  apply (H4 2%nat). reflexivity.
Defined.


(** An MTI that does not pack, and a message without STAN. *)
Lemma preflight_errors_witness :
  closing (demo_busy demo_defaults) = false
  /\ Send (Some demo_bad_mti) WaitTimeout (demo_busy demo_defaults) =
       Returns
         (None,
          Some (fmt_Errorf_w "packing message: "
                  (collaborator_error "failed to pack MTI")))
         (demo_busy demo_defaults) [EvWgAdd; EvWgDone]
  /\ Send (Some demo_no_stan) WaitTimeout (demo_busy demo_defaults) =
       Returns
         (None,
          Some (fmt_Errorf_w "creating request ID: "
                  (errors_New "STAN is missing")))
         (demo_busy demo_defaults) [EvWgAdd; EvWgDone].
Proof.
  split; [reflexivity |]. split.
  - pose proof (preflight_errors (Some demo_bad_mti) (demo_busy demo_defaults)
                  eq_refl) as (Hp & _).
    apply (Hp [] (collaborator_error "failed to pack MTI")). reflexivity.
  - pose proof (preflight_errors (Some demo_no_stan) (demo_busy demo_defaults)
                  eq_refl) as (_ & _ & Hi & _).
    apply (Hi (list_byte_of_string "0800") [x00; x04] 2%Z "");
      reflexivity.
Defined.

(** C2 as the claim words it fails on the teardown by the user: [Close] sets
    [closing] on a connection with two slots registered, and sends
    [ErrConnectionClosed] to neither; both are still registered when it
    returns. *)
Lemma Close_notifies_no_slot_counterexample :
  let c := demo_busy demo_defaults in
  let o := Close c in
  respMap c !! "000001" = Some (mkResponse 0 1)
  /\ respMap c !! "000002" = Some (mkResponse 2 3)
  /\ closing c = false
  /\ closing (state_of o) = true
  /\ trace_of o = [EvWgWait; EvCloseDone; EvConnClose]
  /\ sends_on 1 (trace_of o) = 0%nat
  /\ sends_on 3 (trace_of o) = 0%nat
  /\ respMap (state_of o) !! "000001" = Some (mkResponse 0 1).
Proof. vm_compute. repeat split. Qed.

(** A read error with two requests in flight: both slots are notified, and
    the calls that follow are refused. *)
Lemma closing_refuses_and_notifies_witness :
  let failed := collaborator_error "EOF" in
  let down := state_of (handleConnectionError (Some failed)
                          (demo_busy demo_handlers)) in
  closing down = true
  /\ Send (Some demo_request) (WaitReply demo_reply) down =
       Returns (None, Some ErrConnectionClosed) down [EvWgAdd; EvWgDone]
  /\ Reply (Some demo_reply) (ReplyErr None) down =
       Returns (Some ErrConnectionClosed) down [EvWgAdd; EvWgDone]
  /\ err_sends (trace_of (handleConnectionError (Some failed)
                            (demo_busy demo_handlers))) ≡ₚ
       [(1%nat, Some ErrConnectionClosed); (3%nat, Some ErrConnectionClosed)]
  /\ sends_on 1 (trace_of (handleConnectionError (Some failed)
                             (demo_busy demo_handlers))) = 1%nat.
Proof.
  intros failed down.
  pose proof (closing_refuses_and_notifies (demo_busy demo_handlers))
    as (_ & _ & Hset & Hnot & _).
  pose proof (closing_refuses_and_notifies down) as (Href & _).
  assert (Hdown : closing down = true) by apply (Hset failed).
  destruct (Href Hdown (Some demo_request)) as (HS & _).
  destruct (Href Hdown (Some demo_reply)) as (_ & HR & _).
  destruct (Hnot eq_refl failed) as (Hperm & Hone).
  split; [exact Hdown |]. split; [apply HS |]. split; [apply HR |].
  split.
  - etransitivity; [exact Hperm |]. vm_compute. reflexivity.
  - apply (Hone "000001" (mkResponse 0 1)); [reflexivity |].
    intros key' r' Hk Hch.
    destruct (decide (key' = "000001")) as [-> | Hne]; [reflexivity |].
    destruct (decide (key' = "000002")) as [-> | Hne2].
    + vm_compute in Hk. injection Hk as <-. discriminate.
    + exfalso. unfold demo_busy in Hk; simpl in Hk.
      rewrite !lookup_insert_ne, lookup_empty in Hk by congruence.
      discriminate.
Defined.

(** C7 as the claim words it fails when no [ErrorHandler] is configured, as
    with the default options: the frame that does not unpack is dropped and
    nothing is started. *)
Lemma no_ErrorHandler_counterexample :
  let c := demo_conn demo_defaults in
  let o := handleResponse demo_garbage c in
  ErrorHandler (Opts c) = None
  /\ (spec c demo_garbage).2 =
       Some (collaborator_error "not enough data to unpack MTI")
  /\ returned o = Some tt
  /\ trace_of o = []
  /\ started (trace_of o) = [].
Proof. vm_compute. repeat split. Qed.

(** A frame of two bytes with an [ErrorHandler] configured, and the [Send]
    that follows. *)
Lemma unpack_error_is_reported_witness :
  let c := demo_conn demo_handlers in
  let o := handleResponse demo_garbage c in
  let reported :=
    SafeError
      (as_error
         (mkErrUnpack (Some (collaborator_error "not enough data to unpack MTI"))
            demo_garbage))
      "failed to unpack message" in
  spec c demo_garbage =
    (mkDemoMessage "" "",
     Some (collaborator_error "not enough data to unpack MTI"))
  /\ state_of o = c
  /\ started (trace_of o) = [GoErrorHandler 1%nat reported]
  /\ RawMessage <$> errors_As to_ErrUnpack reported = Some demo_garbage
  /\ returned (Send (Some demo_request) (WaitReply demo_reply) (state_of o)) =
       Some (Some demo_reply, None).
Proof.
  intros c o reported.
  pose proof (unpack_error_is_reported demo_garbage (mkDemoMessage "" "")
                (collaborator_error "not enough data to unpack MTI") c eq_refl)
    as (H1 & H2 & H3 & _ & _ & _ & _ & _ & _ & _ & H11).
  split; [reflexivity |]. split; [subst o; rewrite H1; reflexivity |].
  split; [exact (H2 1%nat eq_refl) |].
  split; [subst reported; rewrite H3; reflexivity |].
  apply (H11 (Some demo_request) (list_byte_of_string "0800000001")
           [x00; x0a] 2%Z "000001" demo_reply); reflexivity.
Defined.

(** One request of a [Send] and one of a [Reply] through the writer. *)
Lemma writer_registers_before_write_witness :
  let req := mkRequest [x00; x02; x30; x38] "000009" (Some 7%nat) 8%nat in
  let rep := mkRequest [x00; x02; x30; x39] "" None 9%nat in
  conn (demo_conn demo_defaults) = Some (mkPipe [] false)
  /\ (exists rest c',
        writeLoop_request req (demo_conn demo_defaults) =
          Returns None c'
            (EvStore "000009" (mkResponse 7 8)
             :: EvConnWrite [x00; x02; x30; x38] :: rest)
        /\ respMap c' !! "000009" = Some (mkResponse 7 8))
  /\ (exists c',
        writeLoop_request rep (demo_conn demo_defaults) =
          Returns None c' [EvConnWrite [x00; x02; x30; x39]; EvSendErr 9%nat None]
        /\ respMap c' = ∅).
Proof.
  intros req rep. split; [reflexivity |].
  pose proof (writer_registers_before_write req (demo_conn demo_defaults)
                (mkPipe [] false) eq_refl) as (Hreq & _).
  pose proof (writer_registers_before_write rep (demo_conn demo_defaults)
                (mkPipe [] false) eq_refl) as (_ & Hrep & _).
  split.
  - destruct (Hreq 7%nat eq_refl) as (rest & c' & Hrun & Hmap & _).
    exists rest, c'. split; [exact Hrun |].
    rewrite Hmap. apply lookup_insert_eq.
  - destruct (Hrep eq_refl eq_refl) as (c' & Hrun & Hmap).
    exists c'. split; [exact Hrun | exact Hmap].
Defined.

(** C1 as the claim words it fails on both teardown paths: the close of the
    transport does not stand before the close of [done] in the trace, it
    stands after it. *)
Lemma done_closed_after_transport_counterexample :
  let user := trace_of (Close (demo_conn demo_defaults)) in
  let fatal := trace_of (handleConnectionError (Some (collaborator_error "EOF"))
                           (demo_busy demo_defaults)) in
  user = [EvWgWait; EvCloseDone; EvConnClose]
  /\ precedes is_ConnClose is_CloseDone user = false
  /\ precedes is_CloseDone is_ConnClose user = true
  /\ fatal =
       [EvSendErr 1%nat (Some ErrConnectionClosed);
        EvSendErr 3%nat (Some ErrConnectionClosed);
        EvGo (GoDrainRequests 4%nat); EvGo (GoWaitBarrier 4%nat);
        EvWgWait; EvCloseDone; EvConnClose]
  /\ precedes is_ConnClose is_CloseDone fatal = false
  /\ precedes is_CloseDone is_ConnClose fatal = true.
Proof. vm_compute. repeat split. Qed.

(** A [Close] with two requests in flight, and a lifetime with both
    teardown paths taken several times. *)
Lemma done_closed_once_before_transport_witness :
  let c := demo_busy demo_handlers in
  closing c = false
  /\ done_ch c = Open
  /\ (exists r c1,
        Close c = Returns r c1 [EvWgWait; EvCloseDone; EvConnClose]
        /\ done_ch c1 = Closed)
  /\ (count is_CloseDone
        (trace_of (lifetime
           [CallSend (Some demo_request) WaitTimeout;
            CallReadLoop [ReadFrame demo_garbage;
                          ReadLengthFails (collaborator_error "EOF")];
            CallHandleConnectionError (Some (collaborator_error "broken pipe"));
            CallClose; CallClose] c)) <= 1)%nat.
Proof.
  intros c.
  pose proof (done_closed_once_before_transport c eq_refl eq_refl)
    as (HC & _ & _ & HL).
  split; [reflexivity |]. split; [reflexivity |]. split; [exact HC |].
  apply HL.
Defined.

(** Three calls of [Close] in a row. *)
Lemma Close_idempotent_witness :
  let c := demo_busy demo_handlers in
  guarded c
  /\ Close (state_of (Close c)) = Returns None (state_of (Close c)) []
  /\ exists r,
       Close_times 3 c =
         Returns [r; None; None] (state_of (Close c))
           [EvWgWait; EvCloseDone; EvConnClose].
Proof.
  intros c.
  assert (Hg : guarded c) by (intros _; reflexivity).
  pose proof (Close_idempotent c) as (_ & H2 & _ & H4).
  split; [exact Hg |]. split; [exact H2 |].
  destruct (H4 Hg 2%nat) as (r & Hrun & _).
  exists r. exact Hrun.
Defined.

(** A [Send] that ends on an error leaves the other request registered. *)
Lemma Send_removes_slot_witness :
  let c := demo_busy demo_defaults in
  closing c = false
  /\ respMap c !! "000001" = Some (mkResponse 0 1)
  /\ respMap (state_of (Send (Some demo_request) (WaitErr (Some ErrConnectionClosed)) c))
       !! "000001" = None
  /\ respMap (state_of (Send (Some demo_request) (WaitErr (Some ErrConnectionClosed)) c))
       !! "000002" = Some (mkResponse 2 3).
Proof.
  intros c.
  pose proof (Send_removes_slot (Some demo_request)
                (WaitErr (Some ErrConnectionClosed)) c
                (list_byte_of_string "0800000001") [x00; x0a] 2%Z "000001"
                eq_refl eq_refl eq_refl eq_refl) as (_ & Hgone & Hrest & _).
  split; [reflexivity |]. split; [reflexivity |]. split; [exact Hgone |].
  rewrite (Hrest "000002") by discriminate. reflexivity.
Defined.

(** A reply with its request in flight, and the same reply with none. *)
Lemma handleResponse_routes_response_witness :
  let raw := list_byte_of_string "0810000001" in
  spec (demo_busy demo_handlers) raw = (demo_reply, None)
  /\ isResponse (Some demo_reply) = true
  /\ handleResponse raw (demo_busy demo_handlers) =
       Returns tt (demo_busy demo_handlers)
         [EvLookup "000001"; EvSendReply 0%nat demo_reply]
  /\ handleResponse raw (demo_conn demo_handlers) =
       Returns tt (demo_conn demo_handlers)
         [EvLookup "000001"; EvGo (GoInboundMessageHandler 2%nat demo_reply)].
Proof.
  intros raw.
  pose proof (handleResponse_routes_response raw demo_reply "000001"
                (demo_busy demo_handlers)
                ltac:(reflexivity) ltac:(reflexivity) ltac:(reflexivity))
    as (Hslot & _).
  pose proof (handleResponse_routes_response raw demo_reply "000001"
                (demo_conn demo_handlers)
                ltac:(reflexivity) ltac:(reflexivity) ltac:(reflexivity))
    as (_ & Hhandler & _).
  split; [reflexivity |]. split; [reflexivity |]. split.
  - apply (Hslot (mkResponse 0 1)). reflexivity.
  - apply (Hhandler 2%nat); reflexivity.
Defined.


(** A timeout with an [InboundMessageHandler] configured. *)
Lemma Send_timeout_witness :
  let c := demo_conn demo_handlers in
  closing c = false
  /\ returned (Send (Some demo_request) WaitTimeout c) =
       Some (None, Some ErrSendTimeout)
  /\ started (trace_of (Send (Some demo_request) WaitTimeout c)) =
       [GoSalvage 0%nat 2%nat].
Proof.
  intros c.
  pose proof (Send_timeout (Some demo_request) c
                (list_byte_of_string "0800000001") [x00; x0a] 2%Z "000001"
                eq_refl eq_refl eq_refl eq_refl) as (Hret & Hgo & _).
  split; [reflexivity |]. split; [exact Hret | exact Hgo].
Defined.

(** The handlers are installed before the option that fails. *)
Lemma options_stop_at_first_failure_witness :
  let options := [demo_with_handlers; demo_bad_option; demo_with_handlers] in
  New (T := pipe) demo_defaults "127.0.0.1:8583" demo_Unpack demo_writer options =
    (None,
     Some (fmt_Errorf_w "setting client option: "
             (collaborator_error "invalid option")))
  /\ SetOptions options (demo_conn demo_defaults) =
       Returns
         (Some (fmt_Errorf_w "setting client option: "
                  (collaborator_error "invalid option")))
         (demo_conn demo_handlers) [].
Proof.
  intros options.
  pose proof (options_stop_at_first_failure (T := pipe) (Message := demo_message)
                [demo_with_handlers] [demo_with_handlers] demo_bad_option
                demo_defaults (collaborator_error "invalid option")
                eq_refl eq_refl) as (_ & HN & _ & HS & _).
  split.
  - apply HN.
  - apply (HS (demo_conn demo_defaults)). reflexivity.
Defined.

(** The handlers given to [New], or set on the connection it returns. *)
Lemma options_at_New_or_later_witness :
  exists c : Connection (T := pipe),
    New demo_defaults "127.0.0.1:8583" demo_Unpack demo_writer [] = (Some c, None)
    /\ closing c = false
    /\ New demo_defaults "127.0.0.1:8583" demo_Unpack demo_writer
         [demo_with_handlers] =
         (Some (state_of (SetOptions [demo_with_handlers] c)), None).
Proof.
  destruct (options_at_New_or_later (T := pipe) [] [demo_with_handlers]
              demo_defaults "127.0.0.1:8583" demo_Unpack demo_writer eq_refl)
    as (c & HN & _ & _ & _ & Hc & _ & _ & _ & Hlater & _).
  exists c. split; [exact HN |]. split; [exact Hc |].
  apply Hlater. reflexivity.
Defined.

(** A [Send], the writer and the dispatcher in a row: the write comes from
    the writer. *)
Lemma division_of_labour_witness :
  let calls :=
    [CallSend (Some demo_request) (WaitReply demo_reply);
     CallWriteLoop
       [SelectRequest (mkRequest demo_request_frame "000001" (Some 4%nat) 5%nat)];
     CallHandleResponse demo_reply_raw] in
  EvConnWrite demo_request_frame ∈ trace_of (lifetime calls (demo_busy demo_handlers))
  /\ exists k script, k ∈ calls /\ k = CallWriteLoop script.
Proof.
  intros calls.
  assert (Hin : EvConnWrite demo_request_frame
                ∈ trace_of (lifetime calls (demo_busy demo_handlers))).
  { apply (list_elem_of_lookup_2 _ 5). vm_compute. reflexivity. }
  split; [exact Hin |].
  destruct (division_of_labour calls (demo_busy demo_handlers) _ Hin)
    as (k & Hk & _ & Hw & _).
  destruct (Hw (or_introl eq_refl)) as [script Hs].
  exists k, script. split; [exact Hk | exact Hs].
Defined.

(** A [Reply] of the message "0810", and the writer on its request. *)
Lemma Reply_enqueues_unregistered_witness :
  let c := demo_busy demo_defaults in
  let o := Reply (Some demo_reply) (ReplyErr None) c in
  closing c = false
  /\ enqueued (trace_of o) =
       [mkRequest ([x00; x0a] ++ demo_reply_raw) "" None 4%nat]
  /\ returned o = Some None
  /\ respMap (state_of o) = respMap c.
Proof.
  intros c o.
  pose proof (Reply_enqueues_unregistered (Some demo_reply) (ReplyErr None) c
                demo_reply_raw [x00; x0a] 2%Z eq_refl eq_refl eq_refl)
    as (He & Hr & _ & Hm & _).
  split; [reflexivity |]. split; [exact He |]. split; [exact Hr | exact Hm].
Defined.

(** A read error after a [Close]: nothing is notified, nothing is closed. *)
Lemma teardown_runs_once_witness :
  let c1 := state_of (Close (demo_busy demo_handlers)) in
  handleConnectionError (Some (collaborator_error "EOF")) c1 = Returns tt c1 [].
Proof.
  intros c1.
  pose proof (teardown_runs_once (demo_busy demo_handlers)
                (Some (collaborator_error "EOF")) (collaborator_error "EOF"))
    as (_ & _ & H & _).
  exact H.
Defined.

(** Two frames, then the end of the stream, then a frame that is never
    read. *)
Lemma readLoop_hands_over_until_failure_witness :
  let c := demo_busy demo_handlers in
  let o := readLoop [ReadFrame demo_reply_raw; ReadFrame demo_garbage;
                     ReadLengthFails (collaborator_error "EOF");
                     ReadFrame demo_request_frame] c in
  handed_over (trace_of o) = [demo_reply_raw; demo_garbage]
  /\ closing (state_of o) = true
  /\ returned o = Some LoopReturned.
Proof.
  intros c o.
  pose proof (readLoop_hands_over_until_failure [demo_reply_raw; demo_garbage]
                (ReadLengthFails (collaborator_error "EOF"))
                [ReadFrame demo_request_frame] (collaborator_error "EOF") c
                (or_introl eq_refl))
    as (_ & Hh & _ & _ & Hc & Hg).
  split; [exact Hh |]. split; [exact Hc |].
  apply Hg. intros _. reflexivity.
Defined.

(** A request, an idle period and a reply through the writer: the pipe
    holds the two frames in order. *)
Lemma writeLoop_writes_in_order_witness :
  let req := mkRequest demo_request_frame "000001" (Some 0%nat) 1%nat in
  let rep := mkRequest ([x00; x0a] ++ demo_reply_raw) "" None 2%nat in
  exists c' tr,
    writeLoop [SelectRequest req; SelectIdle; SelectRequest rep]
      (demo_conn demo_defaults) = Returns LoopWaiting c' tr
    /\ conn c' =
         Some (mkPipe [demo_request_frame; [x00; x0a] ++ demo_reply_raw] false)
    /\ written tr = [demo_request_frame; [x00; x0a] ++ demo_reply_raw]
    /\ err_sends tr = [(2%nat, None)].
Proof.
  intros req rep.
  destruct (writeLoop_writes_in_order
              [SelectRequest req; SelectIdle; SelectRequest rep]
              (demo_conn demo_defaults) (mkPipe [] false)
              (mkPipe [demo_request_frame; [x00; x0a] ++ demo_reply_raw] false)
              eq_refl
              ltac:(repeat constructor; discriminate)
              ltac:(reflexivity))
    as (c' & tr & Hrun & Hw & Hc & _ & He & _).
  exists c', tr. split; [exact Hrun |]. split; [exact Hc |].
  split; [exact Hw | exact He].
Defined.

(** A request with STAN "000001" where a slot with that STAN is registered
    already: the reply goes to the channel of the later request. *)
Lemma slot_round_trip_witness :
  let req := mkRequest demo_request_frame "000001" (Some 4%nat) 5%nat in
  let c := demo_busy demo_handlers in
  let c1 := state_of (writeLoop_request req c) in
  respMap c !! "000001" = Some (mkResponse 0 1)
  /\ handleResponse demo_reply_raw c1 =
       Returns tt c1 [EvLookup "000001"; EvSendReply 4%nat demo_reply]
  /\ respMap c1 !! "000002" = Some (mkResponse 2 3).
Proof.
  intros req c c1.
  pose proof (slot_round_trip req 4%nat demo_reply_raw demo_reply c
                (mkPipe [] false) eq_refl eq_refl
                ltac:(reflexivity) ltac:(reflexivity) ltac:(reflexivity))
    as (Hd & Hk & _).
  split; [reflexivity |]. split; [exact Hd |].
  etransitivity; [apply (Hk "000002"); discriminate | reflexivity].
Defined.

(** A frame that does not unpack, with an [ErrorHandler] configured. *)
Lemma handleResponse_delivers_once_witness :
  exists tr,
    handleResponse demo_garbage (demo_busy demo_handlers) =
      Returns tt (demo_busy demo_handlers) tr
    /\ (length (replies tr) + length (started tr) <= 1)%nat.
Proof.
  destruct (handleResponse_delivers_once demo_garbage (demo_busy demo_handlers))
    as (tr & Hrun & Hone & _).
  exists tr. split; [exact Hrun | exact Hone].
Defined.

(** A [Send] of a [nil] message, which panics in [Pack], among other
    calls. *)
Lemma barrier_balanced_witness :
  let calls :=
    [CallReply (Some demo_reply) ReplyTimeout;
     CallHandleResponse demo_reply_raw;
     CallSend None WaitTimeout;
     CallClose] in
  balanced (trace_of (lifetime calls (demo_busy demo_handlers)))
  /\ returned (lifetime calls (demo_busy demo_handlers)) = None.
Proof.
  intros calls.
  pose proof (barrier_balanced calls None WaitTimeout ReplyTimeout
                (demo_busy demo_handlers)) as (Hb & _).
  split; [exact Hb | reflexivity].
Defined.

(** The status set by the user outlives the teardown. *)
Lemma engine_keeps_settings_witness :
  let calls :=
    [CallSend (Some demo_request) WaitTimeout;
     CallReadLoop [ReadBodyFails (collaborator_error "unexpected EOF")];
     CallClose] in
  let c1 := state_of (lifetime calls
                        (state_of (SetStatus StatusOnline (demo_busy demo_handlers)))) in
  Status_ c1 = Returns StatusOnline c1 []
  /\ Opts (state_of (lifetime calls (demo_busy demo_handlers))) = demo_handlers.
Proof.
  intros calls c1.
  pose proof (engine_keeps_settings calls (demo_busy demo_handlers) StatusOnline []
                eq_refl) as ((_ & Ho & _) & _ & Hs & _).
  split; [exact Hs | exact Ho].
Defined.

(** Two [Send]s and a [Reply]: five channels, all different. *)
Lemma request_channels_distinct_witness :
  let calls :=
    [CallSend (Some demo_request) WaitTimeout;
     CallReply (Some demo_reply) (ReplyErr None);
     CallSend (Some demo_request) (WaitReply demo_reply)] in
  made (trace_of (lifetime calls (demo_busy demo_defaults))) = [4; 5; 6; 7; 8]%nat
  /\ NoDup (made (trace_of (lifetime calls (demo_busy demo_defaults)))).
Proof.
  intros calls.
  pose proof (request_channels_distinct calls (demo_busy demo_defaults))
    as (Hnd & _).
  split; [reflexivity | exact Hnd].
Defined.

(** Two frames with a read timeout between them. *)
Lemma readResponseLoop_dispatches_in_order_witness :
  readResponseLoop
    [DispatchMessage demo_reply_raw; DispatchTimeout; DispatchMessage demo_garbage]
    (demo_busy demo_handlers) =
    Returns LoopWaiting (demo_busy demo_handlers)
      [EvGo (GoHandleResponse demo_reply_raw); EvGo (GoHandleResponse demo_garbage)].
Proof.
  pose proof (readResponseLoop_dispatches_in_order
                [DispatchMessage demo_reply_raw; DispatchTimeout;
                 DispatchMessage demo_garbage] [] []
                (demo_busy demo_handlers)
                ltac:(repeat constructor; discriminate)) as (Hrun & _).
  exact Hrun.
Defined.

(** The loops after a [Close] with an [ErrorHandler] configured. *)
Lemma loops_end_after_Close_witness :
  let c := demo_busy demo_handlers in
  let c1 := state_of (Close c) in
  closing c = false
  /\ done_ch c = Open
  /\ writeLoop [SelectDone] c1 = Returns LoopReturned c1 []
  /\ readLoop [ReadLengthFails (collaborator_error "use of closed network connection")]
       c1 =
       Returns LoopReturned c1
         [EvGo (GoErrorHandler 1%nat
                  (SafeError (collaborator_error "use of closed network connection")
                     "failed to read message length"))].
Proof.
  intros c c1.
  pose proof (loops_end_after_Close [] [] []
                (collaborator_error "use of closed network connection") c
                eq_refl eq_refl) as (_ & _ & Hw & _ & Hr).
  split; [reflexivity |]. split; [reflexivity |]. split; [exact Hw | exact Hr].
Defined.

(** [Connect] on a connection made by [NewFrom], before and after [Close]. *)
Lemma Connect_keeps_transport_witness :
  let c := demo_conn demo_on_connect in
  let dialed := (Some (mkPipe [] false), None) in
  conn c = Some (mkPipe [] false)
  /\ Connect dialed (demo_sign_on WaitTimeout) c = ConnectReturns None c run
  /\ Connect dialed (demo_sign_on WaitTimeout) (state_of (Close c)) =
       ConnectReturns None (state_of (Close c)) run.
Proof.
  intros c dialed.
  pose proof (Connect_keeps_transport dialed (demo_sign_on WaitTimeout) c
                (mkPipe [] false) eq_refl) as (H1 & _ & _ & _ & H2 & _).
  split; [reflexivity |]. split; [exact H1 | exact H2].
Defined.

(** A dial that is refused. *)
Lemma Connect_dial_fails_witness :
  let c := demo_unconnected demo_on_connect in
  let refused := collaborator_error "connect: connection refused" in
  conn c = None
  /\ Connect (None, Some refused) (demo_sign_on WaitTimeout) c =
       ConnectReturns
         (Some (fmt_Errorf_w "connecting to server 127.0.0.1:8583: " refused))
         c [EvDial false "127.0.0.1:8583" 10000000000].
Proof.
  intros c refused.
  pose proof (Connect_dial_fails (None, Some refused) (demo_sign_on WaitTimeout) c
                refused eq_refl eq_refl) as (Hrun & _).
  split; [reflexivity | exact Hrun].
Defined.

(** A sign-on that is answered, and one that times out. *)
Lemma Connect_runs_OnConnect_witness :
  let c := demo_unconnected demo_on_connect in
  let dialed := (Some (mkPipe [] false), None) in
  conn c = None
  /\ connect_error (Connect dialed (demo_sign_on (WaitReply demo_reply)) c) =
       Some None
  /\ last (connect_trace (Connect dialed (demo_sign_on (WaitReply demo_reply)) c)) =
       Some (EvEngine (EvGo (GoConnectionEstablishedHandler 6%nat)))
  /\ connect_error (Connect dialed (demo_sign_on WaitTimeout) c) =
       Some (Some (fmt_Errorf_w "on connect callback 127.0.0.1:8583: "
                     ErrSendTimeout))
  /\ closing (connect_state (Connect dialed (demo_sign_on WaitTimeout) c)) = true.
Proof.
  intros c dialed.
  pose (c1 := set_conn (Some (mkPipe [] false)) c).
  pose proof (Send_enqueues (Some demo_request) (WaitReply demo_reply) c1
                (list_byte_of_string "0800000001") [x00; x0a] 2%Z "000001"
                eq_refl eq_refl eq_refl eq_refl) as Hanswered.
  pose proof (Send_enqueues (Some demo_request) WaitTimeout c1
                (list_byte_of_string "0800000001") [x00; x0a] 2%Z "000001"
                eq_refl eq_refl eq_refl eq_refl) as Htimed_out.
  pose proof (bind_eq _ (fun r => ret r.2) c1 _ _ _ Hanswered) as Ha.
  pose proof (bind_eq _ (fun r => ret r.2) c1 _ _ _ Htimed_out) as Ht.
  cbv beta iota delta [ret snd] in Ha, Ht.
  pose proof (Connect_runs_OnConnect dialed (demo_sign_on (WaitReply demo_reply)) c
                (mkPipe [] false) eq_refl eq_refl) as (_ & Hok & _).
  pose proof (Connect_runs_OnConnect dialed (demo_sign_on WaitTimeout) c
                (mkPipe [] false) eq_refl eq_refl) as (_ & _ & Hfail).
  specialize (Hok 5%nat _ _ eq_refl Ha).
  destruct (Hfail 5%nat ErrSendTimeout _ _ eq_refl Ht ltac:(intros _; reflexivity))
    as (Hrun & _ & Hcl & _).
  split; [reflexivity |].
  split; [exact (f_equal connect_error Hok) |].
  split.
  { etransitivity;
      [exact (f_equal (fun o => last (connect_trace o)) Hok)
      | vm_compute; reflexivity]. }
  split.
  { etransitivity; [exact (f_equal connect_error Hrun) | reflexivity]. }
  etransitivity; [exact (f_equal (fun o => closing (connect_state o)) Hrun) |].
  exact Hcl.
Defined.

(** The echo: "0800" out, "0810" back on the channel of the request. *)
Lemma Send_request_meets_reply_witness :
  let c := demo_conn demo_defaults in
  let req := mkRequest demo_request_frame "000001" (Some 0%nat) 1%nat in
  let c1 := state_of (writeLoop_request req c) in
  enqueued (trace_of (Send (Some demo_request) (WaitReply demo_reply) c)) = [req]
  /\ handleResponse demo_reply_raw c1 =
       Returns tt c1 [EvLookup "000001"; EvSendReply 0%nat demo_reply]
  /\ returned (Send (Some demo_request) (WaitReply demo_reply) c) =
       Some (Some demo_reply, None).
Proof.
  intros c req c1.
  pose proof (Send_request_meets_reply (Some demo_request) c
                (list_byte_of_string "0800000001") [x00; x0a] 2%Z "000001"
                (mkPipe [] false) demo_reply_raw demo_reply
                eq_refl eq_refl eq_refl eq_refl eq_refl
                ltac:(reflexivity) ltac:(reflexivity) ltac:(reflexivity))
    as (He & _ & _ & Hd & Hr & _).
  split; [exact He |]. split; [exact Hd | exact Hr].
Defined.

(** [Close] over a pipe that is closed already. *)
Lemma Close_reports_transport_error_witness :
  let c := set_conn (Some (mkPipe [] true)) (demo_busy demo_handlers) in
  let e := collaborator_error "io: read/write on closed pipe" in
  closing c = false
  /\ done_ch c = Open
  /\ Close c =
       Returns (Some (fmt_Errorf_w "closing connection: " e)) (state_of (Close c))
         [EvWgWait; EvCloseDone; EvConnClose]
  /\ done_ch (state_of (Close c)) = Closed
  /\ Close (state_of (Close c)) = Returns None (state_of (Close c)) [].
Proof.
  intros c e.
  pose proof (Close_reports_transport_error c (mkPipe [] true) e e
                eq_refl eq_refl eq_refl eq_refl)
    as (Hrun & _ & _ & Hd & _ & Hagain & _).
  split; [reflexivity |]. split; [reflexivity |]. split; [exact Hrun |].
  split; [exact Hd | exact Hagain].
Defined.

(** A read error, then a write error, then [Close]: the two handlers are
    started by the first alone. *)
Lemma closed_handlers_at_most_once_witness :
  let c := demo_busy demo_handlers in
  let calls :=
    [CallReadLoop [ReadLengthFails (collaborator_error "EOF")];
     CallHandleConnectionError (Some (collaborator_error "broken pipe"));
     CallClose] in
  closed_handlers_started (trace_of (lifetime calls c)) = [3; 4]%nat
  /\ closed_handlers_started (trace_of (Close c)) = []
  /\ closed_handlers_started
       (trace_of (handleConnectionError (Some (collaborator_error "EOF")) c)) =
       [3; 4]%nat.
Proof.
  intros c calls.
  pose proof (closed_handlers_at_most_once calls c (collaborator_error "EOF")
                eq_refl) as (_ & _ & Hclose & Hfatal).
  split; [vm_compute; reflexivity |]. split; [exact Hclose |].
  by destruct (Hfatal eq_refl eq_refl) as [Hs _].
Defined.
